(** * ops-via-sftp: a shallow embedding of the three SFTP scripts

    - [sftp-csv-validator.py]: recursive discovery, retry, per-file
      validation, log and database persistence, summary, notification;
    - [fetch_and_delete_files_in_parallel.py]: flat listing, batches,
      fetch-then-delete tasks on a thread pool;
    - [delete_csv_files_via_sftp.py]: the same, one file after the other.

    The functions are embedded in a state and exception monad over the
    world they act on.  The two functions that run as tasks of a thread
    pool, [process_file] and [fetch_and_delete_file], are embedded a
    second time as the steps they take, and run under every schedule.

    The first part of the file holds the model, the second part the
    lemmas and theorems about it. *)

From Stdlib Require Import List String Ascii NArith ZArith Bool Arith Lia.
From Stdlib Require Import Permutation DecimalString.
Import ListNotations.
Open Scope string_scope.
Open Scope list_scope.

(* ================================================================== *)
(** * Part I: the model *)
(* ================================================================== *)

(** ** Python values *)

(** A Python [str] is a sequence of Unicode code points. *)
Definition str := list N.

Definition lit (s : string) : str := map N_of_ascii (list_ascii_of_string s).
Coercion lit : string >-> str.

Definition str_cat (a b : str) : str := a ++ b.
Infix "+++" := str_cat (at level 60, right associativity).

Fixpoint str_eqb (a b : str) : bool :=
  match a, b with
  | [], [] => true
  | x :: a', y :: b' => N.eqb x y && str_eqb a' b'
  | _, _ => false
  end.

(** The newline and the double quote, which a literal cannot hold. *)
Definition NL : str := [10%N].
Definition DQUOTE : str := [34%N].

(** [s.startswith(prefix)] *)
Fixpoint startswith (s prefix : str) : bool :=
  match prefix, s with
  | [], _ => true
  | p :: prefix', c :: s' => N.eqb c p && startswith s' prefix'
  | _ :: _, [] => false
  end.

(** [s.endswith(suffix)] *)
Definition endswith (s suffix : str) : bool :=
  startswith (rev s) (rev suffix).

(** [sub in s] *)
Fixpoint contains (sub s : str) : bool :=
  startswith s sub ||
  match s with
  | [] => false
  | _ :: s' => contains sub s'
  end.

(** [c.isspace()], the characters [str.strip()] removes: the ASCII
    whitespace and separators 0x09-0x0D, 0x1C-0x20, then NEL, NBSP and the
    Unicode space separators. *)
Definition isspace (c : N) : bool :=
  ((9 <=? c) && (c <=? 13) || (28 <=? c) && (c <=? 32)
   || (c =? 133) || (c =? 160) || (c =? 5760)
   || (8192 <=? c) && (c <=? 8202)
   || (c =? 8232) || (c =? 8233) || (c =? 8239) || (c =? 8287)
   || (c =? 12288))%N.

Fixpoint lstrip (s : str) : str :=
  match s with
  | [] => []
  | c :: s' => if isspace c then lstrip s' else s
  end.

Definition rstrip (s : str) : str := rev (lstrip (rev s)).

(** [s.strip()] *)
Definition strip (s : str) : str := rstrip (lstrip s).

(** Truth value of a Python sequence: empty is false. *)
Definition truthy {A} (l : list A) : bool :=
  match l with [] => false | _ :: _ => true end.

(** Truth value of a Python integer: zero is false. *)
Definition int_truthy (z : Z) : bool := negb (z =? 0)%Z.

(** [str(n)] for a non-negative integer. *)
Definition str_of_nat (n : nat) : str :=
  lit (NilEmpty.string_of_uint (Nat.to_uint n)).

(** [os.path.join(a, p)] of posixpath, two arguments. *)
Definition os_path_join (a p : str) : str :=
  if startswith p "/" then p
  else if negb (truthy a) || endswith a "/" then a +++ p
  else a +++ "/" +++ p.

Fixpoint until_sep (s : str) : str :=
  match s with
  | [] => []
  | c :: s' => if N.eqb c 47 then [] else c :: until_sep s'
  end.

(** [os.path.basename(p)]: what follows the last slash. *)
Definition os_path_basename (p : str) : str := rev (until_sep (rev p)).

(** *** [json.dumps] on a list of strings (default [ensure_ascii]) *)

Definition hex_digit (n : N) : N :=
  (if n <? 10 then 48 + n else 87 + n)%N.

Definition u_escape (c : N) : str :=
  [92; 117; hex_digit ((c / 4096) mod 16); hex_digit ((c / 256) mod 16);
   hex_digit ((c / 16) mod 16); hex_digit (c mod 16)]%N.

Definition json_escape_char (c : N) : str :=
  (if c =? 34 then [92; 34]
   else if c =? 92 then [92; 92]
   else if c =? 10 then [92; 110]
   else if c =? 13 then [92; 114]
   else if c =? 9 then [92; 116]
   else if c =? 12 then [92; 102]
   else if c =? 8 then [92; 98]
   else if (32 <=? c) && (c <=? 126) then [c]
   else if c <? 65536 then u_escape c
   else
     let n := c - 65536 in
     u_escape (N.lor 55296 (N.land (N.shiftr n 10) 1023))
       ++ u_escape (N.lor 56320 (N.land n 1023)))%N.

Definition json_dumps_str (s : str) : str :=
  DQUOTE +++ flat_map json_escape_char s +++ DQUOTE.

Fixpoint join_with (sep : str) (items : list str) : str :=
  match items with
  | [] => []
  | [x] => x
  | x :: rest => x +++ sep +++ join_with sep rest
  end.

Definition json_dumps (items : list str) : str :=
  "[" +++ join_with ", " (map json_dumps_str items) +++ "]".

(** *** Exceptions and results *)

(** An exception: the name of its class, the names of the classes that
    class derives from (below [Exception]), [str(e)] and the text
    [traceback.format_exc()] renders for it. *)
Record exn := mkExn {
  exn_class : str;
  exn_bases : list str;
  exn_str : str;
  exn_traceback : str
}.

(** [isinstance(e, cls)], which is what [except cls] tests: the class of
    [e] is [cls] or derives from it. *)
Definition isinstance (e : exn) (cls : str) : bool :=
  str_eqb (exn_class e) cls || existsb (str_eqb cls) (exn_bases e).

Inductive res (A : Type) : Type :=
| Ok (a : A)
| Raise (e : exn).
Arguments Ok {A} a.
Arguments Raise {A} e.

Definition is_ok {A} (r : res A) : bool :=
  match r with Ok _ => true | Raise _ => false end.

Definition AttributeError (msg : str) : exn := mkExn "AttributeError" [] msg [].
Definition TypeError (msg : str) : exn := mkExn "TypeError" [] msg [].

(** ** A state and exception monad *)

Definition M (W A : Type) : Type := W -> res A * W.

Definition ret {W A} (a : A) : M W A := fun w => (Ok a, w).

Definition raise {W A} (e : exn) : M W A := fun w => (Raise e, w).

Definition bind {W A B} (c : M W A) (k : A -> M W B) : M W B :=
  fun w =>
    match c w with
    | (Ok a, w1) => k a w1
    | (Raise e, w1) => (Raise e, w1)
    end.

Notation "x <- c ;; k" := (bind c (fun x => k))
  (at level 61, c at next level, right associativity).
Notation "c ;;; k" := (bind c (fun _ => k))
  (at level 61, right associativity).

(** [try: body except Exception as e: handler e] *)
Definition try_except {W A} (body : M W A) (handler : exn -> M W A) : M W A :=
  fun w =>
    match body w with
    | (Ok a, w1) => (Ok a, w1)
    | (Raise e, w1) => handler e w1
    end.

(** [try: body finally: cleanup] *)
Definition try_finally {W A} (body : M W A) (cleanup : M W unit) : M W A :=
  fun w =>
    match body w with
    | (r, w1) =>
        match cleanup w1 with
        | (Ok _, w2) => (r, w2)
        | (Raise e, w2) => (Raise e, w2)
        end
    end.

(** A value or an exception that does not depend on the state. *)
Definition of_res {W A} (r : res A) : M W A := fun w => (r, w).

(** [for x in xs: body x] *)
Fixpoint for_each {W A} (xs : list A) (body : A -> M W unit) : M W unit :=
  match xs with
  | [] => ret tt
  | x :: xs' => body x ;;; for_each xs' body
  end.

(** ** The world the scripts run in *)

(** One entry of [sftp.listdir_attr]: paramiko's [SFTPAttributes].
    [st_mode] is [None] when the server sent no permissions. *)
Record SFTPAttributes := mkAttr {
  attr_filename : str;
  st_mode : option Z
}.

(** The attribute lookup [paramiko.SFTPAttributes.S_ISDIR].  The class
    has the five [FLAG_] constants, [from_stat], [asbytes] and what every
    class has; it has no attribute of that name ([S_ISDIR] is a function
    of the module [stat]), so the lookup raises. *)
Definition SFTPAttributes_S_ISDIR : res (option Z -> bool) :=
  Raise (AttributeError
           "type object 'SFTPAttributes' has no attribute 'S_ISDIR'").

(** One row of the [results] table. *)
Record Row := mkRow {
  row_id : Z;
  row_filename : str;
  row_state : str;
  row_errors : str;
  row_warnings : str;
  row_info : str;
  row_timestamp : str
}.

(** The dict [{"path": ..., "filename": ...}] of a discovered file. *)
Record FileInfo := mkFileInfo {
  fi_path : str;
  fi_filename : str
}.

(** What the scripts do to the outside, in program order. *)
Inductive Event : Type :=
| EvConnect (ok : bool)
| EvListdir (path : str) (ok : bool)
| EvGet (remote_path local_path : str) (ok : bool)
| EvRemove (remote_path : str) (ok : bool)
| EvRead (local_path : str) (ok : bool)
| EvLogInit (ok : bool)
| EvLogAppend (line : str) (ok : bool)
| EvDbInsert (filename : str) (ok : bool)
| EvSubmit (filename : str)
| EvClose.

(** How the outside answers.  The remote namespace is fixed for a run; a
    transfer, a local read, an opening of the log file and a database
    insertion answer by the number of calls of that kind made before, so
    that a call can fail once and succeed when repeated. *)
Record Env := mkEnv {
  connect_result : res unit;
  listdir_attr_result : str -> res (list SFTPAttributes);
  get_result : nat -> str -> str -> res unit;
  remove_result : nat -> str -> res unit;
  read_result : nat -> str -> res str;
  log_open_result : nat -> res unit;
  db_insert_result : nat -> res unit;
  current_timestamp : nat -> str
}.

Record World := mkWorld {
  calls_get : nat;
  calls_remove : nat;
  calls_read : nat;
  calls_log : nat;
  calls_db : nat;
  trace : list Event;
  log_file : str;                  (* content of LOG_FILE *)
  db : option (list Row);          (* the results table, if created *)
  stdout : list str;               (* what print wrote *)
  logging : list (str * str)       (* level and message of logging calls *)
}.

Definition emit (ev : Event) (w : World) : World :=
  mkWorld (calls_get w) (calls_remove w) (calls_read w) (calls_log w)
    (calls_db w) (trace w ++ [ev]) (log_file w) (db w) (stdout w) (logging w).

Definition print (line : str) : M World unit := fun w =>
  (Ok tt,
   mkWorld (calls_get w) (calls_remove w) (calls_read w) (calls_log w)
     (calls_db w) (trace w) (log_file w) (db w) (stdout w ++ [line])
     (logging w)).

Definition logging_log (level msg : str) : M World unit := fun w =>
  (Ok tt,
   mkWorld (calls_get w) (calls_remove w) (calls_read w) (calls_log w)
     (calls_db w) (trace w) (log_file w) (db w) (stdout w)
     (logging w ++ [(level, msg)])).

Definition logging_info : str -> M World unit := logging_log "INFO".
Definition logging_error : str -> M World unit := logging_log "ERROR".

Section Primitives.
Variable env : Env.

(** [paramiko.Transport(...).connect(...)], [SFTPClient.from_transport] *)
Definition sftp_connect : M World unit := fun w =>
  let r := connect_result env in
  (r, emit (EvConnect (is_ok r)) w).

Definition sftp_close : M World unit := fun w => (Ok tt, emit EvClose w).

(** [sftp.listdir_attr(path)] *)
Definition sftp_listdir_attr (path : str) : M World (list SFTPAttributes) :=
  fun w =>
    let r := listdir_attr_result env path in
    (r, emit (EvListdir path (is_ok r)) w).

(** [sftp.get(remote_path, local_path)] *)
Definition sftp_get (remote_path local_path : str) : M World unit := fun w =>
  let r := get_result env (calls_get w) remote_path local_path in
  (r,
   emit (EvGet remote_path local_path (is_ok r))
     (mkWorld (S (calls_get w)) (calls_remove w) (calls_read w) (calls_log w)
        (calls_db w) (trace w) (log_file w) (db w) (stdout w) (logging w))).

(** [sftp.remove(remote_path)] *)
Definition sftp_remove (remote_path : str) : M World unit := fun w =>
  let r := remove_result env (calls_remove w) remote_path in
  (r,
   emit (EvRemove remote_path (is_ok r))
     (mkWorld (calls_get w) (S (calls_remove w)) (calls_read w) (calls_log w)
        (calls_db w) (trace w) (log_file w) (db w) (stdout w) (logging w))).

(** [with open(local_path, "r", encoding="utf-8") as f: f.read()] *)
Definition read_text (local_path : str) : M World str := fun w =>
  let r := read_result env (calls_read w) local_path in
  (r,
   emit (EvRead local_path (is_ok r))
     (mkWorld (calls_get w) (calls_remove w) (S (calls_read w)) (calls_log w)
        (calls_db w) (trace w) (log_file w) (db w) (stdout w) (logging w))).

(** [with open(LOG_FILE, "w", ...) as log: log.write(text)]: when the file
    opens, its content becomes [text]. *)
Definition log_write_new (text : str) : M World unit := fun w =>
  let r := log_open_result env (calls_log w) in
  (r,
   emit (EvLogInit (is_ok r))
     (mkWorld (calls_get w) (calls_remove w) (calls_read w) (S (calls_log w))
        (calls_db w) (trace w)
        (if is_ok r then text else log_file w)
        (db w) (stdout w) (logging w))).

(** [with open(LOG_FILE, "a", ...) as log: log.write(text)]: when the file
    opens, [text] is added at its end. *)
Definition log_append (text : str) : M World unit := fun w =>
  let r := log_open_result env (calls_log w) in
  (r,
   emit (EvLogAppend text (is_ok r))
     (mkWorld (calls_get w) (calls_remove w) (calls_read w) (S (calls_log w))
        (calls_db w) (trace w)
        (if is_ok r then log_file w +++ text else log_file w)
        (db w) (stdout w) (logging w))).

(** The same in two steps: the opening of the file for a record [text],
    and then one character reaching the file. *)
Definition log_open_append (text : str) : M World unit := fun w =>
  let r := log_open_result env (calls_log w) in
  (r,
   emit (EvLogAppend text (is_ok r))
     (mkWorld (calls_get w) (calls_remove w) (calls_read w) (S (calls_log w))
        (calls_db w) (trace w) (log_file w) (db w) (stdout w) (logging w))).

Definition log_put (c : N) : M World unit := fun w =>
  (Ok tt,
   mkWorld (calls_get w) (calls_remove w) (calls_read w) (calls_log w)
     (calls_db w) (trace w) (log_file w ++ [c]) (db w) (stdout w)
     (logging w)).

End Primitives.

(** ** Thread pools, run one task after the other

    [executor.submit(task)] runs the task to its end and keeps what it
    returned or raised in the future; [future.result()] gives that back.
    This is one schedule, that of a pool with a single worker; what holds
    of the tasks under every schedule is stated on [Pool], below. *)

Definition executor_submit {A} (name : str) (task : M World A)
  : M World (res A) := fun w =>
  match task (emit (EvSubmit name) w) with
  | (r, w1) => (Ok r, w1)
  end.

Definition future_result {A} (future : res A) : M World A :=
  fun w => (future, w).

(** A computation on the world, run beside a local variable of type [S]. *)
Definition lift_world {S A} (c : M World A) : M (S * World) A :=
  fun sw =>
    match c (snd sw) with
    | (r, w1) => (r, (fst sw, w1))
    end.

(** ** Batches: [for i in range(0, len(files), size): files[i:i + size]] *)

(** [range(0, stop, step)] for a positive step. *)
Definition range_step (stop step : nat) : list nat :=
  map (fun k => k * step) (seq 0 ((stop + step - 1) / step)).

(** [l[i:j]] for [0 <= i <= j]. *)
Definition slice {A} (l : list A) (i j : nat) : list A :=
  firstn (j - i) (skipn i l).

Definition batches_of {A} (size : nat) (files : list A) : list (nat * list A) :=
  map (fun i => (i, slice files i (i + size)))
    (range_step (List.length files) size).

(* ------------------------------------------------------------------ *)
(** ** sftp-csv-validator.py *)
(* ------------------------------------------------------------------ *)

Module Validator.

(** *** Database *)

Definition next_row_id (rows : list Row) : Z :=
  (1 + fold_right Z.max 0 (map row_id rows))%Z.

(** [CREATE TABLE IF NOT EXISTS results (...)] *)
Definition initialize_database : M World unit := fun w =>
  (Ok tt,
   mkWorld (calls_get w) (calls_remove w) (calls_read w) (calls_log w)
     (calls_db w) (trace w) (log_file w)
     (match db w with None => Some [] | Some rows => Some rows end)
     (stdout w) (logging w)).

Definition no_such_table : exn :=
  mkExn "OperationalError" [lit "DatabaseError"; lit "Error"]
    "no such table: results" [].

(** [INSERT INTO results (filename, state, errors, warnings, info)] *)
Definition save_to_database (env : Env) (filename state : str)
  (errors warnings info : list str) : M World unit := fun w =>
  let k := calls_db w in
  let bump rows ok :=
    emit (EvDbInsert filename ok)
      (mkWorld (calls_get w) (calls_remove w) (calls_read w) (calls_log w)
         (S k) (trace w) (log_file w) rows (stdout w) (logging w)) in
  match db_insert_result env k, db w with
  | Raise e, _ => (Raise e, bump (db w) false)
  | Ok _, None => (Raise no_such_table, bump None false)
  | Ok _, Some rows =>
      (Ok tt,
       bump (Some (rows ++
               [mkRow (next_row_id rows) filename state (json_dumps errors)
                  (json_dumps warnings) (json_dumps info)
                  (current_timestamp env k)])) true)
  end.

(** *** CSV validation *)

Definition validate_csv {S D} (csv_content : str) (schema_dict : S)
  (dialect : D) : list str * list str * list str :=
  let errors := [] in
  let warnings := [] in
  let info := [] in
  if negb (truthy (strip csv_content))
  then (errors ++ [lit "CSV content is empty"], warnings, info)
  else (errors, warnings, info ++ [lit "CSV read successfully"]).

(** *** Retry *)

Section Retry.
Context {W A : Type}.
Variable print_line : str -> W -> W.

Definition attempt_failed (attempt : nat) (e : exn) : str :=
  "Attempt " +++ str_of_nat (attempt + 1) +++ " failed with error: "
    +++ exn_str e.

(** The body of [for attempt in range(max_retries)], over the attempts
    still to make. *)
Fixpoint safe_sftp_attempts (func : M W A) (max_retries : Z)
  (attempts : list nat) : M W (option A) :=
  match attempts with
  | [] => ret None
  | attempt :: rest => fun w =>
      match func w with
      | (Ok a, w1) => (Ok (Some a), w1)
      | (Raise e, w1) =>
          let w2 := print_line (attempt_failed attempt e) w1 in
          if (Z.of_nat attempt =? max_retries - 1)%Z
          then (Raise e, w2)
          else safe_sftp_attempts func max_retries rest w2
      end
  end.

(** [safe_sftp_operation(func, max_retries)]; [None] is Python's [None]
    of the final [return None]. *)
Definition safe_sftp_operation (func : M W A) (max_retries : Z)
  : M W (option A) :=
  safe_sftp_attempts func max_retries (seq 0 (Z.to_nat max_retries)).

(** [func], keeping beside the state what each of its calls returned or
    raised, in order. *)
Definition recorded (func : M W A) : M (W * list (res A)) A := fun wh =>
  match func (fst wh) with
  | (r, w1) => (r, (w1, snd wh ++ [r]))
  end.

Definition print_beside (line : str) (wh : W * list (res A))
  : W * list (res A) :=
  (print_line line (fst wh), snd wh).

End Retry.

Definition world_print (line : str) (w : World) : World :=
  snd (print line w).

(** *** Discovery, processing and the run *)

Section Pipeline.
Variable env : Env.
(** Configuration read from config.yaml. *)
Variable ROOT_DIRECTORIES : list str.
Variable LOCAL_DIRECTORY : str.
Variable KEYWORD : str.
Variable FILE_EXTENSION : str.
(** How many calls of [_recurse] inside one another the interpreter
    allows below the first. *)
Variable recursion_limit : nat.

Definition RecursionError : exn :=
  mkExn "RecursionError" [lit "RuntimeError"]
    "maximum recursion depth exceeded" [].

Definition append_file (fi : FileInfo) : M (list FileInfo * World) unit :=
  fun sw => (Ok tt, (fst sw ++ [fi], snd sw)).

(** The inner function of [list_files_recursive]; the state is the local
    [file_list] and the world, [depth] the number of nested calls still
    allowed.  The test of line 137 first looks [S_ISDIR] up in the class,
    then would call it.  A call beyond the recursion limit raises in the
    caller, inside the caller's [try]. *)
Fixpoint _recurse (depth : nat) (path : str)
  : M (list FileInfo * World) unit :=
  try_except
    (entries <- lift_world (sftp_listdir_attr env path) ;;
     for_each entries (fun entry =>
       let remote_path := os_path_join path (attr_filename entry) in
       S_ISDIR <- of_res SFTPAttributes_S_ISDIR ;;
       if S_ISDIR (st_mode entry)
       then match depth with
            | O => raise RecursionError
            | S depth' => _recurse depth' remote_path
            end
       else
         if endswith remote_path FILE_EXTENSION
            && contains KEYWORD remote_path
         then append_file
                (mkFileInfo remote_path (os_path_basename remote_path))
         else ret tt))
    (fun e =>
       lift_world
         (print ("Error listing " +++ path +++ ": " +++ exn_str e))).

Definition list_files_recursive (remote_dir : str)
  : M World (list FileInfo) := fun w =>
  match _recurse recursion_limit remote_dir ([], w) with
  | (Ok _, (file_list, w1)) => (Ok file_list, w1)
  | (Raise e, (_, w1)) => (Raise e, w1)
  end.

Definition validation_state (errors : list str) : str :=
  if truthy errors then lit "invalid" else lit "valid".

Definition log_line_of (filename state : str)
  (errors warnings info : list str) : str :=
  filename +++ "," +++ state +++ "," +++ json_dumps errors +++ ","
    +++ json_dumps warnings +++ "," +++ json_dumps info +++ NL.

Definition error_line_of (filename error_str : str) : str :=
  filename +++ ",error," +++ error_str +++ ",," +++ NL.

(** [process_file], run from its first statement to its last with
    nothing in between; [with log_lock:] then finds the lock free and
    gives it back.  [Pool.process_file] is the same function step by
    step, lock included. *)
Definition process_file {S D} (file_info : FileInfo) (schema_dict : S)
  (dialect : D) : M World unit :=
  let filename := fi_filename file_info in
  let remote_path := fi_path file_info in
  let local_path := os_path_join LOCAL_DIRECTORY filename in
  try_except
    (safe_sftp_operation world_print (sftp_get env remote_path local_path) 3 ;;;
     csv_content <- read_text env local_path ;;
     match validate_csv csv_content schema_dict dialect with
     | (errors, warnings, info) =>
         let state := validation_state errors in
         let log_line := log_line_of filename state errors warnings info in
         log_append env log_line ;;;
         save_to_database env filename state errors warnings info
     end)
    (fun e =>
       let error_str := exn_str e in
       let log_line := error_line_of filename error_str in
       log_append env log_line ;;;
       print ("Error processing file " +++ filename +++ ": "
                +++ exn_traceback e)).

Definition HEADER : str :=
  "File,Validation State,Errors,Warnings,Info" +++ NL.

Fixpoint submit_files {S D} (files : list FileInfo) (schema_dict : S)
  (dialect : D) (tasks : list (res unit)) : M World (list (res unit)) :=
  match files with
  | [] => ret tasks
  | file_info :: rest =>
      task <- executor_submit (fi_filename file_info)
                (process_file file_info schema_dict dialect) ;;
      submit_files rest schema_dict dialect (tasks ++ [task])
  end.

Fixpoint submit_roots {S D} (roots : list str) (schema_dict : S)
  (dialect : D) (tasks : list (res unit)) : M World (list (res unit)) :=
  match roots with
  | [] => ret tasks
  | root_dir :: rest =>
      files <- list_files_recursive root_dir ;;
      tasks1 <- submit_files files schema_dict dialect tasks ;;
      submit_roots rest schema_dict dialect tasks1
  end.

Definition fetch_and_validate_sftp_files {S D} (schema_dict : S)
  (dialect : D) : M World unit :=
  log_write_new env HEADER ;;;
  sftp_connect env ;;;
  try_finally
    (tasks <- submit_roots ROOT_DIRECTORIES schema_dict dialect [] ;;
     for_each tasks future_result)
    sftp_close.

End Pipeline.

(** *** Summary *)

(** The lines a text file yields when iterated: a line ends at a line
    feed, a carriage return or the two in a row, each read as one line
    feed. *)
Fixpoint file_lines (content cur : str) : list str :=
  match content with
  | [] => match cur with [] => [] | _ :: _ => [cur] end
  | c :: rest =>
      if N.eqb c 10 then (cur ++ NL) :: file_lines rest []
      else if N.eqb c 13 then
        match rest with
        | c2 :: rest2 =>
            if N.eqb c2 10 then (cur ++ NL) :: file_lines rest2 []
            else (cur ++ NL) :: file_lines rest []
        | [] => [cur ++ NL]
        end
      else file_lines rest (cur ++ [c])
  end.

Record Counts := mkCounts {
  total_files : nat;
  valid_files : nat;
  invalid_files : nat
}.

(** The body of [for line in log]. *)
Definition count_line (c : Counts) (line : str) : Counts :=
  let total := total_files c + 1 in
  if contains "valid" line
  then mkCounts total (valid_files c + 1) (invalid_files c)
  else if contains "invalid" line
       then mkCounts total (valid_files c) (invalid_files c + 1)
       else mkCounts total (valid_files c) (invalid_files c).

Definition StopIteration : exn := mkExn "StopIteration" [] [] [].

(** The three counters at the end of [generate_summary_report]. *)
Definition summary_counts (content : str) : res Counts :=
  match file_lines content [] with
  | [] => Raise StopIteration
  | _header :: records => Ok (fold_left count_line records (mkCounts 0 0 0))
  end.

Definition summary_text (c : Counts) : str :=
  "Validation Summary:" +++ NL
    +++ "Total Files: " +++ str_of_nat (total_files c) +++ NL
    +++ "Valid Files: " +++ str_of_nat (valid_files c) +++ NL
    +++ "Invalid Files: " +++ str_of_nat (invalid_files c).

Definition generate_summary_report : M World str := fun w =>
  match summary_counts (log_file w) with
  | Raise e => (Raise e, w)
  | Ok c => (summary <- ret (summary_text c) ;;
             print summary ;;; ret summary) w
  end.

(** One pass: the run and then its summary, as [start_validation] and the
    command-line [main] chain them. *)
Definition run_once (env : Env) (roots : list str)
  (local_directory keyword file_extension : str) (recursion_limit : nat)
  : M World str :=
  fetch_and_validate_sftp_files env roots local_directory keyword
    file_extension recursion_limit tt tt ;;;
  generate_summary_report.

End Validator.

(* ------------------------------------------------------------------ *)
(** ** What the two fetch-and-delete scripts share *)
(* ------------------------------------------------------------------ *)

Definition FILE_EXTENSION : str := ".csv".
Definition BATCH_SIZE : nat := 50.

(** What [&] raises when its left side is [None]. *)
Definition mode_is_none : exn :=
  TypeError "unsupported operand type(s) for &: 'NoneType' and 'int'".

(** The test of both [list_csv_files]:
    [entry.filename.endswith(FILE_EXTENSION) and not (entry.st_mode & 0o40000)].
    [and] looks at its right side only when the left one holds, and [&]
    raises on [None]. *)
Definition is_csv_entry (entry : SFTPAttributes) : res bool :=
  if endswith (attr_filename entry) FILE_EXTENSION
  then match st_mode entry with
       | Some mode => Ok (negb (int_truthy (Z.land mode 16384)))
       | None => Raise mode_is_none
       end
  else Ok false.

(** The two halves of the test, for an entry that has a mode. *)
Definition ends_csv (entry : SFTPAttributes) : bool :=
  endswith (attr_filename entry) FILE_EXTENSION.

Definition not_directory (entry : SFTPAttributes) : bool :=
  match st_mode entry with
  | Some mode => negb (int_truthy (Z.land mode 16384))
  | None => false
  end.

(** The comprehension of both [list_csv_files]:
    [[entry.filename for entry in entries if is_csv_entry(entry)]]; the
    first test that raises ends it. *)
Fixpoint csv_names (entries : list SFTPAttributes) : res (list str) :=
  match entries with
  | [] => Ok []
  | entry :: rest =>
      match is_csv_entry entry with
      | Raise e => Raise e
      | Ok keep =>
          match csv_names rest with
          | Raise e => Raise e
          | Ok names =>
              Ok (if keep then attr_filename entry :: names else names)
          end
      end
  end.

(** [except AuthenticationException / except SSHException as e /
    except Exception as e] of both [main]s: the first clause whose class
    the exception is an instance of. *)
Definition main_error_message (e : exn) : str :=
  if isinstance e "AuthenticationException"
  then lit "Authentication failed. Please check your credentials."
  else if isinstance e "SSHException"
       then "SSH connection error: " +++ exn_str e
       else "Unexpected error: " +++ exn_str e.

(* ------------------------------------------------------------------ *)
(** ** fetch_and_delete_files_in_parallel.py *)
(* ------------------------------------------------------------------ *)

Module ParallelFetcher.

Definition MAX_WORKERS : nat := 10.

Section Script.
Variable env : Env.
Variable REMOTE_DIRECTORY : str.
Variable LOCAL_DIRECTORY : str.

Definition list_csv_files (directory : str) : M World (list str) :=
  try_except
    (entries <- sftp_listdir_attr env directory ;;
     of_res (csv_names entries))
    (fun e =>
       logging_error
         ("Error accessing directory " +++ directory +++ ": " +++ exn_str e) ;;;
       ret []).

Definition fetch_and_delete_file (remote_directory filename : str)
  : M World unit :=
  let remote_path := os_path_join remote_directory filename in
  let local_path := os_path_join LOCAL_DIRECTORY filename in
  try_except
    (sftp_get env remote_path local_path ;;;
     logging_info ("Fetched: " +++ filename) ;;;
     sftp_remove env remote_path ;;;
     logging_info ("Deleted: " +++ filename))
    (fun e =>
       logging_error
         ("Error processing file " +++ filename +++ ": " +++ exn_str e)).

Fixpoint submit_all (remote_directory : str) (files : list str)
  : M World (list (res unit)) :=
  match files with
  | [] => ret []
  | filename :: rest =>
      future <- executor_submit filename
                  (fetch_and_delete_file remote_directory filename) ;;
      futures <- submit_all remote_directory rest ;;
      ret (future :: futures)
  end.

Definition fetch_and_delete_files_in_parallel (remote_directory : str)
  (files : list str) : M World unit :=
  futures <- submit_all remote_directory files ;;
  for_each futures (fun future =>
    try_except
      (future_result future)
      (fun e =>
         logging_error ("Error in threaded operation: " +++ exn_str e))).

Definition main : M World unit :=
  try_finally
    (try_except
       (sftp_connect env ;;;
        files <- list_csv_files REMOTE_DIRECTORY ;;
        logging_info
          ("Found " +++ str_of_nat (List.length files) +++ " .csv files in "
             +++ REMOTE_DIRECTORY) ;;;
        for_each (batches_of BATCH_SIZE files) (fun ib =>
          logging_info
            ("Processing batch " +++ str_of_nat (fst ib / BATCH_SIZE + 1)
               +++ ": " +++ str_of_nat (List.length (snd ib)) +++ " files") ;;;
          fetch_and_delete_files_in_parallel REMOTE_DIRECTORY (snd ib)) ;;;
        sftp_close)
       (fun e => logging_error (main_error_message e)))
    sftp_close.

End Script.
End ParallelFetcher.

(* ------------------------------------------------------------------ *)
(** ** delete_csv_files_via_sftp.py *)
(* ------------------------------------------------------------------ *)

Module SequentialFetcher.

Section Script.
Variable env : Env.
Variable REMOTE_DIRECTORY : str.
Variable LOCAL_DIRECTORY : str.

Definition list_csv_files (directory : str) : M World (list str) :=
  try_except
    (entries <- sftp_listdir_attr env directory ;;
     of_res (csv_names entries))
    (fun e =>
       print
         ("Error accessing directory " +++ directory +++ ": " +++ exn_str e) ;;;
       ret []).

(** The body of [for filename in batch]. *)
Definition fetch_and_delete_one (remote_directory local_directory
  filename : str) : M World unit :=
  let remote_path := os_path_join remote_directory filename in
  let local_path := os_path_join local_directory filename in
  try_except
    (sftp_get env remote_path local_path ;;;
     print ("Fetched: " +++ filename +++ " -> " +++ local_path) ;;;
     sftp_remove env remote_path ;;;
     print ("Deleted: " +++ remote_path))
    (fun e =>
       print ("Error processing file " +++ filename +++ ": " +++ exn_str e)).

Definition fetch_and_delete_files (remote_directory local_directory : str)
  : M World unit :=
  try_except
    (files <- list_csv_files remote_directory ;;
     print
       ("Found " +++ str_of_nat (List.length files) +++ " .csv files in "
          +++ remote_directory) ;;;
     for_each (batches_of BATCH_SIZE files) (fun ib =>
       print
         ("Processing batch " +++ str_of_nat (fst ib / BATCH_SIZE + 1)
            +++ ": " +++ str_of_nat (List.length (snd ib)) +++ " files") ;;;
       for_each (snd ib)
         (fetch_and_delete_one remote_directory local_directory)))
    (fun e => print ("Error during batch processing: " +++ exn_str e)).

Definition main : M World unit :=
  try_finally
    (try_except
       (sftp_connect env ;;;
        fetch_and_delete_files REMOTE_DIRECTORY LOCAL_DIRECTORY ;;;
        sftp_close)
       (fun e => print (main_error_message e)))
    sftp_close.

End Script.
End SequentialFetcher.

(* ------------------------------------------------------------------ *)
(** ** Tasks on the threads of a pool

    With several workers the steps of the tasks interleave.  Here a task
    is written as the steps it takes, in the order of the source: a call
    that acts on the outside, the reading of a local file, the taking and
    the giving back of [log_lock].  The characters of a record reach the
    log file one by one, which is as fine as a buffered write can be cut.
    A schedule names the thread that moves next; a thread that waits for
    the lock, or has come to its end, stays where it is.  Every task is
    given a thread of its own: what ten workers can do is among the
    schedules. *)
(* ------------------------------------------------------------------ *)

Module Pool.

Inductive Action : Type :=
| AGet (remote_path local_path : str)
| ARemove (remote_path : str)
| APrint (line : str)
| ALogging (level msg : str)
| ALogOpen (text : str)
| ALogWrite (c : N)
| ADbInsert (filename state : str) (errors warnings info : list str).

Definition perform (env : Env) (a : Action) : M World unit :=
  match a with
  | AGet remote_path local_path => sftp_get env remote_path local_path
  | ARemove remote_path => sftp_remove env remote_path
  | APrint line => print line
  | ALogging level msg => logging_log level msg
  | ALogOpen text => log_open_append env text
  | ALogWrite c => log_put c
  | ADbInsert filename state errors warnings info =>
      Validator.save_to_database env filename state errors warnings info
  end.

Inductive Task (A : Type) : Type :=
| Done (r : res A)
| Call (a : Action) (k : res unit -> Task A)
| Read (local_path : str) (k : res str -> Task A)
| Acquire (k : Task A)
| Release (k : Task A).
Arguments Done {A} r.
Arguments Call {A} a k.
Arguments Read {A} local_path k.
Arguments Acquire {A} k.
Arguments Release {A} k.

Definition call (a : Action) : Task unit := Call a (fun r => Done r).

Definition read (local_path : str) : Task str :=
  Read local_path (fun r => Done r).

(** One statement after the other. *)
Fixpoint tbind {A B} (p : Task A) (k : A -> Task B) : Task B :=
  match p with
  | Done (Ok a) => k a
  | Done (Raise e) => Done (Raise e)
  | Call a f => Call a (fun r => tbind (f r) k)
  | Read local_path f => Read local_path (fun r => tbind (f r) k)
  | Acquire p' => Acquire (tbind p' k)
  | Release p' => Release (tbind p' k)
  end.

(** [try: p except Exception as e: handler e] *)
Fixpoint ttry {A} (p : Task A) (handler : exn -> Task A) : Task A :=
  match p with
  | Done (Ok a) => Done (Ok a)
  | Done (Raise e) => handler e
  | Call a f => Call a (fun r => ttry (f r) handler)
  | Read local_path f => Read local_path (fun r => ttry (f r) handler)
  | Acquire p' => Acquire (ttry p' handler)
  | Release p' => Release (ttry p' handler)
  end.

Fixpoint then_release {A} (p : Task A) : Task A :=
  match p with
  | Done r => Release (Done r)
  | Call a f => Call a (fun r => then_release (f r))
  | Read local_path f => Read local_path (fun r => then_release (f r))
  | Acquire p' => Acquire (then_release p')
  | Release p' => Release (then_release p')
  end.

(** [with log_lock: p]: the lock is given back however [p] ends. *)
Definition with_lock {A} (p : Task A) : Task A := Acquire (then_release p).

Fixpoint write_chars (text : str) : Task unit :=
  match text with
  | [] => Done (Ok tt)
  | c :: rest => tbind (call (ALogWrite c)) (fun _ => write_chars rest)
  end.

(** [with log_lock: with open(LOG_FILE, "a", ...) as log: log.write(text)] *)
Definition append_record (text : str) : Task unit :=
  with_lock (tbind (call (ALogOpen text)) (fun _ => write_chars text)).

(** [safe_sftp_operation], as [Validator.safe_sftp_attempts]. *)
Fixpoint safe_sftp_attempts {A} (func : Task A) (max_retries : Z)
  (attempts : list nat) : Task (option A) :=
  match attempts with
  | [] => Done (Ok None)
  | attempt :: rest =>
      ttry (tbind func (fun a => Done (Ok (Some a))))
        (fun e =>
           tbind (call (APrint (Validator.attempt_failed attempt e)))
             (fun _ =>
                if (Z.of_nat attempt =? max_retries - 1)%Z
                then Done (Raise e)
                else safe_sftp_attempts func max_retries rest))
  end.

Definition safe_sftp_operation {A} (func : Task A) (max_retries : Z)
  : Task (option A) :=
  safe_sftp_attempts func max_retries (seq 0 (Z.to_nat max_retries)).

(** [process_file] of sftp-csv-validator.py *)
Definition process_file {S D} (LOCAL_DIRECTORY : str) (file_info : FileInfo)
  (schema_dict : S) (dialect : D) : Task unit :=
  let filename := fi_filename file_info in
  let remote_path := fi_path file_info in
  let local_path := os_path_join LOCAL_DIRECTORY filename in
  ttry
    (tbind (safe_sftp_operation (call (AGet remote_path local_path)) 3)
       (fun _ =>
     tbind (read local_path) (fun csv_content =>
     match Validator.validate_csv csv_content schema_dict dialect with
     | (errors, warnings, info) =>
         let state := Validator.validation_state errors in
         let log_line :=
           Validator.log_line_of filename state errors warnings info in
         tbind (append_record log_line) (fun _ =>
         call (ADbInsert filename state errors warnings info))
     end)))
    (fun e =>
       let error_str := exn_str e in
       let log_line := Validator.error_line_of filename error_str in
       tbind (append_record log_line) (fun _ =>
       call (APrint ("Error processing file " +++ filename +++ ": "
                       +++ exn_traceback e)))).

(** [fetch_and_delete_file] of fetch_and_delete_files_in_parallel.py *)
Definition fetch_and_delete_file (LOCAL_DIRECTORY remote_directory
  filename : str) : Task unit :=
  let remote_path := os_path_join remote_directory filename in
  let local_path := os_path_join LOCAL_DIRECTORY filename in
  ttry
    (tbind (call (AGet remote_path local_path)) (fun _ =>
     tbind (call (ALogging "INFO" ("Fetched: " +++ filename))) (fun _ =>
     tbind (call (ARemove remote_path)) (fun _ =>
     call (ALogging "INFO" ("Deleted: " +++ filename))))))
    (fun e =>
       call (ALogging "ERROR"
               ("Error processing file " +++ filename +++ ": " +++ exn_str e))).

(** *** A task on its own *)

Fixpoint run_alone {A} (env : Env) (p : Task A) : M World A :=
  match p with
  | Done r => of_res r
  | Call a k => fun w =>
      match perform env a w with
      | (r, w1) => run_alone env (k r) w1
      end
  | Read local_path k => fun w =>
      match read_text env local_path w with
      | (r, w1) => run_alone env (k r) w1
      end
  | Acquire k => run_alone env k
  | Release k => run_alone env k
  end.

(** *** The threads and their lock *)

Record State (A : Type) := mkState {
  world : World;
  log_lock : option nat;           (* the thread that holds [log_lock] *)
  threads : list (Task A)
}.
Arguments mkState {A} world log_lock threads.
Arguments world {A} s.
Arguments log_lock {A} s.
Arguments threads {A} s.

(** [l] with [x] at place [t]. *)
Fixpoint set_nth {X} (t : nat) (x : X) (l : list X) : list X :=
  match l, t with
  | [], _ => []
  | _ :: l', O => x :: l'
  | x0 :: l', S t' => x0 :: set_nth t' x l'
  end.

(** Thread [t] takes its next step.  A lock that is held makes the
    thread that asks for it wait; giving the lock back frees it. *)
Definition step {A} (env : Env) (t : nat) (s : State A) : State A :=
  match nth_error (threads s) t with
  | None => s
  | Some (Done _) => s
  | Some (Call a k) =>
      match perform env a (world s) with
      | (r, w1) => mkState w1 (log_lock s) (set_nth t (k r) (threads s))
      end
  | Some (Read local_path k) =>
      match read_text env local_path (world s) with
      | (r, w1) => mkState w1 (log_lock s) (set_nth t (k r) (threads s))
      end
  | Some (Acquire k) =>
      match log_lock s with
      | None => mkState (world s) (Some t) (set_nth t k (threads s))
      | Some _ => s
      end
  | Some (Release k) =>
      mkState (world s) None (set_nth t k (threads s))
  end.

Definition run {A} (env : Env) (schedule : list nat) (s : State A)
  : State A :=
  fold_left (fun s t => step env t s) schedule s.

(** The tasks as submitted: none has moved, the lock is free. *)
Definition start {A} (w : World) (tasks : list (Task A)) : State A :=
  mkState w None tasks.

Definition is_done {A} (p : Task A) : bool :=
  match p with Done _ => true | _ => false end.

Definition all_done {A} (s : State A) : bool := forallb is_done (threads s).

(** Where a task stands with respect to the lock: outside, holding it
    with no record begun, or holding it with [rest] still to write of the
    record it has begun. *)
Inductive Mode : Type :=
| Out
| Locked
| Writing (rest : str).

(** From [m] on, the task holds the lock only to open the log file for
    a record, write that record character after character and give the
    lock back, which it does once the record is written (or the file did
    not open); it does all the rest outside, and ends outside. *)
Fixpoint disciplined {A} (m : Mode) (p : Task A) : Prop :=
  match p with
  | Done _ => m = Out
  | Acquire k => m = Out /\ disciplined Locked k
  | Release k => (m = Locked \/ m = Writing []) /\ disciplined Out k
  | Read _ k => m = Out /\ forall r, disciplined Out (k r)
  | Call (ALogOpen text) k =>
      m = Locked /\ disciplined (Writing text) (k (Ok tt)) /\
      forall e, disciplined Locked (k (Raise e))
  | Call (ALogWrite c) k =>
      exists rest, m = Writing (c :: rest) /\
                   disciplined (Writing rest) (k (Ok tt))
  | Call _ k => m = Out /\ forall r, disciplined Out (k r)
  end.

(** The next step of the task opens the log, writes to it or gives the
    lock back. *)
Definition in_critical_section {A} (p : Task A) : bool :=
  match p with
  | Call (ALogOpen _) _ => true
  | Call (ALogWrite _) _ => true
  | Release _ => true
  | _ => false
  end.

(** What the holder of the lock has still to write. *)
Definition rest_of (m : Mode) : str :=
  match m with Writing rest => rest | _ => [] end.

Definition holder_mode (lock : option nat) (modes : list Mode) : Mode :=
  match lock with
  | None => Out
  | Some t => nth t modes Out
  end.

(** The remote paths the task will still pass to [sftp.get], whatever
    the answers it gets. *)
Fixpoint fetches {A} (paths : list str) (p : Task A) : Prop :=
  match p with
  | Done _ => paths = []
  | Acquire k => fetches paths k
  | Release k => fetches paths k
  | Read _ k => forall r, fetches paths (k r)
  | Call (AGet remote_path _) k =>
      exists rest, paths = remote_path :: rest /\ forall r, fetches rest (k r)
  | Call _ k => forall r, fetches paths (k r)
  end.

(** The task removes only [allowed] paths and paths it has fetched
    before. *)
Fixpoint guarded {A} (allowed : list str) (p : Task A) : Prop :=
  match p with
  | Done _ => True
  | Acquire k => guarded allowed k
  | Release k => guarded allowed k
  | Read _ k => forall r, guarded allowed (k r)
  | Call (AGet remote_path _) k =>
      guarded (remote_path :: allowed) (k (Ok tt)) /\
      forall e, guarded allowed (k (Raise e))
  | Call (ARemove remote_path) k =>
      In remote_path allowed /\ forall r, guarded allowed (k r)
  | Call _ k => forall r, guarded allowed (k r)
  end.

End Pool.

(* ------------------------------------------------------------------ *)
(** ** sftp-csv-validator.py: the e-mail notification

    The state is the world and, beside it, the messages the SMTP server
    has accepted.  A message is kept by its parts; how the libraries and
    the server answer is a parameter. *)
(* ------------------------------------------------------------------ *)

Module Notification.

(** A value of the configuration, as far as the function looks at it. *)
Inductive Value : Type :=
| VNone
| VStr (s : str)
| VInt (z : Z)
| VOther (truth : bool).

Definition value_truthy (v : Value) : bool :=
  match v with
  | VNone => false
  | VStr s => truthy s
  | VInt z => int_truthy z
  | VOther truth => truth
  end.

(** The mapping under the key [email]: what [get] gives for each of the
    four keys ([None] for a key that is not there) and, for [smtp_port],
    whether the key is there. *)
Record EmailSettings := mkSettings {
  sender : Value;
  receiver : Value;
  password : Value;
  smtp_server : Value;
  smtp_port : option Value
}.

(** [EMAIL_SETTINGS = config.get("email", {})]: a mapping, or whatever
    else the file holds under the key, by the name of its type ([NoneType]
    for a key left empty, [str], [list], ...). *)
Inductive EmailConfig : Type :=
| Mapping (settings : EmailSettings)
| NotMapping (type_name : str).

(** [EMAIL_SETTINGS.get(key)] *)
Definition config_get {V} (config : EmailConfig) (field : EmailSettings -> V)
  : res V :=
  match config with
  | Mapping settings => Ok (field settings)
  | NotMapping type_name =>
      Raise (AttributeError
               ("'" +++ type_name +++ "' object has no attribute 'get'"))
  end.

Record Email := mkEmail {
  mail_server : Value;
  mail_port : Value;
  mail_login : Value;
  mail_password : Value;
  mail_from : Value;
  mail_to : Value;
  mail_subject : str;
  mail_body : str;
  attachment_name : str;
  attachment : str
}.

Section Send.
Variable EMAIL_SETTINGS : EmailConfig.
(** How [MIMEText(body, "plain")] answers (it encodes the body). *)
Variable mime_text_result : str -> res unit.
(** How the reading of the log file and the building of the attachment
    from its content answer. *)
Variable read_log_result : str -> res str.
(** How the SMTP session answers: connection, login and sendmail. *)
Variable smtp_result : Email -> res unit.

(** [with smtplib.SMTP_SSL(...) as server: login; sendmail] *)
Definition smtp_send (msg : Email) : M (list Email * World) unit :=
  fun s =>
    match smtp_result msg with
    | Ok _ => (Ok tt, (fst s ++ [msg], snd s))
    | Raise e => (Raise e, s)
    end.

(** [with open(log_file, "r", encoding="utf-8") as f: f.read()] *)
Definition read_log : M (list Email * World) str :=
  fun s => (read_log_result (log_file (snd s)), s).

Definition send_email_notification (subject body : str)
  : M (list Email * World) unit :=
  sender_email <- of_res (config_get EMAIL_SETTINGS sender) ;;
  receiver_email <- of_res (config_get EMAIL_SETTINGS receiver) ;;
  password <- of_res (config_get EMAIL_SETTINGS password) ;;
  smtp_server <- of_res (config_get EMAIL_SETTINGS smtp_server) ;;
  smtp_port <- of_res (config_get EMAIL_SETTINGS (fun settings =>
                 match smtp_port settings with
                 | Some port => port
                 | None => VInt 465
                 end)) ;;
  if negb (forallb value_truthy
             [sender_email; receiver_email; password; smtp_server])
  then lift_world
         (print "Email settings are incomplete. Skipping email notification.")
  else
    of_res (mime_text_result body) ;;;
    try_except
      (text <- read_log ;;
       smtp_send
         (mkEmail smtp_server smtp_port sender_email password sender_email
            receiver_email subject body "validation_results.log" text) ;;;
       lift_world (print "Email notification sent."))
      (fun e =>
         lift_world
           (print ("Failed to send email notification: " +++ exn_str e))).

End Send.

End Notification.

(* ------------------------------------------------------------------ *)
(** ** A small remote namespace, for examples *)
(* ------------------------------------------------------------------ *)

Definition os_error (msg : str) : exn := mkExn "OSError" [] msg [].

(** [/data] holds two regular files and two directories; [/data/locked]
    cannot be listed. *)
Definition example_listing (path : str) : res (list SFTPAttributes) :=
  if str_eqb path "/data"
  then Ok [mkAttr "target_report.csv" (Some 33188%Z);
           mkAttr "other_report.csv" (Some 33188%Z);
           mkAttr "locked" (Some 16877%Z); mkAttr "archive" (Some 16877%Z)]
  else if str_eqb path "/data/locked"
  then Raise (os_error "Permission denied")
  else if str_eqb path "/data/archive"
  then Ok [mkAttr "target_old.csv" (Some 33188%Z);
           mkAttr "notes.txt" (Some 33188%Z)]
  else Raise (os_error "No such file").

(** Every transfer succeeds, every local file reads as [content], the log
    opens, and the database answers [db_result]. *)
Definition example_env (content : str) (db_result : res unit) : Env :=
  mkEnv (Ok tt) example_listing (fun _ _ _ => Ok tt) (fun _ _ => Ok tt)
    (fun _ _ => Ok content) (fun _ => Ok tt) (fun _ => db_result)
    (fun _ => lit "2024-01-01 00:00:00").

Definition example_row : Row :=
  mkRow 7 "old.csv" "valid" "[]" "[]" "[]" "2023-12-31 00:00:00".

(** A world after an earlier run: a log with one record, a table with one
    row. *)
Definition example_world : World :=
  mkWorld 0 0 0 0 0 []
    ("File,Validation State,Errors,Warnings,Info" +++ NL
       +++ "old.csv,valid,[],[],[]" +++ NL)
    (Some [example_row]) [] [].

Definition database_locked : exn :=
  mkExn "OperationalError" [lit "DatabaseError"; lit "Error"]
    "database is locked" [].

Definition example_file : FileInfo :=
  mkFileInfo "/data/target_report.csv" "target_report.csv".

(** The record of a file found empty, and a log that holds the header and
    two such records. *)
Definition invalid_record (name : str) : str :=
  name +++ ",invalid,[" +++ DQUOTE +++ "CSV content is empty" +++ DQUOTE
    +++ "],[],[]" +++ NL.

Definition invalid_log : str :=
  "File,Validation State,Errors,Warnings,Info" +++ NL
    +++ invalid_record "target_report.csv"
    +++ invalid_record "target_old.csv".

Definition world_with_log (text : str) : World :=
  mkWorld 0 0 0 0 0 [] text (Some [example_row]) [] [].

(* ------------------------------------------------------------------ *)
(** ** Observations the statements use *)
(* ------------------------------------------------------------------ *)

(** The part of the world the result sink is made of. *)
Definition sink (w : World) : nat * nat * nat * str * option (list Row) :=
  (calls_read w, calls_log w, calls_db w, log_file w, db w).

(** The first step of [process_file]: the download, under retry. *)
Definition fetch_step (env : Env) (LOCAL_DIRECTORY : str)
  (file_info : FileInfo) : M World (option unit) :=
  Validator.safe_sftp_operation Validator.world_print
    (sftp_get env (fi_path file_info)
       (os_path_join LOCAL_DIRECTORY (fi_filename file_info))) 3.

(** *** What a listing leaves behind *)

(** The event of [sftp.listdir_attr(path)]. *)
Definition listing_event (env : Env) (path : str) : Event :=
  EvListdir path (is_ok (listdir_attr_result env path)).

(** What [_recurse] prints for [path]: the failure of the listing, or the
    failure of the lookup at the first entry of a listing that has one. *)
Definition listing_report (env : Env) (path : str) : list str :=
  match listdir_attr_result env path with
  | Raise e => ["Error listing " +++ path +++ ": " +++ exn_str e]
  | Ok [] => []
  | Ok (_ :: _) =>
      ["Error listing " +++ path +++ ": "
         +++ "type object 'SFTPAttributes' has no attribute 'S_ISDIR'"]
  end.

(** The world once [_recurse] has dealt with [path]. *)
Definition after_listing (env : Env) (path : str) (w : World) : World :=
  fold_left (fun w line => snd (print line w)) (listing_report env path)
    (emit (listing_event env path) w).

(** The world once each of [roots] was dealt with, in order. *)
Definition after_listings (env : Env) (roots : list str) (w : World) : World :=
  fold_left (fun w root => after_listing env root w) roots w.

(** [stat.S_ISDIR(mode)], what tells a directory from a file. *)
Definition stat_S_ISDIR (mode : Z) : bool :=
  (Z.land mode 61440 =? 16384)%Z.

(** The records the events say were written to the log. *)
Fixpoint appended_records (evs : list Event) : list str :=
  match evs with
  | [] => []
  | EvLogAppend line true :: rest => line :: appended_records rest
  | _ :: rest => appended_records rest
  end.

(** Every [sftp.remove] comes straight after a [sftp.get] of the same
    remote path that succeeded; [fetched] is that path when the event
    before was such a get. *)
Fixpoint deletes_follow_fetch (fetched : option str) (evs : list Event)
  : bool :=
  match evs with
  | [] => true
  | EvGet remote_path _ ok :: rest =>
      deletes_follow_fetch (if ok then Some remote_path else None) rest
  | EvRemove remote_path _ :: rest =>
      match fetched with
      | Some p => str_eqb p remote_path
      | None => false
      end && deletes_follow_fetch None rest
  | _ :: rest => deletes_follow_fetch None rest
  end.

(** The same, said of the positions of the trace. *)
Definition delete_after_fetch (evs : list Event) : Prop :=
  forall before remote_path ok after,
    evs = before ++ EvRemove remote_path ok :: after ->
    exists before' local_path,
      before = before' ++ [EvGet remote_path local_path true].

(** The run added events to the trace, and they keep every delete behind
    its fetch. *)
Definition fetch_ordered (w w' : World) : Prop :=
  exists evs,
    trace w' = trace w ++ evs /\ deletes_follow_fetch None evs = true.

Definition is_log_init (ev : Event) : bool :=
  match ev with EvLogInit _ => true | _ => false end.

Definition no_log_init (evs : list Event) : bool :=
  forallb (fun ev => negb (is_log_init ev)) evs.

(** The events a run added to the trace. *)
Definition new_events (w w' : World) : list Event :=
  skipn (List.length (trace w)) (trace w').

(** The sink only grows: the log file gains the records the new events
    name and nothing else, no event rewrites it, and the rows of the table
    stay, in order, before any new one. *)
Definition sink_grows (w w' : World) : Prop :=
  (exists evs,
     trace w' = trace w ++ evs /\ no_log_init evs = true /\
     log_file w' = log_file w ++ List.concat (appended_records evs)) /\
  (forall rows, db w = Some rows ->
                exists added, db w' = Some (rows ++ added)).

(** A computation whose every run relates the world before to the world
    after by [R]; [proj] finds the world in the state. *)
Definition stable {S A} (proj : S -> World) (R : World -> World -> Prop)
  (c : M S A) : Prop :=
  forall s, R (proj s) (proj (snd (c s))).

(** A server that refuses the connection with [e]. *)
Definition unreachable_env (e : exn) : Env :=
  mkEnv (Raise e) example_listing (fun _ _ _ => Ok tt) (fun _ _ => Ok tt)
    (fun _ _ => Ok []) (fun _ => Ok tt) (fun _ => Ok tt) (fun _ => []).

Definition bad_password : exn :=
  mkExn "AuthenticationException" [lit "SSHException"] "bad password" [].

(** A class that derives from [AuthenticationException]. *)
Definition bad_authentication_type : exn :=
  mkExn "BadAuthenticationType"
    [lit "AuthenticationException"; lit "SSHException"]
    "Bad authentication type" [].

(** A class that derives from [SSHException]. *)
Definition bad_host_key : exn :=
  mkExn "BadHostKeyException" [lit "SSHException"] "Host key mismatch" [].

Definition connection_reset : exn := os_error "Connection reset by peer".

(** A server whose listing of [/data] holds an entry without a mode. *)
Definition no_mode_env : Env :=
  mkEnv (Ok tt)
    (fun _ => Ok [mkAttr "a.csv" (Some 33188%Z); mkAttr "b.csv" None])
    (fun _ _ _ => Ok tt) (fun _ _ => Ok tt) (fun _ _ => Ok [])
    (fun _ => Ok tt) (fun _ => Ok tt) (fun _ => []).

(** A server on which every download fails. *)
Definition failing_get_env : Env :=
  mkEnv (Ok tt) example_listing (fun _ _ _ => Raise connection_reset)
    (fun _ _ => Ok tt) (fun _ _ => Ok []) (fun _ => Ok tt) (fun _ => Ok tt)
    (fun _ => []).

Definition not_utf8 : exn :=
  mkExn "UnicodeDecodeError" [lit "UnicodeError"; lit "ValueError"]
    "invalid start byte" [].

(** Downloads succeed and no local file can be decoded. *)
Definition unreadable_env : Env :=
  mkEnv (Ok tt) example_listing (fun _ _ _ => Ok tt) (fun _ _ => Ok tt)
    (fun _ _ => Raise not_utf8) (fun _ => Ok tt) (fun _ => Ok tt)
    (fun _ => []).

(* ------------------------------------------------------------------ *)
(** ** Further observations on traces *)
(* ------------------------------------------------------------------ *)

(** The run added events to the trace, and each of them satisfies [P]. *)
Definition trace_adds (P : Event -> bool) (w w' : World) : Prop :=
  exists evs, trace w' = trace w ++ evs /\ forallb P evs = true.

Definition not_remove (ev : Event) : bool :=
  match ev with EvRemove _ _ => false | _ => true end.

(** The remote paths of the [sftp.get] calls, in order. *)
Fixpoint gets_of (evs : list Event) : list str :=
  match evs with
  | [] => []
  | EvGet remote_path _ _ :: rest => remote_path :: gets_of rest
  | _ :: rest => gets_of rest
  end.

(** The computation returns, having added events to the trace whose gets
    are those of [paths]. *)
Definition returns_fetching (paths : list str) (c : M World unit) : Prop :=
  forall w,
    exists w' evs,
      c w = (Ok tt, w') /\ trace w' = trace w ++ evs /\ gets_of evs = paths.

(** Character [c] occurs nowhere in [s]. *)
Definition free_of (c : N) (s : str) : bool :=
  forallb (fun x => negb (N.eqb x c)) s.

(** The names of the files handed to the pool, in order. *)
Fixpoint submits_of (evs : list Event) : list str :=
  match evs with
  | [] => []
  | EvSubmit filename :: rest => filename :: submits_of rest
  | _ :: rest => submits_of rest
  end.

(** Printable ASCII. *)
Definition printable (c : N) : Prop := (32 <= c <= 126)%N.

(** Neither a line feed nor a carriage return. *)
Definition no_line_end (c : N) : bool :=
  negb (N.eqb c 10) && negb (N.eqb c 13).

(** The number of [records] that hold [sub]. *)
Definition count_containing (sub : str) (records : list str) : nat :=
  List.length (filter (contains sub) records).

(* ------------------------------------------------------------------ *)
(** ** What every schedule keeps *)
(* ------------------------------------------------------------------ *)

(** What every schedule keeps of the log, from a world [w0] on: each
    thread stands in a mode from which it is disciplined, the thread that
    holds the lock is the one that is not outside, and the file is what it
    was, then the records whose appending began, whole and in that order,
    short of what the holder has still to write of the last one. *)
Definition log_invariant {A} (w0 : World) (s : Pool.State A) : Prop :=
  exists modes evs,
    Forall2 Pool.disciplined modes (Pool.threads s) /\
    (forall t m, nth_error modes t = Some m -> m <> Pool.Out ->
                 Pool.log_lock s = Some t) /\
    (forall t, Pool.log_lock s = Some t ->
               exists m, nth_error modes t = Some m /\ m <> Pool.Out) /\
    trace (Pool.world s) = trace w0 ++ evs /\
    log_file (Pool.world s)
      ++ Pool.rest_of (Pool.holder_mode (Pool.log_lock s) modes)
    = log_file w0 ++ List.concat (appended_records evs) /\
    exists written,
      last (appended_records evs) []
      = written ++ Pool.rest_of (Pool.holder_mode (Pool.log_lock s) modes).

(** What every schedule keeps of the downloads: those made and those
    still to come are, together, the [wanted] ones, each once. *)
Definition gets_invariant {A} (w0 : World) (wanted : list str)
  (s : Pool.State A) : Prop :=
  exists remaining evs,
    Forall2 Pool.fetches remaining (Pool.threads s) /\
    trace (Pool.world s) = trace w0 ++ evs /\
    Permutation (gets_of evs ++ List.concat remaining) wanted.

(** The remote paths whose download has returned. *)
Fixpoint fetched_of (evs : list Event) : list str :=
  match evs with
  | [] => []
  | EvGet remote_path _ true :: rest => remote_path :: fetched_of rest
  | _ :: rest => fetched_of rest
  end.

(** Neither a download nor a removal. *)
Definition silent_event (ev : Event) : bool :=
  match ev with
  | EvGet _ _ _ => false
  | EvRemove _ _ => false
  | _ => true
  end.

(** Every [sftp.remove] in [evs] has before it a [sftp.get] of the same
    remote path that returned. *)
Definition removes_fetched (evs : list Event) : Prop :=
  forall before remote_path ok after,
    evs = before ++ EvRemove remote_path ok :: after ->
    In remote_path (fetched_of before).

Definition removes_invariant {A} (w0 : World) (s : Pool.State A) : Prop :=
  exists allowed evs,
    Forall2 Pool.guarded allowed (Pool.threads s) /\
    trace (Pool.world s) = trace w0 ++ evs /\
    (forall t paths p, nth_error allowed t = Some paths -> In p paths ->
                       In p (fetched_of evs)) /\
    removes_fetched evs.


(* ================================================================== *)
(** * Part II: lemmas and theorems *)
(* ================================================================== *)

(** ** Strings *)

Lemma startswith_iff (s prefix : str) :
  startswith s prefix = true <-> exists rest, s = prefix ++ rest.
Proof.
  revert s; induction prefix as [|p prefix IH]; intros s; simpl.
  - split; [intros _; now exists s | now destruct s].
  - destruct s as [|c s]; simpl.
    + split; [discriminate | intros [rest H]; discriminate].
    + rewrite andb_true_iff, N.eqb_eq, IH. split.
      * intros [-> [rest ->]]. now exists rest.
      * intros [rest H]. injection H as -> ->. split; [reflexivity | now exists rest].
Qed.

Lemma endswith_iff (s suffix : str) :
  endswith s suffix = true <-> exists before, s = before ++ suffix.
Proof.
  unfold endswith. rewrite startswith_iff. split.
  - intros [rest H]. exists (rev rest).
    rewrite <- (rev_involutive s), H, rev_app_distr, rev_involutive.
    reflexivity.
  - intros [before ->]. exists (rev before). apply rev_app_distr.
Qed.

Lemma contains_iff (sub s : str) :
  contains sub s = true <-> exists before after, s = before ++ sub ++ after.
Proof.
  induction s as [|c s IH].
  - change (contains sub []) with (startswith [] sub || false).
    rewrite orb_false_r, startswith_iff. split.
    + intros [rest H]. now exists [], rest.
    + intros [before [after H]]. destruct before as [|b before].
      * now exists after.
      * discriminate.
  - change (contains sub (c :: s))
      with (startswith (c :: s) sub || contains sub s).
    rewrite orb_true_iff, startswith_iff, IH. split.
    + intros [[rest H] | [before [after ->]]].
      * now exists [], rest.
      * now exists (c :: before), after.
    + intros [before [after H]]. destruct before as [|b before].
      * left. now exists after.
      * right. injection H as _ ->. now exists before, after.
Qed.

Lemma lstrip_nil_iff (s : str) :
  lstrip s = [] <-> Forall (fun c => isspace c = true) s.
Proof.
  induction s as [|c s IH]; simpl.
  - split; [constructor | reflexivity].
  - destruct (isspace c) eqn:E.
    + rewrite IH. split.
      * intros H. now constructor.
      * intros H. now inversion H.
    + split; [discriminate |].
      intros H. inversion H; congruence.
Qed.

Lemma lstrip_suffix (s : str) : exists skipped, s = skipped ++ lstrip s.
Proof.
  induction s as [|c s [skipped IH]]; simpl.
  - now exists [].
  - destruct (isspace c).
    + exists (c :: skipped). simpl. now f_equal.
    + now exists [].
Qed.

Lemma lstrip_all_space (s : str) :
  Forall (fun c => isspace c = true) s -> lstrip s = [].
Proof. apply lstrip_nil_iff. Qed.

(** [strip] leaves nothing exactly when every character is whitespace. *)
Lemma strip_nil_iff (s : str) :
  strip s = [] <-> Forall (fun c => isspace c = true) s.
Proof.
  unfold strip, rstrip. split.
  - intros H.
    assert (H1 : lstrip (rev (lstrip s)) = []).
    { rewrite <- (rev_involutive (lstrip (rev (lstrip s)))), H. reflexivity. }
    apply lstrip_nil_iff in H1. apply Forall_rev in H1.
    rewrite rev_involutive in H1.
    destruct (lstrip s) as [|c t] eqn:E.
    + now apply lstrip_nil_iff.
    + exfalso. clear H. revert E H1. clear.
      induction s as [|d s IH]; simpl; [discriminate |].
      destruct (isspace d) eqn:Ed; [exact IH |].
      intros E H1. injection E as <- <-. inversion H1; congruence.
  - intros H. rewrite (lstrip_all_space s H). reflexivity.
Qed.

Lemma not_all_space (s : str) :
  ~ Forall (fun c => isspace c = true) s <->
  exists c, In c s /\ isspace c = false.
Proof.
  split.
  - intros H. apply neg_Forall_Exists_neg in H.
    + apply Exists_exists in H. destruct H as [c [Hin Hc]].
      exists c. split; [exact Hin |]. now destruct (isspace c).
    + intros c. destruct (isspace c); [now left | now right].
  - intros [c [Hin Hc]] H. rewrite Forall_forall in H.
    specialize (H c Hin). congruence.
Qed.

(** ** Batches *)

Lemma range_step_length (stop step : nat) :
  List.length (range_step stop step) = (stop + step - 1) / step.
Proof. unfold range_step. now rewrite length_map, length_seq. Qed.


Lemma slice_length {A} (l : list A) (i size : nat) :
  List.length (slice l i (i + size)) = Nat.min size (List.length l - i).
Proof.
  unfold slice. rewrite length_firstn, length_skipn.
  replace (i + size - i) with size by lia. reflexivity.
Qed.

Lemma concat_slices_from {A} (size : nat) (l : list A) (k start : nat) :
  List.length l <= (start + k) * size ->
  List.concat (map (fun i => slice l i (i + size))
                 (map (fun j => j * size) (seq start k)))
  = skipn (start * size) l.
Proof.
  revert start. induction k as [|k IH]; intros start Hlen; simpl.
  - symmetry. apply skipn_all2. lia.
  - rewrite IH by lia. unfold slice.
    replace (start * size + size - start * size) with size by lia.
    rewrite <- (firstn_skipn size (skipn (start * size) l)) at 2.
    f_equal. rewrite skipn_skipn. f_equal. 
Qed.

Lemma batch_sizes_from {A} (size : nat) (l : list A) (k start : nat) :
  0 < size -> (start + k) = (List.length l + size - 1) / size ->
  map (fun i => List.length (slice l i (i + size)))
    (map (fun j => j * size) (seq start k))
  = map (fun j => if (j <? List.length l / size)%nat then size
                  else List.length l mod size) (seq start k).
Proof.
  intros Hsize. revert start. induction k as [|k IH]; intros start Hk; simpl.
  - reflexivity.
  - rewrite IH by lia. f_equal.
    rewrite slice_length.
    pose proof (Nat.div_mod_eq (List.length l) size) as Hdm.
    pose proof (Nat.mod_upper_bound (List.length l) size ltac:(lia)) as Hm.
    assert (Hs : start < (List.length l + size - 1) / size) by lia.
    assert (Hs2 : start * size < List.length l + size - 1 - (size - 1)).
    { pose proof (Nat.div_mod_eq (List.length l + size - 1) size) as Hdm2.
      pose proof (Nat.mod_upper_bound (List.length l + size - 1) size ltac:(lia)).
      nia. }
    destruct (start <? List.length l / size)%nat eqn:E.
    + apply Nat.ltb_lt in E.
      assert (S start * size <= List.length l / size * size)
        by (apply Nat.mul_le_mono_r; lia).
      rewrite Nat.min_l; [reflexivity | simpl in *; lia].
    + apply Nat.ltb_ge in E.
      assert (start = List.length l / size).
      { apply Nat.le_antisymm; [| exact E].
        apply Nat.lt_succ_r. apply (Nat.mul_lt_mono_pos_r size); [lia |].
        simpl; lia. }
      subst start. rewrite Nat.min_r; lia.
Qed.

(** C7: the loop [for i in range(0, len(files), BATCH_SIZE)] of both
    fetch-and-delete scripts cuts the list of [n] files into [ceil(n/50)]
    slices, taken in order; gluing the slices back gives the list, so every
    file is in exactly one batch; each slice has 50 files, but for a last
    one of [n mod 50] files when 50 does not divide [n]; 120 files give
    batches of 50, 50 and 20. *)
Theorem C7_batches_partition {A} (files : list A) :
  let n := List.length files in
  let batches := map snd (batches_of BATCH_SIZE files) in
  List.length batches = (n + 49) / 50 /\
  List.concat batches = files /\
  map (@List.length A) batches
  = map (fun k => if (k <? n / 50)%nat then 50 else n mod 50)
      (seq 0 (List.length batches)) /\
  map (@List.length nat) (map snd (batches_of BATCH_SIZE (seq 0 120)))
  = [50; 50; 20].
Proof.
  intros n batches.
  assert (Hb : batches = map (fun i => slice files i (i + 50))
                           (map (fun j => j * 50) (seq 0 ((n + 49) / 50)))).
  { unfold batches, batches_of, range_step, BATCH_SIZE. fold n.
    rewrite !map_map. replace (n + 50 - 1) with (n + 49) by lia. reflexivity. }
  assert (Hlen : List.length batches = (n + 49) / 50).
  { rewrite Hb, !length_map, length_seq. reflexivity. }
  split; [exact Hlen |]. split; [| split].
  - rewrite Hb. rewrite concat_slices_from.
    + reflexivity.
    + fold n. rewrite Nat.add_0_l. pose proof (Nat.div_mod_eq (n + 49) 50).
      pose proof (Nat.mod_upper_bound (n + 49) 50 ltac:(lia)). lia.
  - rewrite Hlen, Hb, map_map. unfold n.
    rewrite <- (batch_sizes_from 50 files ((List.length files + 49) / 50) 0).
    + rewrite map_map. reflexivity.
    + lia.
    + rewrite Nat.add_0_l. f_equal. lia.
  - vm_compute. reflexivity.
Qed.

(** ** Retry *)

Import Validator.

Section RetryFacts.
Context {W A : Type}.
Variable print_line : str -> W -> W.
Variable func : M W A.

Lemma recorded_run (w : W) (h : list (res A)) :
  recorded func (w, h)
  = (fst (func w), (snd (func w), h ++ [fst (func w)])).
Proof. unfold recorded. simpl. now destruct (func w). Qed.

Lemma safe_sftp_attempts_cons {V B} (pl : str -> V -> V) (f : M V B)
  (max_retries : Z) (attempt : nat) (rest : list nat) (v : V) :
  safe_sftp_attempts pl f max_retries (attempt :: rest) v
  = match f v with
    | (Ok a, v1) => (Ok (Some a), v1)
    | (Raise e, v1) =>
        if (Z.of_nat attempt =? max_retries - 1)%Z
        then (Raise e, pl (attempt_failed attempt e) v1)
        else safe_sftp_attempts pl f max_retries rest
               (pl (attempt_failed attempt e) v1)
    end.
Proof. reflexivity. Qed.

(** Recording the calls changes neither the result nor the state. *)
Lemma recorded_attempts_erase (max_retries : Z) (attempts : list nat)
  (w : W) (h : list (res A)) :
  let out := safe_sftp_attempts (print_beside print_line) (recorded func)
               max_retries attempts (w, h) in
  let plain := safe_sftp_attempts print_line func max_retries attempts w in
  fst out = fst plain /\ fst (snd out) = snd plain.
Proof.
  revert w h. induction attempts as [|attempt rest IH]; intros w h; simpl.
  - split; reflexivity.
  - rewrite recorded_run.
    destruct (func w) as [[a | e] w1]; simpl.
    + split; reflexivity.
    + destruct (Z.of_nat attempt =? max_retries - 1)%Z; simpl.
      * split; reflexivity.
      * apply IH.
Qed.

Lemma recorded_attempts_outcome (max_retries : Z) (k start : nat) (w : W)
  (h : list (res A)) :
  start + S k = Z.to_nat max_retries ->
  let out := safe_sftp_attempts (print_beside print_line) (recorded func)
               max_retries (seq start (S k)) (w, h) in
  exists errors,
    (exists a, snd (snd out) = h ++ map Raise errors ++ [Ok a] /\
               List.length errors <= k /\ fst out = Ok (Some a))
    \/
    (exists e, snd (snd out) = h ++ map Raise (errors ++ [e]) /\
               List.length errors = k /\ fst out = Raise e).
Proof.
  revert start w h. induction k as [|k IH]; intros start w h Hk.
  - change (seq start 1) with [start].
    rewrite safe_sftp_attempts_cons, recorded_run.
    destruct (func w) as [[a | e] w1]; cbn [fst snd].
    + exists []. left. exists a. simpl. repeat split; auto.
    + replace (Z.of_nat start =? max_retries - 1)%Z with true
        by (symmetry; apply Z.eqb_eq; lia).
      exists []. right. exists e. simpl. repeat split; auto.
  - change (seq start (S (S k))) with (start :: seq (S start) (S k)).
    rewrite safe_sftp_attempts_cons, recorded_run.
    destruct (func w) as [[a | e] w1]; cbn [fst snd].
    + exists []. left. exists a. simpl. repeat split; auto. lia.
    + replace (Z.of_nat start =? max_retries - 1)%Z with false
        by (symmetry; apply Z.eqb_neq; lia).
      specialize (IH (S start) (print_line (attempt_failed start e) w1)
                    (h ++ [Raise e]) ltac:(lia)).
      cbn zeta in IH.
      change (print_beside print_line (attempt_failed start e)
                (w1, h ++ [Raise e]))
        with (print_line (attempt_failed start e) w1, h ++ [Raise e]).
      destruct IH as [errors [[a [H1 [H2 H3]]] | [e' [H1 [H2 H3]]]]].
      * exists (e :: errors). left. exists a.
        rewrite H1, H3, <- app_assoc. simpl. repeat split; auto. lia.
      * exists (e :: errors). right. exists e'.
        rewrite H1, H3, <- app_assoc. simpl. repeat split; auto.
Qed.

(** C4: [safe_sftp_operation(func, max_retries)] calls [func] at most
    [max_retries] times.  When a call succeeds, the calls before it all
    failed, no call follows it, and its result is returned: success at
    attempt [i] costs exactly [i] calls.  When [max_retries] calls have
    failed, the error of the last one is raised and no further call is
    made.  (With no attempt to make, [max_retries <= 0], nothing is called
    and [None] is returned.)  Recording the calls changes nothing of the
    result. *)
Theorem C4_safe_sftp_operation_attempts (max_retries : Z) (w : W) :
  let out := safe_sftp_operation (print_beside print_line) (recorded func)
               max_retries (w, []) in
  let calls := snd (snd out) in
  (Z.of_nat (List.length calls) <= Z.max 0 max_retries)%Z /\
  fst out = fst (safe_sftp_operation print_line func max_retries w) /\
  ((exists errors a,
      calls = map Raise errors ++ [Ok a] /\ fst out = Ok (Some a))
   \/
   (exists errors e,
      calls = map Raise (errors ++ [e]) /\
      Z.of_nat (List.length calls) = max_retries /\ fst out = Raise e)
   \/
   ((max_retries <= 0)%Z /\ calls = [] /\ fst out = Ok None)).
Proof.
  intros out calls.
  assert (Herase : fst out
                   = fst (safe_sftp_operation print_line func max_retries w)).
  { apply (recorded_attempts_erase max_retries
             (seq 0 (Z.to_nat max_retries)) w []). }
  destruct (Z.to_nat max_retries) as [|k] eqn:Hn.
  - assert (Hout : out = (Ok None, (w, []))).
    { unfold out, safe_sftp_operation. rewrite Hn. reflexivity. }
    unfold calls. rewrite Hout. simpl. split; [lia |]. split.
    + rewrite <- Herase, Hout. reflexivity.
    + right. right. repeat split; auto. lia.
  - destruct (recorded_attempts_outcome max_retries k 0 w [] ltac:(lia))
      as [errors H].
    assert (Hout : out = safe_sftp_attempts (print_beside print_line)
                           (recorded func) max_retries (seq 0 (S k)) (w, [])).
    { unfold out, safe_sftp_operation. rewrite Hn. reflexivity. }
    cbv zeta in H. rewrite <- Hout in H. fold calls in H.
    simpl in H.
    destruct H as [[a [H1 [H2 H3]]] | [e [H1 [H2 H3]]]].
    + split; [| split; [exact Herase |]].
      * rewrite H1, length_app, length_map. simpl. lia.
      * left. now exists errors, a.
    + assert (Hlen : List.length calls = S k).
      { rewrite H1, length_map, length_app. simpl. lia. }
      split; [| split; [exact Herase |]].
      * rewrite Hlen. lia.
      * right. left. exists errors, e. repeat split; auto.
        rewrite Hlen. lia.
Qed.

End RetryFacts.
(** ** The default validator *)

Lemma validate_csv_cases {S D} (csv_content : str) (schema_dict : S)
  (dialect : D) :
  (Forall (fun c => isspace c = true) csv_content /\
   validate_csv csv_content schema_dict dialect
   = ([lit "CSV content is empty"], [], []))
  \/
  ((exists c, In c csv_content /\ isspace c = false) /\
   validate_csv csv_content schema_dict dialect
   = ([], [], [lit "CSV read successfully"])).
Proof.
  unfold validate_csv.
  destruct (strip csv_content) as [|c rest] eqn:E; simpl.
  - left. split; [now apply strip_nil_iff | reflexivity].
  - right. split; [| reflexivity].
    apply not_all_space. intros H. apply strip_nil_iff in H. congruence.
Qed.

(** ** What a task leaves untouched *)

Lemma fetch_keeps_sink (env : Env) (remote_path local_path : str)
  (max_retries : Z) (attempts : list nat) (w : World) :
  sink (snd (safe_sftp_attempts world_print
               (sftp_get env remote_path local_path) max_retries attempts w))
  = sink w.
Proof.
  revert w. induction attempts as [|attempt rest IH]; intros w.
  - reflexivity.
  - rewrite safe_sftp_attempts_cons. unfold sftp_get at 1.
    destruct (get_result env (calls_get w) remote_path local_path)
      as [[] | e]; simpl.
    + reflexivity.
    + destruct (Z.of_nat attempt =? max_retries - 1)%Z.
      * reflexivity.
      * rewrite IH. reflexivity.
Qed.

(** *** One step at a time *)

Lemma bind_run {W A B} (c : M W A) (k : A -> M W B) (w : W) :
  bind c k w
  = match c w with
    | (Ok a, w1) => k a w1
    | (Raise e, w1) => (Raise e, w1)
    end.
Proof. reflexivity. Qed.

Lemma try_except_run {W A} (body : M W A) (handler : exn -> M W A) (w : W) :
  try_except body handler w
  = match body w with
    | (Ok a, w1) => (Ok a, w1)
    | (Raise e, w1) => handler e w1
    end.
Proof. reflexivity. Qed.

Lemma read_text_run (env : Env) (local_path : str) (w : World) :
  exists w1,
    read_text env local_path w
    = (read_result env (calls_read w) local_path, w1) /\
    calls_log w1 = calls_log w /\ calls_db w1 = calls_db w /\
    log_file w1 = log_file w /\ db w1 = db w.
Proof. eexists. split; [reflexivity |]. repeat split. Qed.

Lemma log_append_run (env : Env) (text : str) (w : World) :
  exists w1,
    log_append env text w = (log_open_result env (calls_log w), w1) /\
    calls_log w1 = S (calls_log w) /\ calls_db w1 = calls_db w /\
    log_file w1
    = (if is_ok (log_open_result env (calls_log w))
       then log_file w +++ text else log_file w) /\
    db w1 = db w.
Proof. eexists. split; [reflexivity |]. repeat split. Qed.

Lemma print_run (line : str) (w : World) :
  exists w1,
    print line w = (Ok tt, w1) /\
    calls_log w1 = calls_log w /\ calls_db w1 = calls_db w /\
    log_file w1 = log_file w /\ db w1 = db w.
Proof. eexists. split; [reflexivity |]. repeat split. Qed.

Lemma save_to_database_run (env : Env) (filename state : str)
  (errors warnings info : list str) (w : World) :
  exists r w1,
    save_to_database env filename state errors warnings info w = (r, w1) /\
    calls_log w1 = calls_log w /\ log_file w1 = log_file w /\
    match db_insert_result env (calls_db w), db w with
    | Ok _, Some rows =>
        r = Ok tt /\
        db w1 = Some (rows ++
                      [mkRow (next_row_id rows) filename state
                         (json_dumps errors) (json_dumps warnings)
                         (json_dumps info)
                         (current_timestamp env (calls_db w))])
    | Ok _, None => r = Raise no_such_table /\ db w1 = db w
    | Raise e, _ => r = Raise e /\ db w1 = db w
    end.
Proof.
  unfold save_to_database.
  destruct (db_insert_result env (calls_db w)) as [[] | e];
    [destruct (db w) as [rows |] eqn:E |];
    do 2 eexists; (split; [reflexivity |]); cbn; rewrite ?E; auto.
Qed.

Section ProcessFile.
Context {S D : Type}.
Variable schema_dict : S.
Variable dialect : D.
Variable env : Env.
Variable LOCAL_DIRECTORY : str.
Variable file_info : FileInfo.

Let filename := fi_filename file_info.
Let remote_path := fi_path file_info.
Let local_path := os_path_join LOCAL_DIRECTORY filename.

Let fetch := fetch_step env LOCAL_DIRECTORY file_info.

Lemma fetch_sink (w : World) : sink (snd (fetch w)) = sink w.
Proof. apply fetch_keeps_sink. Qed.

Lemma process_file_fetched (w : World) (content : str) (rows : list Row) :
  is_ok (fst (fetch w)) = true ->
  read_result env (calls_read w) local_path = Ok content ->
  log_open_result env (calls_log w) = Ok tt ->
  let w' := snd (process_file env LOCAL_DIRECTORY file_info schema_dict dialect w) in
  let errors := fst (fst (validate_csv content schema_dict dialect)) in
  let warnings := snd (fst (validate_csv content schema_dict dialect)) in
  let info := snd (validate_csv content schema_dict dialect) in
  let state := validation_state errors in
  let line := log_line_of filename state errors warnings info in
  (exists rest, log_file w' = log_file w +++ line +++ rest) /\
  (db_insert_result env (calls_db w) = Ok tt -> db w = Some rows ->
   log_file w' = log_file w +++ line /\
   db w' = Some (rows ++
                 [mkRow (next_row_id rows) filename state (json_dumps errors)
                    (json_dumps warnings) (json_dumps info)
                    (current_timestamp env (calls_db w))])).
Proof.
  intros Hfetch Hread Hlog.
  pose proof (fetch_sink w) as Hsink.
  unfold process_file. fold filename remote_path local_path.
  rewrite try_except_run, bind_run.
  change (safe_sftp_operation world_print
            (sftp_get env remote_path local_path) 3 w) with (fetch w).
  destruct (fetch w) as [r1 w1]. simpl in Hfetch, Hsink.
  destruct r1 as [x | e]; [| discriminate].
  unfold sink in Hsink. injection Hsink as Hr Hl Hd Hf Hdb.
  rewrite bind_run.
  destruct (read_text_run env local_path w1)
    as [w2 [-> [Hl2 [Hd2 [Hf2 Hdb2]]]]].
  rewrite Hr, Hread.
  destruct (validate_csv content schema_dict dialect) as [[errors warnings] info].
  cbn [fst snd]. rewrite bind_run.
  destruct (log_append_run env
              (log_line_of filename (validation_state errors) errors
                 warnings info) w2) as [w3 [-> [Hl3 [Hd3 [Hf3 Hdb3]]]]].
  rewrite Hl2, Hl, Hlog in *. cbn [is_ok] in Hf3.
  destruct (save_to_database_run env filename (validation_state errors)
              errors warnings info w3)
    as [r4 [w4 [-> [Hl4 [Hf4 Hcase]]]]].
  rewrite Hd3, Hd2, Hd, Hdb3, Hdb2, Hdb in Hcase.
  assert (Hlog4 : log_file w4
                  = log_file w +++ log_line_of filename
                      (validation_state errors) errors warnings info)
    by congruence.
  assert (Hhandler : forall e,
    exists rest,
      log_file (snd ((log_append env (error_line_of filename (exn_str e)) ;;;
                      print ("Error processing file " +++ filename +++ ": "
                               +++ exn_traceback e)) w4))
      = log_file w +++ log_line_of filename (validation_state errors)
          errors warnings info +++ rest).
  { intros e. rewrite bind_run.
    destruct (log_append_run env (error_line_of filename (exn_str e)) w4)
      as [w5 [-> [_ [_ [Hf5 _]]]]].
    destruct (log_open_result env (calls_log w4)) as [[] | e5];
      cbn [is_ok] in Hf5.
    - destruct (print_run ("Error processing file " +++ filename +++ ": "
                             +++ exn_traceback e) w5)
        as [w6 [-> [_ [_ [Hf6 _]]]]].
      cbn [snd]. exists (error_line_of filename (exn_str e)).
      rewrite Hf6, Hf5, Hlog4. unfold str_cat. now rewrite <- app_assoc.
    - cbn [snd]. exists []. rewrite Hf5, Hlog4. unfold str_cat.
      now rewrite app_nil_r. }
  destruct (db_insert_result env (calls_db w)) as [[] | e] eqn:Hins.
  - destruct (db w) as [rows0 |] eqn:Hrows.
    + destruct Hcase as [-> Hdb4]. cbn [snd]. split.
      * exists []. rewrite Hlog4. unfold str_cat. now rewrite app_nil_r.
      * intros _ Heq. injection Heq as ->. split; assumption.
    + destruct Hcase as [-> Hdb4]. split.
      * apply Hhandler.
      * intros _ Heq. discriminate.
  - destruct Hcase as [-> Hdb4]. split.
    + apply Hhandler.
    + intros Heq. discriminate.
Qed.

End ProcessFile.

(** C9: [validate_csv] gives no warning, and either the content is all
    whitespace (or empty), the one error is "CSV content is empty" and
    there is no info, or the content has a character that is not
    whitespace, there is no error and the one info is
    "CSV read successfully".  So the state written for a file that was
    fetched and read is "valid" exactly when its content has a character
    that is not whitespace. *)
Theorem C9_default_validator_decides_state {S D : Type} (schema_dict : S)
  (dialect : D) (env : Env) (LOCAL_DIRECTORY : str) (file_info : FileInfo)
  (w : World) (csv_content : str) :
  let errors := fst (fst (validate_csv csv_content schema_dict dialect)) in
  let warnings := snd (fst (validate_csv csv_content schema_dict dialect)) in
  let info := snd (validate_csv csv_content schema_dict dialect) in
  let state := validation_state errors in
  warnings = [] /\
  ((Forall (fun c => isspace c = true) csv_content /\
    errors = [lit "CSV content is empty"] /\ info = [])
   \/
   ((exists c, In c csv_content /\ isspace c = false) /\
    errors = [] /\ info = [lit "CSV read successfully"])) /\
  (state = lit "valid" <->
   exists c, In c csv_content /\ isspace c = false) /\
  (is_ok (fst (fetch_step env LOCAL_DIRECTORY file_info w)) = true ->
   read_result env (calls_read w)
     (os_path_join LOCAL_DIRECTORY (fi_filename file_info)) = Ok csv_content ->
   log_open_result env (calls_log w) = Ok tt ->
   exists rest,
     log_file (snd (process_file env LOCAL_DIRECTORY file_info schema_dict
                      dialect w))
     = log_file w
         +++ log_line_of (fi_filename file_info) state errors warnings info
         +++ rest).
Proof.
  intros errors warnings info state.
  assert (Hcases := validate_csv_cases csv_content schema_dict dialect).
  assert (Hsplit : validate_csv csv_content schema_dict dialect
                   = (errors, warnings, info)).
  { unfold errors, warnings, info.
    now destruct (validate_csv csv_content schema_dict dialect) as [[? ?] ?]. }
  rewrite Hsplit in Hcases.
  split; [| split; [| split]].
  - destruct Hcases as [[_ H] | [_ H]]; congruence.
  - destruct Hcases as [[Hs H] | [Hs H]]; injection H as -> _ ->;
      [left | right]; auto.
  - unfold state.
    destruct Hcases as [[Hs H] | [Hs H]]; injection H as -> _ _.
    + split; [discriminate |]. intros Hex. apply not_all_space in Hex.
      contradiction.
    + split; [intros _; exact Hs | reflexivity].
  - intros Hfetch Hread Hlog.
    exact (proj1 (process_file_fetched schema_dict dialect env LOCAL_DIRECTORY
                    file_info w csv_content [] Hfetch Hread Hlog)).
Qed.

Lemma C9_default_validator_witness :
  exists rest,
    log_file (snd (process_file (example_env "a,b" (Ok tt)) "downloads"
                     example_file tt tt example_world))
    = log_file example_world
        +++ log_line_of "target_report.csv" "valid" [] []
              [lit "CSV read successfully"]
        +++ rest.
Proof.
  apply (C9_default_validator_decides_state tt tt (example_env "a,b" (Ok tt))
           "downloads" example_file example_world "a,b");
    reflexivity.
Defined.

(** ** Relating the world before and after a computation *)

Section Stable.
Context {S : Type}.
Variable proj : S -> World.
Variable R : World -> World -> Prop.
Hypothesis R_refl : forall w, R w w.
Hypothesis R_trans : forall a b c, R a b -> R b c -> R a c.

Lemma stable_ret {A} (a : A) : stable proj R (ret a).
Proof. intros s. apply R_refl. Qed.

Lemma stable_raise {A} (e : exn) : stable proj R (@raise S A e).
Proof. intros s. apply R_refl. Qed.

Lemma stable_bind {A B} (c : M S A) (k : A -> M S B) :
  stable proj R c -> (forall a, stable proj R (k a)) ->
  stable proj R (bind c k).
Proof.
  intros Hc Hk s. unfold bind. specialize (Hc s).
  destruct (c s) as [[a | e] s1]; simpl in *.
  - eapply R_trans; [exact Hc | apply Hk].
  - exact Hc.
Qed.

Lemma stable_try_except {A} (body : M S A) (handler : exn -> M S A) :
  stable proj R body -> (forall e, stable proj R (handler e)) ->
  stable proj R (try_except body handler).
Proof.
  intros Hb Hh s. unfold try_except. specialize (Hb s).
  destruct (body s) as [[a | e] s1]; simpl in *.
  - exact Hb.
  - eapply R_trans; [exact Hb | apply Hh].
Qed.

Lemma stable_try_finally {A} (body : M S A) (cleanup : M S unit) :
  stable proj R body -> stable proj R cleanup ->
  stable proj R (try_finally body cleanup).
Proof.
  intros Hb Hc s. unfold try_finally. specialize (Hb s).
  destruct (body s) as [r s1]. specialize (Hc s1).
  destruct (cleanup s1) as [[u | e] s2]; simpl in *;
    eapply R_trans; eassumption.
Qed.

Lemma stable_for_each {A} (xs : list A) (body : A -> M S unit) :
  (forall x, stable proj R (body x)) -> stable proj R (for_each xs body).
Proof.
  intros Hb. induction xs as [|x xs IH]; simpl.
  - apply stable_ret.
  - apply stable_bind; [apply Hb | intros _; exact IH].
Qed.

End Stable.

Section StableWorld.
Variable R : World -> World -> Prop.
Hypothesis R_refl : forall w, R w w.
Hypothesis R_trans : forall a b c, R a b -> R b c -> R a c.

Lemma stable_lift_world {S A} (c : M World A) :
  stable id R c -> stable (@snd S World) R (lift_world c).
Proof.
  intros Hc [s w]. unfold lift_world. simpl. specialize (Hc w).
  unfold id in Hc. now destruct (c w).
Qed.

Lemma stable_executor_submit {A} (name : str) (task : M World A) :
  (forall w, R w (emit (EvSubmit name) w)) -> stable id R task ->
  stable id R (executor_submit name task).
Proof.
  intros He Ht w. unfold executor_submit, id.
  specialize (Ht (emit (EvSubmit name) w)). unfold id in Ht.
  destruct (task (emit (EvSubmit name) w)) as [r w1]; simpl in *.
  eapply R_trans; [apply He | exact Ht].
Qed.

Lemma stable_future_result {A} (future : res A) :
  stable id R (future_result future).
Proof. intros w. apply R_refl. Qed.

End StableWorld.

(** ** Delete after fetch *)

Lemma str_eqb_eq (a b : str) : str_eqb a b = true <-> a = b.
Proof.
  revert b. induction a as [|x a IH]; intros [|y b]; simpl;
    try (split; [discriminate | discriminate]); try tauto.
  rewrite andb_true_iff, N.eqb_eq, IH. split.
  - intros [-> ->]. reflexivity.
  - intros H. injection H as -> ->. auto.
Qed.

Lemma str_eqb_refl (a : str) : str_eqb a a = true.
Proof. now apply str_eqb_eq. Qed.

Lemma deletes_follow_fetch_weaken (fetched : option str) (evs : list Event) :
  deletes_follow_fetch None evs = true ->
  deletes_follow_fetch fetched evs = true.
Proof. destruct evs as [|[] rest]; simpl; auto; discriminate. Qed.

Lemma deletes_follow_fetch_app (fetched : option str) (a b : list Event) :
  deletes_follow_fetch fetched a = true ->
  deletes_follow_fetch None b = true ->
  deletes_follow_fetch fetched (a ++ b) = true.
Proof.
  revert fetched. induction a as [|ev a IH]; intros fetched Ha Hb.
  - now apply deletes_follow_fetch_weaken.
  - destruct ev; simpl in *; auto.
    apply andb_true_iff in Ha. destruct Ha as [H1 H2].
    rewrite H1. simpl. auto.
Qed.

Lemma deletes_follow_fetch_sound (fetched : option str) (evs : list Event) :
  deletes_follow_fetch fetched evs = true ->
  forall before remote_path ok after,
    evs = before ++ EvRemove remote_path ok :: after ->
    (before = [] /\ fetched = Some remote_path) \/
    exists before' local_path,
      before = before' ++ [EvGet remote_path local_path true].
Proof.
  revert fetched. induction evs as [|ev evs IH]; intros fetched H before rp ok after E.
  - destruct before; discriminate.
  - destruct before as [|b before].
    + left. split; [reflexivity |]. simpl in E. injection E as -> ->.
      simpl in H. destruct fetched as [p |]; [| discriminate].
      apply andb_true_iff in H. destruct H as [H _].
      apply str_eqb_eq in H. now subst.
    + right. simpl in E. injection E as -> E.
      assert (Hrest : exists f, deletes_follow_fetch f evs = true /\
                (f = None \/ exists lp p o, b = EvGet p lp o /\
                   f = (if o then Some p else None))).
      { destruct b; simpl in H;
          try (exists None; split; [exact H | now left]).
        - eexists. split; [exact H |]. right. now do 3 eexists.
        - apply andb_true_iff in H. exists None. split; [apply H | now left]. }
      destruct Hrest as [f [Hf Hb]].
      destruct (IH f Hf before rp ok after E) as [[-> Hsome] | [before' [lp ->]]].
      * destruct Hb as [-> | [lp [p [o [-> Hfo]]]]]; [discriminate |].
        destruct o; [| congruence]. rewrite Hfo in Hsome.
        injection Hsome as ->. now exists [], lp.
      * now exists (b :: before'), lp.
Qed.

Lemma deletes_follow_fetch_spec (evs : list Event) :
  deletes_follow_fetch None evs = true -> delete_after_fetch evs.
Proof.
  intros H before rp ok after E.
  destruct (deletes_follow_fetch_sound None evs H before rp ok after E)
    as [[_ Hn] | Hex]; [discriminate | exact Hex].
Qed.

Lemma fetch_ordered_refl (w : World) : fetch_ordered w w.
Proof. exists []. split; [now rewrite app_nil_r | reflexivity]. Qed.

Lemma fetch_ordered_trans (a b c : World) :
  fetch_ordered a b -> fetch_ordered b c -> fetch_ordered a c.
Proof.
  intros [e1 [H1 P1]] [e2 [H2 P2]]. exists (e1 ++ e2). split.
  - now rewrite H2, H1, app_assoc.
  - now apply deletes_follow_fetch_app.
Qed.

Lemma fetch_ordered_emit (ev : Event) (w : World) :
  deletes_follow_fetch None [ev] = true -> fetch_ordered w (emit ev w).
Proof. intros H. now exists [ev]. Qed.

Section FetchDelete.
Variable env : Env.
Variable REMOTE_DIRECTORY : str.
Variable LOCAL_DIRECTORY : str.

Lemma sftp_get_run (remote_path local_path : str) (w : World) :
  exists w1,
    sftp_get env remote_path local_path w
    = (get_result env (calls_get w) remote_path local_path, w1) /\
    trace w1
    = trace w ++ [EvGet remote_path local_path
                    (is_ok (get_result env (calls_get w) remote_path
                              local_path))] /\
    calls_remove w1 = calls_remove w.
Proof. eexists. split; [reflexivity |]. split; reflexivity. Qed.

Lemma sftp_remove_run (remote_path : str) (w : World) :
  exists w1,
    sftp_remove env remote_path w
    = (remove_result env (calls_remove w) remote_path, w1) /\
    trace w1
    = trace w ++ [EvRemove remote_path
                    (is_ok (remove_result env (calls_remove w) remote_path))].
Proof. eexists. split; reflexivity. Qed.

Lemma logging_run (level msg : str) (w : World) :
  exists w1,
    logging_log level msg w = (Ok tt, w1) /\
    trace w1 = trace w /\ calls_remove w1 = calls_remove w.
Proof. eexists. split; [reflexivity |]. split; reflexivity. Qed.

Lemma print_trace_run (line : str) (w : World) :
  exists w1,
    print line w = (Ok tt, w1) /\
    trace w1 = trace w /\ calls_remove w1 = calls_remove w.
Proof. eexists. split; [reflexivity |]. split; reflexivity. Qed.

(** A fetch-and-delete task, given how its steps report. *)
Lemma task_trace (remote_path local_path : str)
  (fetched deleted failed : str -> M World unit) (w : World) :
  (forall m w0, exists w1, fetched m w0 = (Ok tt, w1) /\
     trace w1 = trace w0 /\ calls_remove w1 = calls_remove w0) ->
  (forall m w0, exists w1, deleted m w0 = (Ok tt, w1) /\
     trace w1 = trace w0 /\ calls_remove w1 = calls_remove w0) ->
  (forall m w0, exists w1, failed m w0 = (Ok tt, w1) /\
     trace w1 = trace w0 /\ calls_remove w1 = calls_remove w0) ->
  forall m1 m2 m3,
  let w' := snd (try_except
                   (sftp_get env remote_path local_path ;;;
                    fetched m1 ;;;
                    sftp_remove env remote_path ;;;
                    deleted m2)
                   (fun e => failed (m3 e)) w) in
  match get_result env (calls_get w) remote_path local_path with
  | Raise _ => trace w' = trace w ++ [EvGet remote_path local_path false]
  | Ok _ =>
      exists ok,
        trace w' = trace w ++ [EvGet remote_path local_path true;
                               EvRemove remote_path ok]
  end.
Proof.
  intros Hfetched Hdeleted Hfailed m1 m2 m3 w'. unfold w'.
  rewrite try_except_run, bind_run.
  destruct (sftp_get_run remote_path local_path w) as [w1 [-> [Ht1 Hc1]]].
  destruct (get_result env (calls_get w) remote_path local_path)
    as [[] | e]; cbn [is_ok] in Ht1.
  - rewrite bind_run.
    destruct (Hfetched m1 w1) as [w2 [-> [Ht2 Hc2]]].
    rewrite bind_run.
    destruct (sftp_remove_run remote_path w2) as [w3 [-> Ht3]].
    exists (is_ok (remove_result env (calls_remove w2) remote_path)).
    destruct (remove_result env (calls_remove w2) remote_path) as [[] | e].
    + destruct (Hdeleted m2 w3) as [w4 [-> [Ht4 _]]]. cbn [snd].
      rewrite Ht4, Ht3, Ht2, Ht1, <- app_assoc. reflexivity.
    + destruct (Hfailed (m3 e) w3) as [w4 [-> [Ht4 _]]]. cbn [snd].
      rewrite Ht4, Ht3, Ht2, Ht1, <- app_assoc. reflexivity.
  - destruct (Hfailed (m3 e) w1) as [w2 [-> [Ht2 _]]]. cbn [snd].
    rewrite Ht2, Ht1. reflexivity.
Qed.

Lemma parallel_task_trace (remote_directory filename : str) (w : World) :
  let w' := snd (ParallelFetcher.fetch_and_delete_file env LOCAL_DIRECTORY
                   remote_directory filename w) in
  let remote_path := os_path_join remote_directory filename in
  let local_path := os_path_join LOCAL_DIRECTORY filename in
  match get_result env (calls_get w) remote_path local_path with
  | Raise _ => trace w' = trace w ++ [EvGet remote_path local_path false]
  | Ok _ =>
      exists ok,
        trace w' = trace w ++ [EvGet remote_path local_path true;
                               EvRemove remote_path ok]
  end.
Proof.
  unfold ParallelFetcher.fetch_and_delete_file.
  apply (task_trace _ _ logging_info logging_info logging_error);
    intros m w0; apply logging_run.
Qed.

Lemma sequential_task_trace (remote_directory local_directory filename : str)
  (w : World) :
  let w' := snd (SequentialFetcher.fetch_and_delete_one env remote_directory
                   local_directory filename w) in
  let remote_path := os_path_join remote_directory filename in
  let local_path := os_path_join local_directory filename in
  match get_result env (calls_get w) remote_path local_path with
  | Raise _ => trace w' = trace w ++ [EvGet remote_path local_path false]
  | Ok _ =>
      exists ok,
        trace w' = trace w ++ [EvGet remote_path local_path true;
                               EvRemove remote_path ok]
  end.
Proof.
  unfold SequentialFetcher.fetch_and_delete_one.
  apply (task_trace _ _ print print print);
    intros m w0; apply print_trace_run.
Qed.

Lemma parallel_task_ordered (remote_directory filename : str) :
  stable id fetch_ordered
    (ParallelFetcher.fetch_and_delete_file env LOCAL_DIRECTORY
       remote_directory filename).
Proof.
  intros w. unfold id.
  pose proof (parallel_task_trace remote_directory filename w) as H.
  cbv zeta in H.
  destruct (get_result env (calls_get w) _ _) as [[] | e].
  - destruct H as [ok H]. eexists. split; [exact H |].
    simpl. now rewrite str_eqb_refl.
  - eexists. split; [exact H | reflexivity].
Qed.

Lemma sequential_task_ordered (remote_directory local_directory
  filename : str) :
  stable id fetch_ordered
    (SequentialFetcher.fetch_and_delete_one env remote_directory
       local_directory filename).
Proof.
  intros w. unfold id.
  pose proof (sequential_task_trace remote_directory local_directory
                filename w) as H.
  cbv zeta in H.
  destruct (get_result env (calls_get w) _ _) as [[] | e].
  - destruct H as [ok H]. eexists. split; [exact H |].
    simpl. now rewrite str_eqb_refl.
  - eexists. split; [exact H | reflexivity].
Qed.

Lemma print_ordered (line : str) : stable id fetch_ordered (print line).
Proof.
  intros w. exists []. split; [simpl; now rewrite app_nil_r | reflexivity].
Qed.

Lemma logging_ordered (level msg : str) :
  stable id fetch_ordered (logging_log level msg).
Proof.
  intros w. exists []. split; [simpl; now rewrite app_nil_r | reflexivity].
Qed.

Lemma connect_ordered : stable id fetch_ordered (sftp_connect env).
Proof. intros w. now apply fetch_ordered_emit. Qed.

Lemma close_ordered : stable id fetch_ordered sftp_close.
Proof. intros w. now apply fetch_ordered_emit. Qed.

Lemma listdir_ordered (path : str) :
  stable id fetch_ordered (sftp_listdir_attr env path).
Proof. intros w. now apply fetch_ordered_emit. Qed.

Ltac ordered_step :=
  first
    [ apply parallel_task_ordered | apply sequential_task_ordered
    | apply (stable_bind id fetch_ordered fetch_ordered_trans); [| intros ?]
    | apply (stable_try_except id fetch_ordered fetch_ordered_trans);
      [| intros ?]
    | apply (stable_try_finally id fetch_ordered fetch_ordered_trans)
    | apply (stable_for_each id fetch_ordered fetch_ordered_refl
               fetch_ordered_trans); intros ?
    | apply (stable_ret id fetch_ordered fetch_ordered_refl)
    | apply (stable_future_result fetch_ordered fetch_ordered_refl)
    | apply print_ordered | apply logging_ordered | apply connect_ordered
    | apply close_ordered | apply listdir_ordered ].

Lemma parallel_list_ordered (directory : str) :
  stable id fetch_ordered (ParallelFetcher.list_csv_files env directory).
Proof. unfold ParallelFetcher.list_csv_files. repeat ordered_step. Qed.

Lemma sequential_list_ordered (directory : str) :
  stable id fetch_ordered (SequentialFetcher.list_csv_files env directory).
Proof. unfold SequentialFetcher.list_csv_files. repeat ordered_step. Qed.

Lemma submit_all_ordered (remote_directory : str) (files : list str) :
  stable id fetch_ordered
    (ParallelFetcher.submit_all env LOCAL_DIRECTORY remote_directory files).
Proof.
  induction files as [|filename rest IH]; simpl.
  - repeat ordered_step.
  - ordered_step.
    + apply (stable_executor_submit fetch_ordered fetch_ordered_trans).
      * intros w. now apply fetch_ordered_emit.
      * apply parallel_task_ordered.
    + ordered_step; [exact IH | repeat ordered_step].
Qed.

Lemma parallel_main_ordered :
  stable id fetch_ordered
    (ParallelFetcher.main env REMOTE_DIRECTORY LOCAL_DIRECTORY).
Proof.
  unfold ParallelFetcher.main,
    ParallelFetcher.fetch_and_delete_files_in_parallel.
  repeat (first [apply parallel_list_ordered | apply submit_all_ordered
                | ordered_step]).
Qed.

Lemma sequential_main_ordered :
  stable id fetch_ordered
    (SequentialFetcher.main env REMOTE_DIRECTORY LOCAL_DIRECTORY).
Proof.
  unfold SequentialFetcher.main, SequentialFetcher.fetch_and_delete_files.
  repeat (first [apply sequential_list_ordered | ordered_step]).
Qed.

End FetchDelete.


(** ** The summary *)

Lemma invalid_line_has_valid (line : str) :
  contains "invalid" line = true -> contains "valid" line = true.
Proof.
  rewrite !contains_iff. intros [before [after ->]].
  exists (before ++ lit "in"), after. rewrite <- app_assoc. reflexivity.
Qed.

(** The branch that counts invalid files is never taken. *)
Lemma count_line_invalid (c : Counts) (line : str) :
  invalid_files (count_line c line) = invalid_files c.
Proof.
  unfold count_line. destruct (contains "valid" line) eqn:Hv; [reflexivity |].
  destruct (contains "invalid" line) eqn:Hi; [| reflexivity].
  apply invalid_line_has_valid in Hi. congruence.
Qed.

Lemma summary_never_counts_invalid (content : str) (c : Counts) :
  summary_counts content = Ok c -> invalid_files c = 0.
Proof.
  unfold summary_counts. destruct (file_lines content []) as [|header records];
    [discriminate |].
  intros H. injection H as <-.
  assert (G : forall c0, invalid_files (fold_left count_line records c0)
                         = invalid_files c0).
  { induction records as [|line records IH]; intros c0; simpl.
    - reflexivity.
    - now rewrite IH, count_line_invalid. }
  now rewrite G.
Qed.

(** C1: [generate_summary_report] on a log that holds the header and the
    records of two files with state "invalid" reports two files, both of
    them valid and none invalid.  The records are those [process_file]
    writes for a file whose content is empty. *)
Theorem C1_invalid_records_counted_valid :
  let w := world_with_log invalid_log in
  fst (generate_summary_report w)
  = Ok ("Validation Summary:" +++ NL +++ "Total Files: 2" +++ NL
          +++ "Valid Files: 2" +++ NL +++ "Invalid Files: 0") /\
  summary_counts invalid_log = Ok (mkCounts 2 2 0) /\
  log_file (snd (process_file (example_env [] (Ok tt)) "downloads"
                   example_file tt tt (world_with_log HEADER)))
  = HEADER +++ invalid_record "target_report.csv".
Proof. vm_compute. repeat split; reflexivity. Qed.

(** C2: one file, fetched, read and validated without trouble, whose row
    the database refuses.  The log receives two records for the file:
    the valid one, written before the insertion, and an error one,
    written by the handler. *)
Theorem C2_database_failure_two_records :
  let w' := snd (process_file (example_env "a,b" (Raise database_locked))
                   "downloads" example_file tt tt example_world) in
  appended_records (trace w')
  = [log_line_of "target_report.csv" "valid" [] []
       [lit "CSV read successfully"];
     error_line_of "target_report.csv" "database is locked"] /\
  log_file w'
  = log_file example_world
      +++ log_line_of "target_report.csv" "valid" [] []
            [lit "CSV read successfully"]
      +++ error_line_of "target_report.csv" "database is locked".
Proof. vm_compute. split; reflexivity. Qed.

(** ** Discovery *)

(** Whatever the server lists, [_recurse] looks at no entry beyond the
    first: it lists [path], and the listing or the lookup of [S_ISDIR]
    fails, or there is no entry. *)
Lemma recurse_run (env : Env) (KEYWORD FILE_EXTENSION : str) (depth : nat)
  (path : str) (file_list : list FileInfo) (w : World) :
  _recurse env KEYWORD FILE_EXTENSION depth path (file_list, w)
  = (Ok tt, (file_list, after_listing env path w)).
Proof.
  unfold after_listing, listing_report, listing_event.
  destruct depth as [|depth];
    cbn [_recurse]; rewrite try_except_run, bind_run;
    unfold lift_world, sftp_listdir_attr; cbn [fst snd];
    (destruct (listdir_attr_result env path) as [[|entry entries] | e];
     reflexivity).
Qed.

Lemma list_files_recursive_run (env : Env) (KEYWORD FILE_EXTENSION : str)
  (recursion_limit : nat) (remote_dir : str) (w : World) :
  list_files_recursive env KEYWORD FILE_EXTENSION recursion_limit remote_dir w
  = (Ok [], after_listing env remote_dir w).
Proof. unfold list_files_recursive. now rewrite recurse_run. Qed.

(** A relation that holds across the listing and across a [print] holds
    across what [_recurse] does. *)
Lemma after_listing_related (R : World -> World -> Prop)
  (R_trans : forall a b c, R a b -> R b c -> R a c) (env : Env) (path : str)
  (w : World) :
  R w (emit (listing_event env path) w) ->
  (forall line w', R w' (snd (print line w'))) ->
  R w (after_listing env path w).
Proof.
  intros Hl Hp. unfold after_listing.
  destruct (listing_report env path) as [|line [|line2 rest]] eqn:E.
  - exact Hl.
  - cbn [fold_left]. eapply R_trans; [exact Hl | apply Hp].
  - unfold listing_report in E.
    destruct (listdir_attr_result env path) as [[|? ?] | ?]; discriminate.
Qed.

(** ** The sink only grows *)

Lemma appended_records_app (a b : list Event) :
  appended_records (a ++ b) = appended_records a ++ appended_records b.
Proof.
  induction a as [|ev a IH]; simpl; [reflexivity |].
  destruct ev; try exact IH. destruct ok; [| exact IH].
  simpl. now f_equal.
Qed.

Lemma sink_grows_refl (w : World) : sink_grows w w.
Proof.
  split.
  - exists []. simpl. now rewrite !app_nil_r.
  - intros rows H. exists []. now rewrite app_nil_r.
Qed.

Lemma sink_grows_trans (a b c : World) :
  sink_grows a b -> sink_grows b c -> sink_grows a c.
Proof.
  intros [[e1 [T1 [N1 L1]]] D1] [[e2 [T2 [N2 L2]]] D2]. split.
  - exists (e1 ++ e2). split; [| split].
    + now rewrite T2, T1, app_assoc.
    + unfold no_log_init in *. rewrite forallb_app. now rewrite N1, N2.
    + rewrite L2, L1, appended_records_app, concat_app, app_assoc.
      reflexivity.
  - intros rows H. destruct (D1 rows H) as [x Hx].
    destruct (D2 _ Hx) as [y Hy]. exists (x ++ y). now rewrite app_assoc.
Qed.

(** A step that adds one event, and to the log what the event says. *)
Lemma sink_grows_step (w w' : World) (ev : Event) :
  trace w' = trace w ++ [ev] -> is_log_init ev = false ->
  log_file w' = log_file w ++ List.concat (appended_records [ev]) ->
  (forall rows, db w = Some rows ->
                exists added, db w' = Some (rows ++ added)) ->
  sink_grows w w'.
Proof.
  intros T N L Hdb. split; [| exact Hdb].
  exists [ev]. split; [exact T | split; [| exact L]].
  unfold no_log_init. simpl. now rewrite N.
Qed.

(** A step that leaves trace, log and table as they are. *)
Lemma sink_grows_silent (w w' : World) :
  trace w' = trace w -> log_file w' = log_file w -> db w' = db w ->
  sink_grows w w'.
Proof.
  intros T L Hdb. split.
  - exists []. simpl. now rewrite !app_nil_r.
  - intros rows H. exists []. rewrite app_nil_r. congruence.
Qed.

Lemma same_db_grows (w w' : World) :
  db w' = db w ->
  forall rows, db w = Some rows -> exists added, db w' = Some (rows ++ added).
Proof. intros E rows H. exists []. rewrite app_nil_r. congruence. Qed.

Section SinkGrows.
Variable env : Env.

Lemma print_grows (line : str) : stable id sink_grows (print line).
Proof. intros w. now apply sink_grows_silent. Qed.

Lemma connect_grows : stable id sink_grows (sftp_connect env).
Proof.
  intros w. eapply sink_grows_step; try reflexivity.
  - simpl. now rewrite app_nil_r.
  - now apply same_db_grows.
Qed.

Lemma close_grows : stable id sink_grows sftp_close.
Proof.
  intros w. eapply sink_grows_step; try reflexivity.
  - simpl. now rewrite app_nil_r.
  - now apply same_db_grows.
Qed.

Lemma listdir_grows (path : str) :
  stable id sink_grows (sftp_listdir_attr env path).
Proof.
  intros w. eapply sink_grows_step; try reflexivity.
  - simpl. now rewrite app_nil_r.
  - now apply same_db_grows.
Qed.

Lemma get_grows (remote_path local_path : str) :
  stable id sink_grows (sftp_get env remote_path local_path).
Proof.
  intros w. eapply sink_grows_step; try reflexivity.
  - simpl. now rewrite app_nil_r.
  - now apply same_db_grows.
Qed.

Lemma read_grows (local_path : str) :
  stable id sink_grows (read_text env local_path).
Proof.
  intros w. eapply sink_grows_step; try reflexivity.
  - simpl. now rewrite app_nil_r.
  - now apply same_db_grows.
Qed.

Lemma log_append_grows (text : str) :
  stable id sink_grows (log_append env text).
Proof.
  intros w. eapply sink_grows_step; try reflexivity.
  - unfold id, log_append. simpl.
    destruct (log_open_result env (calls_log w)); simpl.
    + unfold str_cat. now rewrite app_nil_r.
    + now rewrite app_nil_r.
  - now apply same_db_grows.
Qed.

Lemma save_to_database_grows (filename state : str)
  (errors warnings info : list str) :
  stable id sink_grows
    (save_to_database env filename state errors warnings info).
Proof.
  intros w. unfold id, save_to_database.
  destruct (db_insert_result env (calls_db w)) as [[] | e];
    [destruct (db w) as [rows0 |] eqn:E |];
    (eapply sink_grows_step; try reflexivity;
     [simpl; now rewrite app_nil_r |]); simpl.
  - intros rows H. rewrite E in H. injection H as <-. now eexists.
  - intros rows H. congruence.
  - intros rows H. exists []. now rewrite app_nil_r.
Qed.

Lemma submit_event_grows (name : str) (w : World) :
  sink_grows w (emit (EvSubmit name) w).
Proof.
  eapply sink_grows_step; try reflexivity.
  - simpl. now rewrite app_nil_r.
  - now apply same_db_grows.
Qed.

End SinkGrows.

Lemma stable_safe_sftp_attempts {S A} (proj : S -> World)
  (R : World -> World -> Prop)
  (R_trans : forall a b c, R a b -> R b c -> R a c)
  (R_refl : forall w, R w w)
  (print_line : str -> S -> S) (func : M S A) (max_retries : Z)
  (attempts : list nat) :
  (forall line s, R (proj s) (proj (print_line line s))) ->
  stable proj R func ->
  stable proj R (safe_sftp_attempts print_line func max_retries attempts).
Proof.
  intros Hp Hf. induction attempts as [|attempt rest IH]; intros s.
  - apply R_refl.
  - rewrite safe_sftp_attempts_cons. specialize (Hf s).
    destruct (func s) as [[a | e] s1]; simpl in *.
    + exact Hf.
    + destruct (Z.of_nat attempt =? max_retries - 1)%Z; simpl.
      * eapply R_trans; [exact Hf | apply Hp].
      * eapply R_trans; [exact Hf |].
        eapply R_trans; [apply Hp | apply IH].
Qed.

Section RunGrows.
Context {S D : Type}.
Variable schema_dict : S.
Variable dialect : D.
Variable env : Env.
Variable ROOT_DIRECTORIES : list str.
Variable LOCAL_DIRECTORY : str.
Variable KEYWORD : str.
Variable FILE_EXTENSION : str.
Variable recursion_limit : nat.

Ltac grows_step :=
  first
    [ apply print_grows | apply connect_grows | apply close_grows
    | apply listdir_grows | apply get_grows | apply read_grows
    | apply log_append_grows | apply save_to_database_grows
    | apply (stable_bind _ sink_grows sink_grows_trans); [| intros ?]
    | apply (stable_try_except _ sink_grows sink_grows_trans); [| intros ?]
    | apply (stable_try_finally _ sink_grows sink_grows_trans)
    | apply (stable_for_each _ sink_grows sink_grows_refl sink_grows_trans);
      intros ?
    | apply (stable_ret _ sink_grows sink_grows_refl)
    | apply (stable_raise _ sink_grows sink_grows_refl)
    | apply (stable_future_result sink_grows sink_grows_refl)
    | apply (stable_lift_world sink_grows) ].

Lemma fetch_step_grows (file_info : FileInfo) :
  stable id sink_grows (fetch_step env LOCAL_DIRECTORY file_info).
Proof.
  apply (stable_safe_sftp_attempts id sink_grows sink_grows_trans
           sink_grows_refl).
  - intros line w. apply (print_grows line w).
  - apply get_grows.
Qed.

Lemma process_file_grows (file_info : FileInfo) :
  stable id sink_grows
    (process_file env LOCAL_DIRECTORY file_info schema_dict dialect).
Proof.
  unfold process_file.
  grows_step.
  - grows_step; [apply fetch_step_grows |].
    grows_step; [grows_step |].
    destruct (validate_csv a0 schema_dict dialect) as [[errors warnings] info].
    repeat grows_step.
  - repeat grows_step.
Qed.

Lemma recurse_grows (depth : nat) (path : str) :
  stable snd sink_grows (_recurse env KEYWORD FILE_EXTENSION depth path).
Proof.
  intros [file_list w]. rewrite recurse_run.
  apply (after_listing_related sink_grows sink_grows_trans).
  - apply (listdir_grows env path w).
  - intros line w'. apply (print_grows line w').
Qed.

Lemma list_files_recursive_grows (remote_dir : str) :
  stable id sink_grows
    (list_files_recursive env KEYWORD FILE_EXTENSION recursion_limit
       remote_dir).
Proof.
  intros w. unfold list_files_recursive, id.
  pose proof (recurse_grows recursion_limit remote_dir ([], w)) as H.
  destruct (_recurse env KEYWORD FILE_EXTENSION recursion_limit remote_dir
              ([], w)) as [[u | e] [file_list w1]]; exact H.
Qed.

Lemma submit_files_grows (files : list FileInfo) (tasks : list (res unit)) :
  stable id sink_grows
    (submit_files env LOCAL_DIRECTORY files schema_dict dialect tasks).
Proof.
  revert tasks. induction files as [|file_info rest IH]; intros tasks; simpl.
  - grows_step.
  - grows_step; [| apply IH].
    apply (stable_executor_submit sink_grows sink_grows_trans).
    + apply submit_event_grows.
    + apply process_file_grows.
Qed.

Lemma submit_roots_grows (roots : list str) (tasks : list (res unit)) :
  stable id sink_grows
    (submit_roots env LOCAL_DIRECTORY KEYWORD FILE_EXTENSION recursion_limit
       roots schema_dict dialect tasks).
Proof.
  revert tasks. induction roots as [|root rest IH]; intros tasks; simpl.
  - grows_step.
  - grows_step; [apply list_files_recursive_grows |].
    grows_step; [apply submit_files_grows | apply IH].
Qed.

(** What follows the writing of the header. *)
Lemma after_header_grows :
  stable id sink_grows
    (sftp_connect env ;;;
     try_finally
       (tasks <- submit_roots env LOCAL_DIRECTORY KEYWORD FILE_EXTENSION
                   recursion_limit ROOT_DIRECTORIES schema_dict dialect [] ;;
        for_each tasks future_result)
       sftp_close).
Proof.
  grows_step; [grows_step |].
  grows_step; [| grows_step].
  grows_step; [apply submit_roots_grows | repeat grows_step].
Qed.

End RunGrows.

Lemma new_events_app (w w' : World) (evs : list Event) :
  trace w' = trace w ++ evs -> new_events w w' = evs.
Proof.
  intros H. unfold new_events. rewrite H, skipn_app, skipn_all.
  now rewrite Nat.sub_diag.
Qed.

(** What one call of [fetch_and_validate_sftp_files] does to the trace,
    the log file and the table. *)
Lemma fetch_and_validate_effects {S D : Type} (schema_dict : S)
  (dialect : D) (env : Env) (ROOT_DIRECTORIES : list str)
  (LOCAL_DIRECTORY KEYWORD FILE_EXTENSION : str) (recursion_limit : nat)
  (w : World) :
  let run := fetch_and_validate_sftp_files env ROOT_DIRECTORIES
               LOCAL_DIRECTORY KEYWORD FILE_EXTENSION recursion_limit
               schema_dict dialect in
  let w' := snd (run w) in
  let opened := log_open_result env (calls_log w) in
  let evs := new_events w w' in
  trace w' = trace w ++ evs /\
  hd_error evs = Some (EvLogInit (is_ok opened)) /\
  no_log_init (tl evs) = true /\
  (opened = Ok tt ->
   log_file w'
   = ("File,Validation State,Errors,Warnings,Info" +++ NL)
       ++ List.concat (appended_records (tl evs))) /\
  (forall e, opened = Raise e ->
             fst (run w) = Raise e /\ tl evs = [] /\
             log_file w' = log_file w) /\
  (forall rows, db w = Some rows ->
                exists added, db w' = Some (rows ++ added)) /\
  (forall rows, db w = Some rows ->
                db (snd (initialize_database w)) = Some rows).
Proof.
  intros run w' opened evs.
  assert (Hinit : forall rows, db w = Some rows ->
                    db (snd (initialize_database w)) = Some rows).
  { intros rows H. simpl. now rewrite H. }
  set (rest := sftp_connect env ;;;
               try_finally
                 (tasks <- submit_roots env LOCAL_DIRECTORY KEYWORD
                             FILE_EXTENSION recursion_limit ROOT_DIRECTORIES
                             schema_dict dialect [] ;;
                  for_each tasks future_result)
                 sftp_close).
  set (w0 := snd (log_write_new env HEADER w)).
  assert (Hrun : run w = match opened with
                         | Ok _ => rest w0
                         | Raise e => (Raise e, w0)
                         end).
  { unfold run, fetch_and_validate_sftp_files. rewrite bind_run.
    change (log_write_new env HEADER w) with (opened, w0).
    destruct opened; reflexivity. }
  assert (T0 : trace w0 = trace w ++ [EvLogInit (is_ok opened)])
    by reflexivity.
  assert (L0 : log_file w0 = if is_ok opened then HEADER else log_file w)
    by reflexivity.
  assert (D0 : db w0 = db w) by reflexivity.
  pose proof (after_header_grows schema_dict dialect env ROOT_DIRECTORIES
                LOCAL_DIRECTORY KEYWORD FILE_EXTENSION recursion_limit w0)
    as Hgrows.
  fold rest in Hgrows. unfold id in Hgrows.
  subst evs w'. rewrite Hrun. clear Hrun. clearbody w0 rest.
  destruct opened as [[] | e0].
  - destruct Hgrows as [[evs' [T1 [N1 L1]]] D1].
    assert (T : trace (snd (rest w0)) = trace w ++ EvLogInit true :: evs').
    { rewrite T1, T0, <- app_assoc. reflexivity. }
    rewrite (new_events_app _ _ _ T). simpl.
    split; [exact T |]. split; [reflexivity |]. split; [exact N1 |].
    split; [intros _; rewrite L1, L0; reflexivity |].
    split; [intros e1 He1; discriminate |].
    split; [| exact Hinit].
    intros rows Hrows. apply D1. congruence.
  - simpl. rewrite (new_events_app _ _ _ T0). simpl.
    split; [exact T0 |]. split; [reflexivity |]. split; [reflexivity |].
    split; [intros He1; discriminate |].
    split; [intros e1 He1; injection He1 as ->; auto |].
    split; [| exact Hinit].
    intros rows Hrows. exists []. rewrite app_nil_r. congruence.
Qed.

(** C10: the run first rewrites the log file: its first event is the
    opening of [LOG_FILE] for writing, no later event of the run is one,
    and when the file opens its content at the end is the header line
    followed by the records this run appended, nothing of what it held
    before.  (When the file does not open the run stops there.)  The rows
    the table held stay in it, in order, before the rows the run inserts,
    and [initialize_database] leaves an existing table as it is. *)
Theorem C10_log_rewritten_database_kept {S D : Type} (schema_dict : S)
  (dialect : D) (env : Env) (ROOT_DIRECTORIES : list str)
  (LOCAL_DIRECTORY KEYWORD FILE_EXTENSION : str) (recursion_limit : nat)
  (w : World) :
  let run := fetch_and_validate_sftp_files env ROOT_DIRECTORIES
               LOCAL_DIRECTORY KEYWORD FILE_EXTENSION recursion_limit
               schema_dict dialect in
  let w' := snd (run w) in
  let opened := log_open_result env (calls_log w) in
  let evs := new_events w w' in
  trace w' = trace w ++ evs /\
  hd_error evs = Some (EvLogInit (is_ok opened)) /\
  no_log_init (tl evs) = true /\
  (opened = Ok tt ->
   log_file w'
   = ("File,Validation State,Errors,Warnings,Info" +++ NL)
       ++ List.concat (appended_records (tl evs))) /\
  (forall e, opened = Raise e ->
             fst (run w) = Raise e /\ tl evs = [] /\
             log_file w' = log_file w) /\
  (forall rows, db w = Some rows ->
                exists added, db w' = Some (rows ++ added)) /\
  (forall rows, db w = Some rows ->
                db (snd (initialize_database w)) = Some rows).
Proof.
  exact (fetch_and_validate_effects schema_dict dialect env ROOT_DIRECTORIES
           LOCAL_DIRECTORY KEYWORD FILE_EXTENSION recursion_limit w).
Qed.

Lemma C10_log_rewritten_database_kept_witness :
  let w' := snd (fetch_and_validate_sftp_files (example_env "a,b" (Ok tt))
                   [lit "/data"] "downloads" "target" ".csv" 100 tt tt
                   example_world) in
  log_file w'
  = ("File,Validation State,Errors,Warnings,Info" +++ NL)
      ++ List.concat (appended_records (tl (new_events example_world w'))) /\
  exists added, db w' = Some ([example_row] ++ added).
Proof.
  pose proof (C10_log_rewritten_database_kept tt tt
                (example_env "a,b" (Ok tt)) [lit "/data"] "downloads"
                "target" ".csv" 100 example_world) as H.
  cbv zeta in H. destruct H as [_ [_ [_ [H1 [_ [H2 _]]]]]].
  split; [apply H1; reflexivity | apply H2; reflexivity].
Defined.

(** ** What discovery finds *)

Lemma after_listing_world (env : Env) (path : str) (w : World) :
  after_listing env path w
  = mkWorld (calls_get w) (calls_remove w) (calls_read w) (calls_log w)
      (calls_db w) (trace w ++ [listing_event env path]) (log_file w) (db w)
      (stdout w ++ listing_report env path) (logging w).
Proof.
  unfold after_listing, listing_report.
  destruct (listdir_attr_result env path) as [[|entry entries] | e];
    cbn [fold_left print snd emit trace stdout calls_get calls_remove
         calls_read calls_log calls_db log_file db logging];
    rewrite ?app_nil_r; reflexivity.
Qed.

Lemma after_listings_world (env : Env) (roots : list str) (w : World) :
  after_listings env roots w
  = mkWorld (calls_get w) (calls_remove w) (calls_read w) (calls_log w)
      (calls_db w) (trace w ++ map (listing_event env) roots) (log_file w)
      (db w) (stdout w ++ flat_map (listing_report env) roots) (logging w).
Proof.
  unfold after_listings. revert w.
  induction roots as [|root roots IH]; intros w.
  - destruct w. cbn. now rewrite !app_nil_r.
  - cbn [fold_left map flat_map]. rewrite IH, after_listing_world.
    cbn [trace stdout calls_get calls_remove calls_read calls_log calls_db
         log_file db logging].
    now rewrite <- !app_assoc.
Qed.

(** C5: [list_files_recursive] returns the empty list, whatever the
    server holds: the lookup [paramiko.SFTPAttributes.S_ISDIR] raises at
    the first entry of a listing and the [except] of [_recurse] ends the
    loop.  On the example namespace [/data/target_report.csv] is a regular
    file whose path ends in [.csv] and holds [target]; it is not returned,
    and what is printed is the failure of the lookup. *)
Theorem C5_discovery_finds_nothing :
  (forall env KEYWORD FILE_EXTENSION recursion_limit remote_dir w,
     fst (list_files_recursive env KEYWORD FILE_EXTENSION recursion_limit
            remote_dir w) = Ok []) /\
  (let env := example_env [] (Ok tt) in
   let entry := mkAttr "target_report.csv" (Some 33188%Z) in
   let remote_path := os_path_join "/data" (attr_filename entry) in
   let out := list_files_recursive env "target" ".csv" 100 "/data"
                example_world in
   (exists rest, listdir_attr_result env "/data" = Ok (entry :: rest)) /\
   stat_S_ISDIR 33188 = false /\
   remote_path = lit "/data/target_report.csv" /\
   endswith remote_path ".csv" && contains "target" remote_path = true /\
   fst out = Ok [] /\
   new_events example_world (snd out) = [EvListdir "/data" true] /\
   stdout (snd out)
   = ["Error listing " +++ "/data" +++ ": "
        +++ "type object 'SFTPAttributes' has no attribute 'S_ISDIR'"]).
Proof.
  split.
  - intros. now rewrite list_files_recursive_run.
  - cbv zeta. split; [eexists; reflexivity |].
    repeat split; reflexivity.
Qed.

(** ** A run of the validator, event by event *)

Lemma file_lines_first_line (line rest cur : str) :
  forallb (fun c => negb (N.eqb c 10) && negb (N.eqb c 13)) line = true ->
  file_lines (line ++ NL ++ rest) cur
  = (cur ++ line ++ NL) :: file_lines rest [].
Proof.
  revert cur. induction line as [|c line IH]; intros cur H.
  - simpl. reflexivity.
  - simpl in H. apply andb_true_iff in H. destruct H as [Hc H].
    apply andb_true_iff in Hc. destruct Hc as [H10 H13].
    apply negb_true_iff in H10, H13.
    simpl. rewrite H10, H13. rewrite IH by exact H.
    now rewrite <- app_assoc.
Qed.

Section ValidatorRun.
Context {S D : Type}.
Variable schema_dict : S.
Variable dialect : D.
Variable env : Env.
Variable ROOT_DIRECTORIES : list str.
Variable LOCAL_DIRECTORY : str.
Variable KEYWORD : str.
Variable FILE_EXTENSION : str.
Variable recursion_limit : nat.

(** No root yields a file, so nothing is submitted. *)
Lemma submit_roots_run (roots : list str) (tasks : list (res unit))
  (w : World) :
  submit_roots env LOCAL_DIRECTORY KEYWORD FILE_EXTENSION recursion_limit
    roots schema_dict dialect tasks w
  = (Ok tasks, after_listings env roots w).
Proof.
  unfold after_listings. revert w.
  induction roots as [|root roots IH]; intros w.
  - reflexivity.
  - cbn [submit_roots fold_left].
    rewrite bind_run, list_files_recursive_run. cbn [submit_files].
    rewrite bind_run. cbn [ret]. apply IH.
Qed.

Lemma fetch_and_validate_run (w : World) :
  fetch_and_validate_sftp_files env ROOT_DIRECTORIES LOCAL_DIRECTORY KEYWORD
    FILE_EXTENSION recursion_limit schema_dict dialect w
  = let w0 := snd (log_write_new env HEADER w) in
    match log_open_result env (calls_log w) with
    | Raise e => (Raise e, w0)
    | Ok _ =>
        let w1 := snd (sftp_connect env w0) in
        match connect_result env with
        | Raise e => (Raise e, w1)
        | Ok _ => (Ok tt, emit EvClose (after_listings env ROOT_DIRECTORIES w1))
        end
    end.
Proof.
  unfold fetch_and_validate_sftp_files. rewrite bind_run.
  unfold log_write_new. cbv zeta. cbn [snd].
  destruct (log_open_result env (calls_log w)) as [[] | e]; [| reflexivity].
  rewrite bind_run. unfold sftp_connect. cbv zeta. cbn [snd].
  destruct (connect_result env) as [[] | e]; [| reflexivity].
  unfold try_finally. rewrite bind_run, submit_roots_run.
  reflexivity.
Qed.

(** The run when the log file and the connection open. *)
Lemma fetch_and_validate_world (w : World) :
  log_open_result env (calls_log w) = Ok tt ->
  connect_result env = Ok tt ->
  fetch_and_validate_sftp_files env ROOT_DIRECTORIES LOCAL_DIRECTORY KEYWORD
    FILE_EXTENSION recursion_limit schema_dict dialect w
  = (Ok tt,
     mkWorld (calls_get w) (calls_remove w) (calls_read w)
       (Datatypes.S (calls_log w)) (calls_db w)
       (trace w ++ [EvLogInit true; EvConnect true]
          ++ map (listing_event env) ROOT_DIRECTORIES ++ [EvClose])
       HEADER (db w)
       (stdout w ++ flat_map (listing_report env) ROOT_DIRECTORIES)
       (logging w)).
Proof.
  intros Hlog Hc. rewrite fetch_and_validate_run, Hlog, Hc. cbv zeta.
  rewrite after_listings_world.
  unfold log_write_new, sftp_connect, emit. cbv zeta. rewrite Hlog, Hc.
  cbn [snd is_ok trace stdout calls_get calls_remove calls_read calls_log
       calls_db log_file db logging].
  do 2 f_equal. rewrite <- !app_assoc. reflexivity.
Qed.

End ValidatorRun.



(** ** One record when the download or the read fails *)

Section ProcessFileFails.
Context {S D : Type}.
Variable schema_dict : S.
Variable dialect : D.
Variable env : Env.
Variable LOCAL_DIRECTORY : str.
Variable file_info : FileInfo.

Local Abbreviation filename := (fi_filename file_info).
Local Abbreviation local_path := (os_path_join LOCAL_DIRECTORY filename).
Local Abbreviation fetch := (fetch_step env LOCAL_DIRECTORY file_info).

Lemma handler_appends_error (e : exn) (w1 : World) :
  log_open_result env (calls_log w1) = Ok tt ->
  let w' := snd ((log_append env (error_line_of filename (exn_str e)) ;;;
                  print ("Error processing file " +++ filename +++ ": "
                           +++ exn_traceback e)) w1) in
  log_file w' = log_file w1 +++ error_line_of filename (exn_str e) /\
  db w' = db w1.
Proof.
  intros Hlog. cbv zeta. rewrite bind_run.
  destruct (log_append_run env (error_line_of filename (exn_str e)) w1)
    as [w2 [-> [_ [_ [Hf2 Hdb2]]]]].
  rewrite Hlog in *. cbn [is_ok] in Hf2.
  destruct (print_run ("Error processing file " +++ filename +++ ": "
                         +++ exn_traceback e) w2)
    as [w3 [-> [_ [_ [Hf3 Hdb3]]]]].
  cbn [snd]. split; congruence.
Qed.

(** The download fails, retries included: one error record, no row. *)
Lemma process_file_fetch_failed (w : World) (e : exn) :
  fst (fetch w) = Raise e ->
  log_open_result env (calls_log w) = Ok tt ->
  let w' := snd (process_file env LOCAL_DIRECTORY file_info schema_dict
                   dialect w) in
  log_file w' = log_file w +++ error_line_of filename (exn_str e) /\
  db w' = db w.
Proof.
  intros Hfetch Hlog.
  pose proof (fetch_keeps_sink env (fi_path file_info) local_path 3
                (seq 0 (Z.to_nat 3)) w) as Hsink.
  unfold process_file. cbv zeta. rewrite try_except_run, bind_run.
  change (safe_sftp_operation world_print
            (sftp_get env (fi_path file_info) local_path) 3 w)
    with (fetch w).
  change (safe_sftp_attempts world_print
            (sftp_get env (fi_path file_info) local_path) 3
            (seq 0 (Z.to_nat 3)) w) with (fetch w) in Hsink.
  destruct (fetch w) as [r1 w1]. cbn [fst snd] in Hfetch, Hsink. subst r1.
  unfold sink in Hsink. injection Hsink as Hr Hl Hd Hf Hdb.
  rewrite <- Hl in Hlog.
  destruct (handler_appends_error e w1 Hlog) as [H1 H2].
  split; congruence.
Qed.

(** The download succeeds and the local file does not read: one error
    record, no row. *)
Lemma process_file_read_failed (w : World) (e : exn) :
  is_ok (fst (fetch w)) = true ->
  read_result env (calls_read w) local_path = Raise e ->
  log_open_result env (calls_log w) = Ok tt ->
  let w' := snd (process_file env LOCAL_DIRECTORY file_info schema_dict
                   dialect w) in
  log_file w' = log_file w +++ error_line_of filename (exn_str e) /\
  db w' = db w.
Proof.
  intros Hfetch Hread Hlog.
  pose proof (fetch_keeps_sink env (fi_path file_info) local_path 3
                (seq 0 (Z.to_nat 3)) w) as Hsink.
  unfold process_file. cbv zeta. rewrite try_except_run, bind_run.
  change (safe_sftp_operation world_print
            (sftp_get env (fi_path file_info) local_path) 3 w)
    with (fetch w).
  change (safe_sftp_attempts world_print
            (sftp_get env (fi_path file_info) local_path) 3
            (seq 0 (Z.to_nat 3)) w) with (fetch w) in Hsink.
  destruct (fetch w) as [r1 w1]. cbn [fst snd] in Hfetch, Hsink.
  destruct r1 as [x | e1]; [| discriminate].
  unfold sink in Hsink. injection Hsink as Hr Hl Hd Hf Hdb.
  rewrite bind_run.
  destruct (read_text_run env local_path w1)
    as [w2 [-> [Hl2 [Hd2 [Hf2 Hdb2]]]]].
  rewrite Hr, Hread.
  assert (Hlog2 : log_open_result env (calls_log w2) = Ok tt)
    by congruence.
  destruct (handler_appends_error e w2 Hlog2) as [H1 H2].
  split; congruence.
Qed.

End ProcessFileFails.

(** ** The validator never deletes *)

Lemma trace_adds_refl (P : Event -> bool) (w : World) : trace_adds P w w.
Proof. exists []. split; [now rewrite app_nil_r | reflexivity]. Qed.

Lemma trace_adds_trans (P : Event -> bool) (a b c : World) :
  trace_adds P a b -> trace_adds P b c -> trace_adds P a c.
Proof.
  intros [e1 [T1 P1]] [e2 [T2 P2]]. exists (e1 ++ e2). split.
  - now rewrite T2, T1, app_assoc.
  - rewrite forallb_app. now rewrite P1, P2.
Qed.

Lemma trace_adds_one (P : Event -> bool) (w w' : World) (ev : Event) :
  trace w' = trace w ++ [ev] -> P ev = true -> trace_adds P w w'.
Proof. intros T H. exists [ev]. split; [exact T | simpl; now rewrite H]. Qed.

Lemma trace_adds_none (P : Event -> bool) (w w' : World) :
  trace w' = trace w -> trace_adds P w w'.
Proof. intros T. exists []. split; [now rewrite app_nil_r | reflexivity]. Qed.

Section NeverRemoves.
Context {S D : Type}.
Variable schema_dict : S.
Variable dialect : D.
Variable env : Env.
Variable ROOT_DIRECTORIES : list str.
Variable LOCAL_DIRECTORY : str.
Variable KEYWORD : str.
Variable FILE_EXTENSION : str.
Variable recursion_limit : nat.

Local Abbreviation keeps := (trace_adds not_remove).
Local Abbreviation keeps_refl := (trace_adds_refl not_remove).
Local Abbreviation keeps_trans := (trace_adds_trans not_remove).

Ltac one_event := intros ?; eapply trace_adds_one; reflexivity.
Ltac no_event := intros ?; apply trace_adds_none; reflexivity.

Lemma save_to_database_keeps (filename state : str)
  (errors warnings info : list str) :
  stable id keeps (save_to_database env filename state errors warnings info).
Proof.
  intros w. unfold id, save_to_database.
  destruct (db_insert_result env (calls_db w)) as [[] | e];
    [destruct (db w) |]; eapply trace_adds_one; reflexivity.
Qed.

Ltac keeps_step :=
  first
    [ apply save_to_database_keeps
    | apply (stable_bind _ keeps keeps_trans); [| intros ?]
    | apply (stable_try_except _ keeps keeps_trans); [| intros ?]
    | apply (stable_try_finally _ keeps keeps_trans)
    | apply (stable_for_each _ keeps keeps_refl keeps_trans); intros ?
    | apply (stable_ret _ keeps keeps_refl)
    | apply (stable_raise _ keeps keeps_refl)
    | apply (stable_future_result keeps keeps_refl)
    | apply (stable_lift_world keeps)
    | one_event | no_event ].

Lemma fetch_step_keeps (file_info : FileInfo) :
  stable id keeps (fetch_step env LOCAL_DIRECTORY file_info).
Proof.
  apply (stable_safe_sftp_attempts id keeps keeps_trans keeps_refl).
  - intros line w. now apply trace_adds_none.
  - one_event.
Qed.

Lemma process_file_keeps (file_info : FileInfo) :
  stable id keeps
    (process_file env LOCAL_DIRECTORY file_info schema_dict dialect).
Proof.
  unfold process_file.
  keeps_step.
  - keeps_step; [apply fetch_step_keeps |].
    keeps_step; [one_event |].
    destruct (validate_csv a0 schema_dict dialect) as [[errors warnings] info].
    keeps_step; [one_event | keeps_step].
  - keeps_step; [one_event | no_event].
Qed.

Lemma recurse_keeps (depth : nat) (path : str) :
  stable snd keeps (_recurse env KEYWORD FILE_EXTENSION depth path).
Proof.
  intros [file_list w]. rewrite recurse_run.
  apply (after_listing_related keeps keeps_trans).
  - eapply trace_adds_one; reflexivity.
  - intros line w'. now apply trace_adds_none.
Qed.

Lemma list_files_recursive_keeps (remote_dir : str) :
  stable id keeps
    (list_files_recursive env KEYWORD FILE_EXTENSION recursion_limit
       remote_dir).
Proof.
  intros w. unfold list_files_recursive, id.
  pose proof (recurse_keeps recursion_limit remote_dir ([], w)) as H.
  destruct (_recurse env KEYWORD FILE_EXTENSION recursion_limit remote_dir
              ([], w)) as [[u | e] [file_list w1]]; exact H.
Qed.

Lemma submit_files_keeps (files : list FileInfo) (tasks : list (res unit)) :
  stable id keeps
    (submit_files env LOCAL_DIRECTORY files schema_dict dialect tasks).
Proof.
  revert tasks. induction files as [|file_info rest IH]; intros tasks; simpl.
  - keeps_step.
  - keeps_step; [| apply IH].
    apply (stable_executor_submit keeps keeps_trans).
    + intros w. eapply trace_adds_one; reflexivity.
    + apply process_file_keeps.
Qed.

Lemma submit_roots_keeps (roots : list str) (tasks : list (res unit)) :
  stable id keeps
    (submit_roots env LOCAL_DIRECTORY KEYWORD FILE_EXTENSION recursion_limit
       roots schema_dict dialect tasks).
Proof.
  revert tasks. induction roots as [|root rest IH]; intros tasks; simpl.
  - keeps_step.
  - keeps_step; [apply list_files_recursive_keeps |].
    keeps_step; [apply submit_files_keeps | apply IH].
Qed.

Lemma fetch_and_validate_keeps :
  stable id keeps
    (fetch_and_validate_sftp_files env ROOT_DIRECTORIES LOCAL_DIRECTORY
       KEYWORD FILE_EXTENSION recursion_limit schema_dict dialect).
Proof.
  unfold fetch_and_validate_sftp_files.
  keeps_step; [one_event |].
  keeps_step; [one_event |].
  keeps_step; [| one_event].
  keeps_step; [apply submit_roots_keeps | keeps_step; keeps_step].
Qed.

End NeverRemoves.

(** X1: one pass of the validator, the run and its summary, never calls
    [sftp.remove]: no event of its trace is a removal, whatever the server,
    the files and the sink do. *)
Theorem validator_never_removes (env : Env) (ROOT_DIRECTORIES : list str)
  (LOCAL_DIRECTORY KEYWORD FILE_EXTENSION : str) (recursion_limit : nat)
  (w : World) :
  let w' := snd (run_once env ROOT_DIRECTORIES LOCAL_DIRECTORY KEYWORD
                   FILE_EXTENSION recursion_limit w) in
  trace w' = trace w ++ new_events w w' /\
  forall remote_path ok, ~ In (EvRemove remote_path ok) (new_events w w').
Proof.
  intros w'.
  assert (H : trace_adds not_remove w w').
  { unfold w', run_once.
    apply (stable_bind id (trace_adds not_remove)
             (trace_adds_trans not_remove)).
    - apply fetch_and_validate_keeps.
    - intros _ w0. unfold id, generate_summary_report.
      destruct (summary_counts (log_file w0)); now apply trace_adds_none. }
  destruct H as [evs [T Hall]].
  rewrite (new_events_app _ _ _ T). split; [exact T |].
  intros remote_path ok Hin. rewrite forallb_forall in Hall.
  specialize (Hall _ Hin). discriminate.
Qed.

(** ** The entry points and a connection that fails *)

(** The shape of both [main]s: nothing gets out of
    [try: ... except Exception: report ... finally: close]. *)
Lemma guarded_main_returns (body : M World unit) (report : exn -> M World unit)
  (w : World) :
  (forall e w0, fst (report e w0) = Ok tt) ->
  (forall e w0, trace (snd (report e w0)) = trace w0) ->
  let out := try_finally (try_except body report) sftp_close w in
  fst out = Ok tt /\
  trace (snd out) = trace (snd (body w)) ++ [EvClose].
Proof.
  intros Hr Ht. cbv zeta. unfold try_finally. rewrite try_except_run.
  destruct (body w) as [[[] | e] w1]; cbn [fst snd].
  - split; reflexivity.
  - specialize (Hr e w1). specialize (Ht e w1).
    destruct (report e w1) as [r w2]. cbn [fst snd] in *. subst r.
    split; [reflexivity |]. simpl. now rewrite Ht.
Qed.

(** X2: [main] of both fetch-and-delete scripts never raises, and the
    last thing it does to the server is to close the connection. *)
Theorem mains_never_raise (env : Env)
  (REMOTE_DIRECTORY LOCAL_DIRECTORY : str) (w : World) :
  let parallel := ParallelFetcher.main env REMOTE_DIRECTORY LOCAL_DIRECTORY w in
  let sequential :=
    SequentialFetcher.main env REMOTE_DIRECTORY LOCAL_DIRECTORY w in
  (fst parallel = Ok tt /\
   exists evs, trace (snd parallel) = trace w ++ evs ++ [EvClose]) /\
  (fst sequential = Ok tt /\
   exists evs, trace (snd sequential) = trace w ++ evs ++ [EvClose]).
Proof.
  cbv zeta. split.
  - unfold ParallelFetcher.main.
    match goal with |- context [try_except ?b ?r] =>
      destruct (guarded_main_returns b r w) as [H1 H2];
        [reflexivity | reflexivity |];
      assert (Hs : fetch_ordered w (snd (b w)))
    end.
    { match goal with |- fetch_ordered w (snd (?b w)) =>
        assert (Hst : stable id fetch_ordered b) end.
      { apply (stable_bind id fetch_ordered fetch_ordered_trans);
          [apply connect_ordered | intros _].
        apply (stable_bind id fetch_ordered fetch_ordered_trans);
          [apply parallel_list_ordered | intros files].
        apply (stable_bind id fetch_ordered fetch_ordered_trans);
          [apply logging_ordered | intros _].
        apply (stable_bind id fetch_ordered fetch_ordered_trans);
          [| intros _; apply close_ordered].
        apply (stable_for_each id fetch_ordered fetch_ordered_refl
                 fetch_ordered_trans). intros ib.
        apply (stable_bind id fetch_ordered fetch_ordered_trans);
          [apply logging_ordered | intros _].
        unfold ParallelFetcher.fetch_and_delete_files_in_parallel.
        apply (stable_bind id fetch_ordered fetch_ordered_trans);
          [apply submit_all_ordered | intros futures].
        apply (stable_for_each id fetch_ordered fetch_ordered_refl
                 fetch_ordered_trans). intros future.
        apply (stable_try_except id fetch_ordered fetch_ordered_trans);
          [apply (stable_future_result fetch_ordered fetch_ordered_refl)
          | intros e; apply logging_ordered]. }
      apply Hst. }
    destruct Hs as [evs [T _]]. split; [exact H1 |].
    exists evs. rewrite H2, T, <- app_assoc. reflexivity.
  - unfold SequentialFetcher.main.
    match goal with |- context [try_except ?b ?r] =>
      destruct (guarded_main_returns b r w) as [H1 H2];
        [reflexivity | reflexivity |];
      assert (Hs : fetch_ordered w (snd (b w)))
    end.
    { match goal with |- fetch_ordered w (snd (?b w)) =>
        assert (Hst : stable id fetch_ordered b) end.
      { apply (stable_bind id fetch_ordered fetch_ordered_trans);
          [apply connect_ordered | intros _].
        apply (stable_bind id fetch_ordered fetch_ordered_trans);
          [| intros _; apply close_ordered].
        unfold SequentialFetcher.fetch_and_delete_files.
        apply (stable_try_except id fetch_ordered fetch_ordered_trans);
          [| intros e; apply print_ordered].
        apply (stable_bind id fetch_ordered fetch_ordered_trans);
          [apply sequential_list_ordered | intros files].
        apply (stable_bind id fetch_ordered fetch_ordered_trans);
          [apply print_ordered | intros _].
        apply (stable_for_each id fetch_ordered fetch_ordered_refl
                 fetch_ordered_trans). intros ib.
        apply (stable_bind id fetch_ordered fetch_ordered_trans);
          [apply print_ordered | intros _].
        apply (stable_for_each id fetch_ordered fetch_ordered_refl
                 fetch_ordered_trans). intros filename.
        apply sequential_task_ordered. }
      apply Hst. }
    destruct Hs as [evs [T _]]. split; [exact H1 |].
    exists evs. rewrite H2, T, <- app_assoc. reflexivity.
Qed.

(** X3: when the connection cannot be opened, neither fetch-and-delete
    script lists, fetches or removes anything: the calls made are the
    connect that fails and the close of the [finally], and the failure is
    reported once, with the text of the first [except] clause whose class
    the exception is an instance of, classes that derive from it
    included. *)
Theorem mains_connection_failure (env : Env)
  (REMOTE_DIRECTORY LOCAL_DIRECTORY : str) (w : World) (e : exn) :
  connect_result env = Raise e ->
  let parallel :=
    snd (ParallelFetcher.main env REMOTE_DIRECTORY LOCAL_DIRECTORY w) in
  let sequential :=
    snd (SequentialFetcher.main env REMOTE_DIRECTORY LOCAL_DIRECTORY w) in
  let message :=
    if isinstance e "AuthenticationException"
    then lit "Authentication failed. Please check your credentials."
    else if isinstance e "SSHException"
         then "SSH connection error: " +++ exn_str e
         else "Unexpected error: " +++ exn_str e in
  trace parallel = trace w ++ [EvConnect false; EvClose] /\
  logging parallel = logging w ++ [(lit "ERROR", message)] /\
  trace sequential = trace w ++ [EvConnect false; EvClose] /\
  stdout sequential = stdout w ++ [message].
Proof.
  intros H. cbv zeta.
  unfold ParallelFetcher.main, SequentialFetcher.main, try_finally.
  rewrite !try_except_run, !bind_run. unfold sftp_connect. rewrite H.
  cbn. rewrite <- !app_assoc. repeat split; reflexivity.
Qed.

Lemma mains_connection_failure_witness :
  logging (snd (ParallelFetcher.main (unreachable_env bad_authentication_type)
                  "/data" "downloads" example_world))
  = [(lit "ERROR",
      lit "Authentication failed. Please check your credentials.")] /\
  stdout (snd (SequentialFetcher.main (unreachable_env bad_host_key)
                 "/data" "downloads" example_world))
  = ["SSH connection error: " +++ lit "Host key mismatch"].
Proof.
  split.
  - exact (proj1 (proj2 (mains_connection_failure
                           (unreachable_env bad_authentication_type) "/data"
                           "downloads" example_world bad_authentication_type
                           eq_refl))).
  - exact (proj2 (proj2 (proj2 (mains_connection_failure
                                  (unreachable_env bad_host_key) "/data"
                                  "downloads" example_world bad_host_key
                                  eq_refl)))).
Defined.

(** X4: when the log file opens and the connection does not, the
    validator's run raises the connection error having already replaced
    the log by the header alone; nothing is listed, fetched or closed, the
    table is as it was, and no summary is made. *)
Theorem validator_connection_failure {S D : Type} (schema_dict : S)
  (dialect : D) (env : Env) (ROOT_DIRECTORIES : list str)
  (LOCAL_DIRECTORY KEYWORD FILE_EXTENSION : str) (recursion_limit : nat)
  (w : World) (e : exn) :
  log_open_result env (calls_log w) = Ok tt ->
  connect_result env = Raise e ->
  let out := fetch_and_validate_sftp_files env ROOT_DIRECTORIES
               LOCAL_DIRECTORY KEYWORD FILE_EXTENSION recursion_limit
               schema_dict dialect w in
  fst out = Raise e /\
  log_file (snd out) = HEADER /\
  trace (snd out) = trace w ++ [EvLogInit true; EvConnect false] /\
  db (snd out) = db w /\
  fst (run_once env ROOT_DIRECTORIES LOCAL_DIRECTORY KEYWORD FILE_EXTENSION
         recursion_limit w) = Raise e.
Proof.
  intros Hlog Hc. cbv zeta.
  unfold run_once, fetch_and_validate_sftp_files.
  rewrite !bind_run. unfold log_write_new. rewrite Hlog.
  rewrite !bind_run. unfold sftp_connect. rewrite Hc.
  cbn. rewrite <- !app_assoc. repeat split; reflexivity.
Qed.

Lemma validator_connection_failure_witness :
  log_file (snd (fetch_and_validate_sftp_files (unreachable_env bad_password)
                   [lit "/data"] "downloads" "target" ".csv" 100 tt tt
                   example_world))
  = HEADER.
Proof.
  exact (proj1 (proj2 (validator_connection_failure tt tt
                         (unreachable_env bad_password) [lit "/data"]
                         "downloads" "target" ".csv" 100 example_world
                         bad_password eq_refl eq_refl))).
Defined.

(** ** Every listed file is fetched once *)

Lemma gets_of_app (a b : list Event) :
  gets_of (a ++ b) = gets_of a ++ gets_of b.
Proof.
  induction a as [|ev a IH]; simpl; [reflexivity |].
  destruct ev; simpl; congruence.
Qed.

Lemma returns_fetching_silent (c : M World unit) :
  (forall w, exists w', c w = (Ok tt, w') /\ trace w' = trace w) ->
  returns_fetching [] c.
Proof.
  intros H w. destruct (H w) as [w' [E T]].
  exists w', []. rewrite app_nil_r. auto.
Qed.

Lemma returns_fetching_seq (l1 l2 : list str) (c1 c2 : M World unit) :
  returns_fetching l1 c1 -> returns_fetching l2 c2 ->
  returns_fetching (l1 ++ l2) (c1 ;;; c2).
Proof.
  intros H1 H2 w. rewrite bind_run.
  destruct (H1 w) as [w1 [e1 [-> [T1 G1]]]].
  destruct (H2 w1) as [w2 [e2 [-> [T2 G2]]]].
  exists w2, (e1 ++ e2). rewrite gets_of_app, T2, T1, app_assoc.
  repeat split; congruence.
Qed.

Lemma returns_fetching_for_each {A} (xs : list A) (body : A -> M World unit)
  (g : A -> list str) :
  (forall x, returns_fetching (g x) (body x)) ->
  returns_fetching (flat_map g xs) (for_each xs body).
Proof.
  intros H. induction xs as [|x xs IH]; simpl.
  - intros w. exists w, []. now rewrite app_nil_r.
  - apply returns_fetching_seq; [apply H | exact IH].
Qed.

Lemma print_fetches_nothing (line : str) : returns_fetching [] (print line).
Proof. apply returns_fetching_silent. intros w. eexists. split; reflexivity. Qed.

Lemma batches_concat {A} (files : list A) :
  List.concat (map snd (batches_of BATCH_SIZE files)) = files.
Proof.
  unfold batches_of, range_step, BATCH_SIZE. rewrite map_map. cbn [snd].
  rewrite (concat_slices_from 50 files _ 0); [reflexivity |].
  rewrite Nat.add_0_l.
  set (n := List.length files + 50 - 1).
  pose proof (Nat.div_mod_eq n 50).
  pose proof (Nat.mod_upper_bound n 50 ltac:(lia)).
  fold (n / 50). unfold n in *. lia.
Qed.

Lemma flat_map_batches {A B} (g : A -> list B) (files : list A) :
  flat_map (fun ib : nat * list A => flat_map g (snd ib))
    (batches_of BATCH_SIZE files)
  = flat_map g files.
Proof.
  rewrite <- (batches_concat files) at 2.
  induction (batches_of BATCH_SIZE files) as [|ib rest IH]; simpl.
  - reflexivity.
  - rewrite flat_map_app. now f_equal.
Qed.

Section FetchOnce.
Variable env : Env.

Lemma sequential_task_fetches (remote_directory local_directory
  filename : str) :
  returns_fetching [os_path_join remote_directory filename]
    (SequentialFetcher.fetch_and_delete_one env remote_directory
       local_directory filename).
Proof.
  intros w.
  pose proof (sequential_task_trace env remote_directory local_directory
                filename w) as H. cbv zeta in H.
  assert (Hr : fst (SequentialFetcher.fetch_and_delete_one env
                      remote_directory local_directory filename w) = Ok tt).
  { unfold SequentialFetcher.fetch_and_delete_one.
    rewrite try_except_run.
    match goal with |- context [match ?b with _ => _ end] =>
      destruct b as [[[] | e] w1] end; reflexivity. }
  destruct (SequentialFetcher.fetch_and_delete_one env remote_directory
              local_directory filename w) as [r w'].
  cbn [fst snd] in *. subst r.
  destruct (get_result env (calls_get w) _ _).
  - destruct H as [ok H]. do 2 eexists. split; [reflexivity |].
    split; [exact H | reflexivity].
  - do 2 eexists. split; [reflexivity |]. split; [exact H | reflexivity].
Qed.

End FetchOnce.

Lemma flat_map_singleton {A B} (f : A -> B) (l : list A) :
  flat_map (fun x => [f x]) l = map f l.
Proof. induction l; simpl; congruence. Qed.

(** X5: when the connection opens, the directory lists and the
    comprehension of [list_csv_files] gives [names],
    delete_csv_files_via_sftp.py returns having called [sftp.get] once for
    each of the names, on the name joined to the remote directory, in the
    order of the list: batching drops no file and fetches none twice. *)
Theorem every_listed_file_fetched_once (env : Env)
  (REMOTE_DIRECTORY LOCAL_DIRECTORY : str) (w : World)
  (entries : list SFTPAttributes) (names : list str) :
  connect_result env = Ok tt ->
  listdir_attr_result env REMOTE_DIRECTORY = Ok entries ->
  csv_names entries = Ok names ->
  let out := SequentialFetcher.main env REMOTE_DIRECTORY LOCAL_DIRECTORY w in
  fst out = Ok tt /\
  gets_of (new_events w (snd out))
  = map (os_path_join REMOTE_DIRECTORY) names.
Proof.
  intros Hc Hl Hn out.
  set (wanted := map (os_path_join REMOTE_DIRECTORY) names).
  assert (Hrest : forall m,
    returns_fetching wanted
      (print m ;;;
       for_each (batches_of BATCH_SIZE names) (fun ib =>
         print
           ("Processing batch " +++ str_of_nat (fst ib / BATCH_SIZE + 1)
              +++ ": " +++ str_of_nat (List.length (snd ib)) +++ " files") ;;;
         for_each (snd ib)
           (SequentialFetcher.fetch_and_delete_one env REMOTE_DIRECTORY
              LOCAL_DIRECTORY)))).
  { intros m.
    change wanted with ([] ++ wanted).
    apply returns_fetching_seq; [apply print_fetches_nothing |].
    unfold wanted.
    rewrite <- (flat_map_singleton (os_path_join REMOTE_DIRECTORY)),
      <- flat_map_batches.
    apply returns_fetching_for_each. intros ib.
    change (flat_map (fun x => [os_path_join REMOTE_DIRECTORY x]) (snd ib))
      with ([] ++ flat_map (fun x => [os_path_join REMOTE_DIRECTORY x])
                    (snd ib)).
    apply returns_fetching_seq; [apply print_fetches_nothing |].
    apply returns_fetching_for_each. intros filename.
    apply sequential_task_fetches. }
  assert (Hout : exists w' evs,
            out = (Ok tt, w') /\ trace w' = trace w ++ evs /\
            gets_of evs = wanted).
  { unfold out, SequentialFetcher.main, try_finally.
    rewrite try_except_run, bind_run. unfold sftp_connect at 1. rewrite Hc.
    cbn [is_ok]. rewrite bind_run.
    unfold SequentialFetcher.fetch_and_delete_files at 1.
    rewrite try_except_run, bind_run.
    unfold SequentialFetcher.list_csv_files at 1.
    rewrite try_except_run, bind_run. unfold sftp_listdir_attr at 1.
    rewrite Hl. cbn [is_ok]. unfold of_res at 1. rewrite Hn.
    match goal with |- context [(print ?m ;;; _) ?w0] =>
      destruct (Hrest m w0) as [w1 [evs [-> [T G]]]] end.
    cbn [fst snd]. unfold sftp_close. cbn [fst snd].
    exists (emit EvClose (emit EvClose w1)),
      (EvConnect true :: EvListdir REMOTE_DIRECTORY true :: evs
         ++ [EvClose; EvClose]).
    split; [reflexivity |]. split.
    - cbn [emit trace]. rewrite T. cbn [emit trace].
      rewrite <- !app_assoc. reflexivity.
    - cbn [gets_of]. rewrite gets_of_app, G. cbn [gets_of].
      now rewrite app_nil_r. }
  destruct Hout as [w' [evs [-> [T G]]]]. cbn [fst snd].
  split; [reflexivity |]. now rewrite (new_events_app _ _ _ T).
Qed.

Lemma every_listed_file_fetched_once_witness :
  gets_of (new_events example_world
             (snd (SequentialFetcher.main (example_env [] (Ok tt)) "/data"
                     "downloads" example_world)))
  = [lit "/data/target_report.csv"; lit "/data/other_report.csv"].
Proof.
  exact (proj2 (every_listed_file_fetched_once (example_env [] (Ok tt))
                  "/data" "downloads" example_world
                  [mkAttr "target_report.csv" (Some 33188%Z);
                   mkAttr "other_report.csv" (Some 33188%Z);
                   mkAttr "locked" (Some 16877%Z);
                   mkAttr "archive" (Some 16877%Z)]
                  [lit "target_report.csv"; lit "other_report.csv"]
                  eq_refl eq_refl eq_refl)).
Defined.

(** ** What the flat listing keeps *)

Lemma csv_names_known (entries : list SFTPAttributes) :
  (forall entry, In entry entries -> ends_csv entry = true ->
                 st_mode entry <> None) ->
  csv_names entries
  = Ok (map attr_filename
          (filter (fun entry => ends_csv entry && not_directory entry)
             entries)).
Proof.
  induction entries as [|entry rest IH]; intros H; [reflexivity |].
  cbn [csv_names filter]. unfold is_csv_entry.
  fold (ends_csv entry). unfold not_directory at 1.
  destruct (ends_csv entry) eqn:He.
  - destruct (st_mode entry) as [mode |] eqn:Hm.
    + rewrite IH by (intros x Hx; apply H; now right).
      cbn [andb]. now destruct (negb (int_truthy (Z.land mode 16384))).
    + exfalso. apply (H entry); [now left | exact He | exact Hm].
  - rewrite IH by (intros x Hx; apply H; now right). reflexivity.
Qed.

Lemma csv_names_unknown (entries : list SFTPAttributes) :
  (exists entry, In entry entries /\ ends_csv entry = true /\
                 st_mode entry = None) ->
  csv_names entries = Raise mode_is_none.
Proof.
  intros [entry [Hin [He Hm]]].
  induction entries as [|x rest IH]; [destruct Hin |].
  cbn [csv_names]. unfold is_csv_entry. fold (ends_csv x).
  destruct (ends_csv x) eqn:Hx.
  - destruct (st_mode x) as [mode |] eqn:Hmx; [| reflexivity].
    destruct Hin as [-> | Hin]; [congruence |].
    now rewrite IH.
  - destruct Hin as [-> | Hin]; [congruence |].
    now rewrite IH.
Qed.

Lemma directory_bit_of_directory (mode : Z) :
  stat_S_ISDIR mode = true -> Z.land mode 16384 = 16384%Z.
Proof.
  unfold stat_S_ISDIR. intros H. apply Z.eqb_eq in H.
  change 16384%Z with (Z.land 61440 16384) at 1.
  rewrite Z.land_assoc, H. reflexivity.
Qed.

Lemma directory_bit_of_regular_file (mode : Z) :
  Z.land mode 61440 = 32768%Z -> Z.land mode 16384 = 0%Z.
Proof.
  intros H. change 16384%Z with (Z.land 61440 16384).
  rewrite Z.land_assoc, H. reflexivity.
Qed.

(** X6: when the directory lists and every entry whose name ends in
    [.csv] has a mode, [list_csv_files] of both scripts returns, in
    listing order, the names of the entries that end in [.csv] and whose
    mode has bit [0o40000] clear: no directory is among them, and every
    regular file whose name ends in [.csv] is.  When an entry whose name
    ends in [.csv] has no mode, the test raises [TypeError], the failure
    is reported as a failure of the directory, and the list is empty. *)
Theorem list_csv_files_selection (env : Env) (directory : str) (w : World)
  (entries : list SFTPAttributes) :
  listdir_attr_result env directory = Ok entries ->
  let parallel := ParallelFetcher.list_csv_files env directory w in
  let sequential := SequentialFetcher.list_csv_files env directory w in
  let names :=
    map attr_filename
      (filter (fun entry => ends_csv entry && not_directory entry) entries) in
  let message :=
    "Error accessing directory " +++ directory +++ ": "
      +++ "unsupported operand type(s) for &: 'NoneType' and 'int'" in
  ((forall entry, In entry entries -> ends_csv entry = true ->
                  st_mode entry <> None) ->
   fst parallel = Ok names /\ fst sequential = Ok names /\
   logging (snd parallel) = logging w /\ stdout (snd sequential) = stdout w) /\
  ((exists entry, In entry entries /\ ends_csv entry = true /\
                  st_mode entry = None) ->
   fst parallel = Ok [] /\ fst sequential = Ok [] /\
   logging (snd parallel) = logging w ++ [(lit "ERROR", message)] /\
   stdout (snd sequential) = stdout w ++ [message]) /\
  (forall entry mode,
     In entry entries -> st_mode entry = Some mode ->
     stat_S_ISDIR mode = true ->
     ~ In entry
         (filter (fun entry => ends_csv entry && not_directory entry)
            entries)) /\
  (forall entry mode,
     In entry entries -> st_mode entry = Some mode ->
     Z.land mode 61440 = 32768%Z ->
     (exists stem, attr_filename entry = stem ++ lit ".csv") ->
     In (attr_filename entry) names).
Proof.
  intros Hl parallel sequential names message.
  assert (Hp : parallel
               = try_except (of_res (csv_names entries))
                   (fun e =>
                      logging_error
                        ("Error accessing directory " +++ directory +++ ": "
                           +++ exn_str e) ;;; ret [])
                   (emit (EvListdir directory true) w)).
  { unfold parallel, ParallelFetcher.list_csv_files.
    rewrite !try_except_run, bind_run. unfold sftp_listdir_attr.
    rewrite Hl. reflexivity. }
  assert (Hs : sequential
               = try_except (of_res (csv_names entries))
                   (fun e =>
                      print
                        ("Error accessing directory " +++ directory +++ ": "
                           +++ exn_str e) ;;; ret [])
                   (emit (EvListdir directory true) w)).
  { unfold sequential, SequentialFetcher.list_csv_files.
    rewrite !try_except_run, bind_run. unfold sftp_listdir_attr.
    rewrite Hl. reflexivity. }
  rewrite Hp, Hs. clear Hp Hs.
  split; [| split; [| split]].
  - intros Hknown. rewrite !try_except_run. unfold of_res.
    rewrite (csv_names_known entries Hknown). repeat split; reflexivity.
  - intros Hnone. rewrite !try_except_run. unfold of_res.
    rewrite (csv_names_unknown entries Hnone). repeat split; reflexivity.
  - intros entry mode Hin Hm Hdir Hf. apply filter_In in Hf.
    destruct Hf as [_ Hf]. apply andb_true_iff in Hf.
    destruct Hf as [_ Hf]. unfold not_directory, int_truthy in Hf.
    rewrite Hm, (directory_bit_of_directory _ Hdir) in Hf. discriminate.
  - intros entry mode Hin Hm Hreg Hext. unfold names. apply in_map.
    apply filter_In. split; [exact Hin |].
    unfold not_directory, int_truthy.
    rewrite Hm, (directory_bit_of_regular_file _ Hreg).
    apply andb_true_iff. split; [| reflexivity].
    unfold ends_csv. now apply endswith_iff.
Qed.

Lemma list_csv_files_selection_witness :
  fst (ParallelFetcher.list_csv_files (example_env [] (Ok tt)) "/data"
         example_world)
  = Ok [lit "target_report.csv"; lit "other_report.csv"] /\
  fst (SequentialFetcher.list_csv_files no_mode_env "/data" example_world)
  = Ok [].
Proof.
  split.
  - apply (list_csv_files_selection (example_env [] (Ok tt)) "/data"
             example_world
             [mkAttr "target_report.csv" (Some 33188%Z);
              mkAttr "other_report.csv" (Some 33188%Z);
              mkAttr "locked" (Some 16877%Z); mkAttr "archive" (Some 16877%Z)]
             eq_refl).
    intros entry [<- | [<- | [<- | [<- | []]]]] _; discriminate.
  - apply (list_csv_files_selection no_mode_env "/data" example_world
             [mkAttr "a.csv" (Some 33188%Z); mkAttr "b.csv" None] eq_refl).
    exists (mkAttr "b.csv" None). split; [right; now left |].
    split; reflexivity.
Defined.

(** ** What the summary counts *)

Lemma count_lines_totals (records : list str) (c : Counts) :
  fold_left count_line records c
  = mkCounts (total_files c + List.length records)
      (valid_files c + count_containing "valid" records)
      (invalid_files c).
Proof.
  revert c. induction records as [|line records IH]; intros c.
  - simpl. unfold count_containing. simpl. rewrite !Nat.add_0_r.
    now destruct c.
  - cbn [fold_left]. rewrite IH. unfold count_containing. cbn [filter].
    pose proof (count_line_invalid c line) as Hinv.
    unfold count_line in *.
    destruct (contains "valid" line) eqn:Hv; cbn [total_files valid_files
      invalid_files List.length] in *.
    + f_equal; lia.
    + destruct (contains "invalid" line); cbn [total_files valid_files
        invalid_files] in *; f_equal; lia.
Qed.

(** X7: [generate_summary_report] raises [StopIteration] on an empty log
    file, without printing.  Otherwise the first line is skipped whatever
    it holds, Total Files is the number of lines after it, Valid Files is
    the number of those lines that hold the text [valid] anywhere, and
    Invalid Files is 0; the text is printed and returned. *)
Theorem summary_report_counts (w : World) :
  match file_lines (log_file w) [] with
  | [] => generate_summary_report w = (Raise StopIteration, w)
  | _ :: records =>
      let summary :=
        summary_text
          (mkCounts (List.length records)
             (count_containing "valid" records) 0) in
      fst (generate_summary_report w) = Ok summary /\
      stdout (snd (generate_summary_report w)) = stdout w ++ [summary] /\
      log_file (snd (generate_summary_report w)) = log_file w
  end.
Proof.
  unfold generate_summary_report, summary_counts.
  destruct (file_lines (log_file w) []) as [|header records].
  - reflexivity.
  - rewrite count_lines_totals. cbn [total_files valid_files invalid_files].
    rewrite !Nat.add_0_l. repeat split; reflexivity.
Qed.

(** ** Records and lines *)

Lemma hex_digit_printable (n : N) : (n < 16)%N -> printable (hex_digit n).
Proof.
  unfold hex_digit, printable. intros H.
  destruct (n <? 10)%N eqn:E; [apply N.ltb_lt in E | apply N.ltb_ge in E]; lia.
Qed.

Lemma u_escape_printable (c : N) : Forall printable (u_escape c).
Proof.
  unfold u_escape.
  repeat (constructor;
          [first [unfold printable; lia
                 | apply hex_digit_printable; apply N.mod_lt; discriminate] |]).
  constructor.
Qed.

Lemma json_escape_char_printable (c : N) :
  Forall printable (json_escape_char c).
Proof.
  assert (Hshort : forall a b, printable a -> printable b ->
                     Forall printable [a; b]).
  { intros a b Ha Hb. constructor; [exact Ha |]. constructor; [exact Hb |].
    constructor. }
  unfold json_escape_char.
  destruct (c =? 34)%N; [apply Hshort; unfold printable; lia |].
  destruct (c =? 92)%N; [apply Hshort; unfold printable; lia |].
  destruct (c =? 10)%N; [apply Hshort; unfold printable; lia |].
  destruct (c =? 13)%N; [apply Hshort; unfold printable; lia |].
  destruct (c =? 9)%N; [apply Hshort; unfold printable; lia |].
  destruct (c =? 12)%N; [apply Hshort; unfold printable; lia |].
  destruct (c =? 8)%N; [apply Hshort; unfold printable; lia |].
  destruct ((32 <=? c) && (c <=? 126))%N eqn:E.
  - apply andb_true_iff in E. destruct E as [H1 H2].
    apply N.leb_le in H1, H2.
    constructor; [unfold printable; lia | constructor].
  - destruct (c <? 65536)%N; [apply u_escape_printable |].
    apply Forall_app. split; apply u_escape_printable.
Qed.

Lemma json_dumps_str_printable (s : str) : Forall printable (json_dumps_str s).
Proof.
  unfold json_dumps_str, str_cat, DQUOTE.
  apply Forall_app. split; [repeat (constructor; [unfold printable; lia |]); constructor |].
  apply Forall_app. split; [| repeat (constructor; [unfold printable; lia |]); constructor].
  induction s as [|c s IH]; simpl; [constructor |].
  apply Forall_app. split; [apply json_escape_char_printable | exact IH].
Qed.

Lemma join_with_printable (sep : str) (items : list str) :
  Forall printable sep -> Forall (Forall printable) items ->
  Forall printable (join_with sep items).
Proof.
  intros Hsep Hitems. induction Hitems as [|x rest Hx Hrest IH]; simpl.
  - constructor.
  - destruct rest as [|y rest]; [exact Hx |].
    unfold str_cat. apply Forall_app. split; [exact Hx |].
    apply Forall_app. split; [exact Hsep | exact IH].
Qed.

Lemma printable_decided (s : str) :
  forallb (fun c => (32 <=? c) && (c <=? 126))%N s = true ->
  Forall printable s.
Proof.
  rewrite forallb_forall. intros H. apply Forall_forall. intros c Hin.
  specialize (H c Hin). apply andb_true_iff in H. destruct H as [H1 H2].
  apply N.leb_le in H1, H2. unfold printable. lia.
Qed.

(** [json.dumps] writes printable ASCII only. *)
Lemma json_dumps_printable (items : list str) :
  Forall printable (json_dumps items).
Proof.
  unfold json_dumps, str_cat.
  apply Forall_app. split; [now apply printable_decided |].
  apply Forall_app. split; [| now apply printable_decided].
  apply join_with_printable.
  - now apply printable_decided.
  - apply Forall_map. apply Forall_forall. intros s _.
    apply json_dumps_str_printable.
Qed.

Lemma printable_no_line_end (s : str) :
  Forall printable s -> forallb no_line_end s = true.
Proof.
  intros H. apply forallb_forall. intros c Hin.
  rewrite Forall_forall in H. specialize (H c Hin). unfold printable in H.
  unfold no_line_end. apply andb_true_iff.
  split; apply negb_true_iff; apply N.eqb_neq; lia.
Qed.

Lemma free_of_no_line_end (s : str) :
  free_of 10 s = true -> free_of 13 s = true ->
  forallb no_line_end s = true.
Proof.
  unfold free_of. rewrite !forallb_forall. intros H1 H2 c Hin.
  unfold no_line_end. now rewrite (H1 c Hin), (H2 c Hin).
Qed.

Lemma file_lines_not_empty (content cur : str) :
  content <> [] \/ cur <> [] -> file_lines content cur <> [].
Proof.
  revert cur. induction content as [|c content IH]; intros cur H.
  - destruct H as [H | H]; [congruence |].
    simpl. destruct cur; [congruence | discriminate].
  - simpl. destruct (N.eqb c 10); [discriminate |].
    destruct (N.eqb c 13).
    + destruct content as [|c2 content2]; [discriminate |].
      destruct (N.eqb c2 10); discriminate.
    + apply IH. right. destruct cur; discriminate.
Qed.

(** X8: the record [process_file] writes for a file that was validated
    is read back as exactly one line, whatever the lists hold, as long as
    the file name has no line end in it: [json.dumps] escapes line ends.
    What follows the record in the file starts a new line. *)
Theorem success_record_is_one_line (filename : str)
  (errors warnings info : list str) (after : str) :
  free_of 10 filename = true -> free_of 13 filename = true ->
  let line := log_line_of filename (validation_state errors) errors warnings
                info in
  file_lines (line ++ after) [] = line :: file_lines after [].
Proof.
  intros H10 H13 line. unfold line, log_line_of, str_cat.
  repeat rewrite app_assoc.
  rewrite <- (app_assoc _ NL after).
  rewrite file_lines_first_line; [reflexivity |].
  match goal with |- forallb _ ?l = true =>
    change (forallb no_line_end l = true) end.
  repeat rewrite forallb_app.
  rewrite (free_of_no_line_end filename H10 H13).
  rewrite !(printable_no_line_end _ (json_dumps_printable _)).
  unfold validation_state. destruct (truthy errors); reflexivity.
Qed.

Lemma success_record_is_one_line_witness :
  file_lines
    (log_line_of "a.csv" (validation_state [lit "x"]) [lit "x"] [] []
       ++ lit "b.csv,error,boom,,") []
  = log_line_of "a.csv" (validation_state [lit "x"]) [lit "x"] [] []
      :: file_lines (lit "b.csv,error,boom,,") [].
Proof.
  exact (success_record_is_one_line "a.csv" [lit "x"] [] []
           (lit "b.csv,error,boom,,") eq_refl eq_refl).
Defined.



(** ** The outcomes of one task *)

Lemma failed_attempt (env : Env) (remote_path local_path : str)
  (max_retries : Z) (attempt : nat) (rest : list nat) (w : World) (e : exn) :
  get_result env (calls_get w) remote_path local_path = Raise e ->
  exists w1,
    safe_sftp_attempts world_print (sftp_get env remote_path local_path)
      max_retries (attempt :: rest) w
    = (if (Z.of_nat attempt =? max_retries - 1)%Z
       then (Raise e, w1)
       else safe_sftp_attempts world_print
              (sftp_get env remote_path local_path) max_retries rest w1) /\
    calls_get w1 = Datatypes.S (calls_get w) /\
    trace w1 = trace w ++ [EvGet remote_path local_path false] /\
    stdout w1 = stdout w ++ [attempt_failed attempt e] /\
    sink w1 = sink w.
Proof.
  intros H. rewrite safe_sftp_attempts_cons. unfold sftp_get at 1.
  rewrite H. eexists. split; [reflexivity |]. repeat split.
Qed.

Lemma handler_run (env : Env) (filename : str) (e : exn) (w1 : World) :
  log_open_result env (calls_log w1) = Ok tt ->
  exists w2,
    (log_append env (error_line_of filename (exn_str e)) ;;;
     print ("Error processing file " +++ filename +++ ": "
              +++ exn_traceback e)) w1 = (Ok tt, w2) /\
    trace w2
    = trace w1 ++ [EvLogAppend (error_line_of filename (exn_str e)) true] /\
    stdout w2
    = stdout w1 ++ ["Error processing file " +++ filename +++ ": "
                      +++ exn_traceback e] /\
    log_file w2 = log_file w1 +++ error_line_of filename (exn_str e) /\
    db w2 = db w1.
Proof.
  intros H. rewrite bind_run. unfold log_append at 1. rewrite H.
  eexists. split; [reflexivity |]. repeat split.
Qed.

(** X10: a download that fails three times in a row is not tried a fourth
    time.  Each failure is printed with its attempt number, the file is
    neither read nor validated, the log receives one error record with the
    text of the third failure, the table receives nothing, and the task
    returns. *)
Theorem process_file_fetch_exhausted {A B : Type} (schema_dict : A)
  (dialect : B) (env : Env) (LOCAL_DIRECTORY : str) (file_info : FileInfo)
  (w : World) (e1 e2 e3 : exn) :
  let filename := fi_filename file_info in
  let remote_path := fi_path file_info in
  let local_path := os_path_join LOCAL_DIRECTORY filename in
  get_result env (calls_get w) remote_path local_path = Raise e1 ->
  get_result env (S (calls_get w)) remote_path local_path = Raise e2 ->
  get_result env (S (S (calls_get w))) remote_path local_path = Raise e3 ->
  log_open_result env (calls_log w) = Ok tt ->
  let out := process_file env LOCAL_DIRECTORY file_info schema_dict dialect
               w in
  fst out = Ok tt /\
  trace (snd out)
  = trace w ++ [EvGet remote_path local_path false;
                EvGet remote_path local_path false;
                EvGet remote_path local_path false;
                EvLogAppend (error_line_of filename (exn_str e3)) true] /\
  stdout (snd out)
  = stdout w ++ [attempt_failed 0 e1; attempt_failed 1 e2;
                 attempt_failed 2 e3;
                 "Error processing file " +++ filename +++ ": "
                   +++ exn_traceback e3] /\
  log_file (snd out) = log_file w +++ error_line_of filename (exn_str e3) /\
  db (snd out) = db w.
Proof.
  intros filename remote_path local_path H1 H2 H3 Hlog out.
  unfold out, process_file.
  change (fi_filename file_info) with filename.
  change (fi_path file_info) with remote_path.
  change (os_path_join LOCAL_DIRECTORY filename) with local_path.
  clearbody filename remote_path local_path.
  rewrite try_except_run, bind_run. unfold safe_sftp_operation.
  change (seq 0 (Z.to_nat 3)) with [0; 1; 2].
  destruct (failed_attempt env remote_path local_path 3 0 [1; 2] w e1 H1)
    as [w1 [-> [G1 [T1 [O1 S1]]]]].
  change (Z.of_nat 0 =? 3 - 1)%Z with false. cbv iota.
  rewrite <- G1 in H2.
  destruct (failed_attempt env remote_path local_path 3 1 [2] w1 e2 H2)
    as [w2 [-> [G2 [T2 [O2 S2]]]]].
  change (Z.of_nat 1 =? 3 - 1)%Z with false. cbv iota.
  rewrite <- G1, <- G2 in H3.
  destruct (failed_attempt env remote_path local_path 3 2 [] w2 e3 H3)
    as [w3 [-> [G3 [T3 [O3 S3]]]]].
  change (Z.of_nat 2 =? 3 - 1)%Z with true. cbv beta iota.
  unfold sink in S1, S2, S3.
  injection S1 as R1 L1 D1 F1 B1. injection S2 as R2 L2 D2 F2 B2.
  injection S3 as R3 L3 D3 F3 B3.
  assert (Hlog3 : log_open_result env (calls_log w3) = Ok tt)
    by congruence.
  destruct (handler_run env filename e3 w3 Hlog3)
    as [w4 [-> [T4 [O4 [F4 B4]]]]].
  cbn [fst snd]. split; [reflexivity |].
  split; [rewrite T4, T3, T2, T1, <- !app_assoc; reflexivity |].
  split; [rewrite O4, O3, O2, O1, <- !app_assoc; reflexivity |].
  split; congruence.
Qed.

Lemma process_file_fetch_exhausted_witness :
  log_file (snd (process_file failing_get_env "downloads" example_file tt tt
                   example_world))
  = log_file example_world
      +++ error_line_of "target_report.csv" "Connection reset by peer".
Proof.
  exact (proj1 (proj2 (proj2 (proj2
           (process_file_fetch_exhausted tt tt failing_get_env "downloads"
              example_file example_world connection_reset connection_reset
              connection_reset eq_refl eq_refl eq_refl eq_refl))))).
Defined.

Lemma next_row_id_fresh (rows : list Row) (r : Row) :
  In r rows -> (row_id r < next_row_id rows)%Z.
Proof.
  unfold next_row_id. induction rows as [|r0 rows IH]; [contradiction |].
  intros [-> | Hin]; cbn [map fold_right].
  - pose proof (Z.le_max_l (row_id r)
                  (fold_right Z.max 0%Z (map row_id rows))). lia.
  - specialize (IH Hin).
    pose proof (Z.le_max_r (row_id r0)
                  (fold_right Z.max 0%Z (map row_id rows))). lia.
Qed.

(** X11: for a file that is fetched and read, with the log and the
    database accepting the writes, [process_file] adds one record to the
    log and one row to the table, after the rows it held; the row has the
    file name and the state of the record, the three lists as [json.dumps]
    prints them, and an id above every id in the table. *)
Theorem process_file_success_row {A B : Type} (schema_dict : A) (dialect : B)
  (env : Env) (LOCAL_DIRECTORY : str) (file_info : FileInfo) (w : World)
  (content : str) (rows : list Row) :
  let filename := fi_filename file_info in
  is_ok (fst (fetch_step env LOCAL_DIRECTORY file_info w)) = true ->
  read_result env (calls_read w) (os_path_join LOCAL_DIRECTORY filename)
  = Ok content ->
  log_open_result env (calls_log w) = Ok tt ->
  db_insert_result env (calls_db w) = Ok tt ->
  db w = Some rows ->
  let w' := snd (process_file env LOCAL_DIRECTORY file_info schema_dict
                   dialect w) in
  let errors := fst (fst (validate_csv content schema_dict dialect)) in
  let warnings := snd (fst (validate_csv content schema_dict dialect)) in
  let info := snd (validate_csv content schema_dict dialect) in
  let state := validation_state errors in
  log_file w'
  = log_file w +++ log_line_of filename state errors warnings info /\
  exists row,
    db w' = Some (rows ++ [row]) /\
    row_filename row = filename /\ row_state row = state /\
    row_errors row = json_dumps errors /\
    row_warnings row = json_dumps warnings /\
    row_info row = json_dumps info /\
    forall r, In r rows -> (row_id r < row_id row)%Z.
Proof.
  intros filename Hfetch Hread Hlog Hins Hdb.
  destruct (process_file_fetched schema_dict dialect env LOCAL_DIRECTORY
              file_info w content rows Hfetch Hread Hlog) as [_ H].
  destruct (H Hins Hdb) as [H1 H2]. cbv zeta. split; [exact H1 |].
  eexists. split; [exact H2 |]. cbn.
  repeat split. intros r Hin. now apply next_row_id_fresh.
Qed.

Lemma process_file_success_row_witness :
  exists row,
    db (snd (process_file (example_env "a,b" (Ok tt)) "downloads"
               example_file tt tt example_world))
    = Some ([example_row] ++ [row]) /\
    row_filename row = lit "target_report.csv" /\
    row_state row = lit "valid".
Proof.
  destruct (process_file_success_row tt tt (example_env "a,b" (Ok tt))
              "downloads" example_file example_world "a,b" [example_row]
              eq_refl eq_refl eq_refl eq_refl eq_refl)
    as [_ [row [H1 [H2 [H3 _]]]]].
  exists row. repeat split; assumption.
Defined.

(** X12: when the download succeeds and the local file cannot be read,
    nothing is validated: the log receives one error record with the text
    of the read failure and the table receives nothing. *)
Theorem process_file_unreadable {A B : Type} (schema_dict : A) (dialect : B)
  (env : Env) (LOCAL_DIRECTORY : str) (file_info : FileInfo) (w : World)
  (e : exn) :
  let filename := fi_filename file_info in
  is_ok (fst (fetch_step env LOCAL_DIRECTORY file_info w)) = true ->
  read_result env (calls_read w) (os_path_join LOCAL_DIRECTORY filename)
  = Raise e ->
  log_open_result env (calls_log w) = Ok tt ->
  let w' := snd (process_file env LOCAL_DIRECTORY file_info schema_dict
                   dialect w) in
  log_file w' = log_file w +++ error_line_of filename (exn_str e) /\
  db w' = db w.
Proof.
  intros filename Hfetch Hread Hlog.
  exact (process_file_read_failed schema_dict dialect env LOCAL_DIRECTORY
           file_info w e Hfetch Hread Hlog).
Qed.

Lemma process_file_unreadable_witness :
  log_file (snd (process_file unreadable_env "downloads" example_file tt tt
                   example_world))
  = log_file example_world
      +++ error_line_of "target_report.csv" "invalid start byte".
Proof.
  exact (proj1 (process_file_unreadable tt tt unreadable_env "downloads"
                  example_file example_world not_utf8 eq_refl eq_refl
                  eq_refl)).
Defined.

(** ** The table *)

(** X13: [initialize_database] creates the table when there is none and
    changes nothing when there is one, so running it again changes
    nothing.  Without it an insertion fails for want of the table, even
    when the database is ready; after it an insertion the database accepts
    adds one row at the end, and what is in the table stays. *)
Theorem database_initialize_then_insert (env : Env) (filename state : str)
  (errors warnings info : list str) (w : World) :
  let w1 := snd (initialize_database w) in
  db w1 = Some (match db w with Some rows => rows | None => [] end) /\
  snd (initialize_database w1) = w1 /\
  (db w = None -> db_insert_result env (calls_db w) = Ok tt ->
   fst (save_to_database env filename state errors warnings info w)
   = Raise no_such_table /\
   db (snd (save_to_database env filename state errors warnings info w))
   = None) /\
  (db_insert_result env (calls_db w) = Ok tt ->
   fst (save_to_database env filename state errors warnings info w1) = Ok tt /\
   exists rows row,
     db w1 = Some rows /\
     db (snd (save_to_database env filename state errors warnings info w1))
     = Some (rows ++ [row]) /\
     row_filename row = filename /\ row_state row = state).
Proof.
  cbv zeta. split; [| split; [| split]].
  - simpl. destruct (db w); reflexivity.
  - unfold initialize_database. simpl. destruct (db w); reflexivity.
  - intros Hnone Hins. unfold save_to_database. rewrite Hins, Hnone.
    split; reflexivity.
  - intros Hins. unfold save_to_database.
    change (calls_db (snd (initialize_database w))) with (calls_db w).
    rewrite Hins.
    change (db (snd (initialize_database w)))
      with (match db w with None => Some [] | Some rows => Some rows end).
    destruct (db w) as [rows |]; (split; [reflexivity |]);
      do 2 eexists; repeat split.
Qed.

Lemma database_initialize_then_insert_witness :
  fst (save_to_database (example_env [] (Ok tt)) "a.csv" "valid" [] [] []
         (mkWorld 0 0 0 0 0 [] [] None [] []))
  = Raise no_such_table /\
  fst (save_to_database (example_env [] (Ok tt)) "a.csv" "valid" [] [] []
         (snd (initialize_database (mkWorld 0 0 0 0 0 [] [] None [] []))))
  = Ok tt.
Proof.
  pose proof (database_initialize_then_insert (example_env [] (Ok tt))
                "a.csv" "valid" [] [] []
                (mkWorld 0 0 0 0 0 [] [] None [] [])) as H.
  cbv zeta in H. destruct H as [_ [_ [H1 H2]]]. split.
  - exact (proj1 (H1 eq_refl eq_refl)).
  - exact (proj1 (H2 eq_refl)).
Defined.

(** ** Batch numbers *)

Lemma range_step_below (stop step i : nat) :
  0 < step -> In i (range_step stop step) ->
  i < stop /\ i / step * step = i.
Proof.
  intros Hstep Hin. unfold range_step in Hin. apply in_map_iff in Hin.
  destruct Hin as [k [<- Hk]]. apply in_seq in Hk.
  pose proof (Nat.div_mod_eq (stop + step - 1) step) as Hdm.
  pose proof (Nat.mod_upper_bound (stop + step - 1) step ltac:(lia)) as Hm.
  split.
  - assert (S k * step <= (stop + step - 1) / step * step)
      by (apply Nat.mul_le_mono_r; lia).
    simpl in *. lia.
  - rewrite Nat.div_mul; [reflexivity | lia].
Qed.

(** X14: the batches both scripts announce are numbered 1, 2, 3, ... in
    order, none is empty and none has more than 50 files; with no file
    there is no batch at all. *)
Theorem batches_numbered_and_filled {A} (files : list A) :
  let batches := batches_of BATCH_SIZE files in
  map (fun ib => fst ib / BATCH_SIZE + 1) batches
  = seq 1 (List.length batches) /\
  Forall (fun ib => 1 <= List.length (snd ib) <= BATCH_SIZE) batches /\
  (batches = [] <-> files = []).
Proof.
  intros batches. split; [| split].
  - unfold batches, batches_of, range_step, BATCH_SIZE.
    rewrite !map_map, !length_map, length_seq. cbn [fst].
    generalize ((List.length files + 50 - 1) / 50). intros k.
    rewrite <- (map_ext (fun j => S j)).
    + now rewrite seq_shift.
    + intros j. rewrite Nat.div_mul; [lia | discriminate].
  - unfold batches, batches_of. apply Forall_map. apply Forall_forall.
    intros i Hin. cbn [snd]. rewrite slice_length.
    assert (Hpos : 0 < BATCH_SIZE) by (unfold BATCH_SIZE; lia).
    destruct (range_step_below _ _ _ Hpos Hin) as [Hlt _].
    unfold BATCH_SIZE. lia.
  - unfold batches. split.
    + intros H. pose proof (batches_concat files) as Hc.
      rewrite H in Hc. simpl in Hc. congruence.
    + intros ->. reflexivity.
Qed.

(** ** A listed name that starts with a slash *)

Lemma join_absolute (directory name : str) :
  startswith name "/" = true -> os_path_join directory name = name.
Proof. intros H. unfold os_path_join. now rewrite H. Qed.

(** X17: in the two fetch-and-delete scripts the listed name is joined
    to the directories as it comes.  For a name that starts with [/] both
    joins give the name itself: the task downloads from that path and
    writes the local file at that path, outside [LOCAL_DIRECTORY]. *)
Theorem listed_absolute_name_escapes (env : Env)
  (REMOTE_DIRECTORY LOCAL_DIRECTORY filename : str) (w : World) :
  startswith filename "/" = true ->
  (exists ok rest,
     trace (snd (ParallelFetcher.fetch_and_delete_file env LOCAL_DIRECTORY
                   REMOTE_DIRECTORY filename w))
     = trace w ++ EvGet filename filename ok :: rest) /\
  (exists ok rest,
     trace (snd (SequentialFetcher.fetch_and_delete_one env REMOTE_DIRECTORY
                   LOCAL_DIRECTORY filename w))
     = trace w ++ EvGet filename filename ok :: rest).
Proof.
  intros H. split.
  - pose proof (parallel_task_trace env LOCAL_DIRECTORY REMOTE_DIRECTORY
                  filename w) as T.
    cbv zeta in T. rewrite !(join_absolute _ _ H) in T.
    destruct (get_result env (calls_get w) filename filename).
    + destruct T as [ok T]. now exists true, [EvRemove filename ok].
    + now exists false, [].
  - pose proof (sequential_task_trace env REMOTE_DIRECTORY LOCAL_DIRECTORY
                  filename w) as T.
    cbv zeta in T. rewrite !(join_absolute _ _ H) in T.
    destruct (get_result env (calls_get w) filename filename).
    + destruct T as [ok T]. now exists true, [EvRemove filename ok].
    + now exists false, [].
Qed.

Lemma listed_absolute_name_escapes_witness :
  exists ok rest,
    trace (snd (ParallelFetcher.fetch_and_delete_file
                  (example_env [] (Ok tt)) "downloads" "/data"
                  "/etc/cron.d/job.csv" example_world))
    = trace example_world
        ++ EvGet "/etc/cron.d/job.csv" "/etc/cron.d/job.csv" ok :: rest.
Proof.
  exact (proj1 (listed_absolute_name_escapes (example_env [] (Ok tt))
                  "/data" "downloads" "/etc/cron.d/job.csv" example_world
                  eq_refl)).
Defined.

(** ** A task on its own does what the function does *)

Section Alone.
Variable env : Env.

Lemma run_alone_tbind {A B} (p : Pool.Task A) (k : A -> Pool.Task B)
  (w : World) :
  Pool.run_alone env (Pool.tbind p k) w
  = bind (Pool.run_alone env p) (fun a => Pool.run_alone env (k a)) w.
Proof.
  revert w. induction p as [[a | e] | a f IH | path f IH | p IH | p IH];
    intros w; cbn [Pool.tbind Pool.run_alone]; rewrite bind_run.
  - reflexivity.
  - reflexivity.
  - destruct (Pool.perform env a w) as [r w1]. rewrite IH. apply bind_run.
  - destruct (read_text env path w) as [r w1]. rewrite IH. apply bind_run.
  - rewrite IH. apply bind_run.
  - rewrite IH. apply bind_run.
Qed.

Lemma run_alone_ttry {A} (p : Pool.Task A) (handler : exn -> Pool.Task A)
  (w : World) :
  Pool.run_alone env (Pool.ttry p handler) w
  = try_except (Pool.run_alone env p)
      (fun e => Pool.run_alone env (handler e)) w.
Proof.
  revert w. induction p as [[a | e] | a f IH | path f IH | p IH | p IH];
    intros w; cbn [Pool.ttry Pool.run_alone]; rewrite try_except_run.
  - reflexivity.
  - reflexivity.
  - destruct (Pool.perform env a w) as [r w1]. rewrite IH.
    apply try_except_run.
  - destruct (read_text env path w) as [r w1]. rewrite IH.
    apply try_except_run.
  - rewrite IH. apply try_except_run.
  - rewrite IH. apply try_except_run.
Qed.

Lemma run_alone_then_release {A} (p : Pool.Task A) (w : World) :
  Pool.run_alone env (Pool.then_release p) w = Pool.run_alone env p w.
Proof.
  revert w. induction p as [r | a f IH | path f IH | p IH | p IH];
    intros w; cbn [Pool.then_release Pool.run_alone].
  - reflexivity.
  - destruct (Pool.perform env a w) as [r w1]. apply IH.
  - destruct (read_text env path w) as [r w1]. apply IH.
  - apply IH.
  - apply IH.
Qed.

Lemma run_alone_call (a : Pool.Action) (w : World) :
  Pool.run_alone env (Pool.call a) w = Pool.perform env a w.
Proof.
  unfold Pool.call. cbn [Pool.run_alone].
  now destruct (Pool.perform env a w).
Qed.

Lemma run_alone_read (path : str) (w : World) :
  Pool.run_alone env (Pool.read path) w = read_text env path w.
Proof.
  unfold Pool.read. cbn [Pool.run_alone].
  now destruct (read_text env path w).
Qed.

Lemma run_alone_write_chars (text : str) (w : World) :
  Pool.run_alone env (Pool.write_chars text) w
  = (Ok tt,
     mkWorld (calls_get w) (calls_remove w) (calls_read w) (calls_log w)
       (calls_db w) (trace w) (log_file w ++ text) (db w) (stdout w)
       (logging w)).
Proof.
  revert w. induction text as [|c text IH]; intros w.
  - cbn. rewrite app_nil_r. now destruct w.
  - cbn [Pool.write_chars]. rewrite run_alone_tbind, bind_run, run_alone_call.
    cbn [Pool.perform log_put]. rewrite IH.
    cbn [calls_get calls_remove calls_read calls_log calls_db trace log_file
         db stdout logging].
    now rewrite <- app_assoc.
Qed.

(** Taking the lock, opening the file, writing the characters and giving
    the lock back is, for a task on its own, the append in one go. *)
Lemma run_alone_append_record (text : str) (w : World) :
  Pool.run_alone env (Pool.append_record text) w = log_append env text w.
Proof.
  unfold Pool.append_record, Pool.with_lock. cbn [Pool.run_alone].
  rewrite run_alone_then_release, run_alone_tbind, bind_run, run_alone_call.
  cbn [Pool.perform]. unfold log_open_append, log_append. cbv zeta.
  destruct (log_open_result env (calls_log w)) as [[] | e]; [| reflexivity].
  rewrite run_alone_write_chars. reflexivity.
Qed.

Lemma run_alone_safe_sftp_attempts {A} (func : Pool.Task A) (max_retries : Z)
  (attempts : list nat) (w : World) :
  Pool.run_alone env (Pool.safe_sftp_attempts func max_retries attempts) w
  = safe_sftp_attempts world_print (Pool.run_alone env func) max_retries
      attempts w.
Proof.
  revert w. induction attempts as [|attempt rest IH]; intros w.
  - reflexivity.
  - cbn [Pool.safe_sftp_attempts]. rewrite safe_sftp_attempts_cons.
    rewrite run_alone_ttry, try_except_run, run_alone_tbind, bind_run.
    destruct (Pool.run_alone env func w) as [[a | e] w1].
    + reflexivity.
    + rewrite run_alone_tbind, bind_run, run_alone_call.
      cbn [Pool.perform]. unfold world_print.
      destruct (print (attempt_failed attempt e) w1) as [[[] | e1] w2] eqn:Hp;
        [| discriminate].
      cbn [snd].
      destruct (Z.of_nat attempt =? max_retries - 1)%Z;
        [reflexivity | apply IH].
Qed.

Lemma run_alone_process_file {S D} (LOCAL_DIRECTORY : str)
  (file_info : FileInfo) (schema_dict : S) (dialect : D) (w : World) :
  Pool.run_alone env
    (Pool.process_file LOCAL_DIRECTORY file_info schema_dict dialect) w
  = process_file env LOCAL_DIRECTORY file_info schema_dict dialect w.
Proof.
  unfold Pool.process_file, process_file. cbv zeta.
  rewrite run_alone_ttry, !try_except_run.
  rewrite run_alone_tbind, !bind_run.
  unfold Pool.safe_sftp_operation, safe_sftp_operation.
  rewrite run_alone_safe_sftp_attempts.
  assert (Hget : forall remote_path local_path attempts w0,
            safe_sftp_attempts world_print
              (Pool.run_alone env
                 (Pool.call (Pool.AGet remote_path local_path)))
              3 attempts w0
            = safe_sftp_attempts world_print
                (sftp_get env remote_path local_path) 3 attempts w0).
  { intros remote_path local_path attempts.
    induction attempts as [|attempt rest IH]; intros w0; [reflexivity |].
    rewrite !safe_sftp_attempts_cons, run_alone_call. cbn [Pool.perform].
    destruct (sftp_get env remote_path local_path w0) as [[a | e] w1];
      [reflexivity |].
    destruct (Z.of_nat attempt =? 3 - 1)%Z; [reflexivity | apply IH]. }
  rewrite Hget.
  assert (Hhandler : forall e w0,
            Pool.run_alone env
              (Pool.tbind
                 (Pool.append_record
                    (error_line_of (fi_filename file_info) (exn_str e)))
                 (fun _ =>
                    Pool.call
                      (Pool.APrint
                         ("Error processing file " +++ fi_filename file_info
                            +++ ": " +++ exn_traceback e)))) w0
            = (log_append env
                 (error_line_of (fi_filename file_info) (exn_str e)) ;;;
               print ("Error processing file " +++ fi_filename file_info
                        +++ ": " +++ exn_traceback e)) w0).
  { intros e w0. rewrite run_alone_tbind, !bind_run, run_alone_append_record.
    destruct (log_append env _ w0) as [[[] | e1] w1]; [| reflexivity].
    apply run_alone_call. }
  destruct (safe_sftp_attempts world_print
              (sftp_get env (fi_path file_info)
                 (os_path_join LOCAL_DIRECTORY (fi_filename file_info)))
              3 (seq 0 (Z.to_nat 3)) w) as [[a | e] w1];
    [| apply Hhandler].
  rewrite run_alone_tbind, !bind_run, run_alone_read.
  destruct (read_text env _ w1) as [[csv_content | e] w2];
    [| apply Hhandler].
  destruct (validate_csv csv_content schema_dict dialect)
    as [[errors warnings] info].
  rewrite run_alone_tbind, !bind_run, run_alone_append_record.
  destruct (log_append env _ w2) as [[[] | e] w3]; [| apply Hhandler].
  rewrite run_alone_call. cbn [Pool.perform].
  destruct (save_to_database env _ _ _ _ _ w3) as [[[] | e] w4];
    [reflexivity | apply Hhandler].
Qed.

Lemma run_alone_fetch_and_delete_file (LOCAL_DIRECTORY remote_directory
  filename : str) (w : World) :
  Pool.run_alone env
    (Pool.fetch_and_delete_file LOCAL_DIRECTORY remote_directory filename) w
  = ParallelFetcher.fetch_and_delete_file env LOCAL_DIRECTORY
      remote_directory filename w.
Proof.
  unfold Pool.fetch_and_delete_file, ParallelFetcher.fetch_and_delete_file.
  cbv zeta. rewrite run_alone_ttry, !try_except_run.
  rewrite run_alone_tbind, !bind_run, run_alone_call. cbn [Pool.perform].
  destruct (sftp_get env _ _ w) as [[[] | e] w1]; [| apply run_alone_call].
  rewrite run_alone_tbind, !bind_run, run_alone_call. cbn [Pool.perform].
  change (logging_info ("Fetched: " +++ filename) w1)
    with (logging_log "INFO" ("Fetched: " +++ filename) w1).
  destruct (logging_log "INFO" ("Fetched: " +++ filename) w1)
    as [[[] | e] w2]; [| apply run_alone_call].
  rewrite run_alone_tbind, !bind_run, run_alone_call. cbn [Pool.perform].
  destruct (sftp_remove env _ w2) as [[[] | e] w3]; [| apply run_alone_call].
  rewrite run_alone_call. cbn [Pool.perform].
  change (logging_info ("Deleted: " +++ filename) w3)
    with (logging_log "INFO" ("Deleted: " +++ filename) w3).
  destruct (logging_log "INFO" ("Deleted: " +++ filename) w3)
    as [[[] | e] w4]; [reflexivity | apply run_alone_call].
Qed.

End Alone.

(** ** Threads, their lock and the log *)

Lemma nth_error_set_nth_same {X} (t : nat) (x y : X) (l : list X) :
  nth_error l t = Some y -> nth_error (Pool.set_nth t x l) t = Some x.
Proof.
  revert t. induction l as [|x0 l IH]; intros [|t] H; try discriminate.
  - reflexivity.
  - simpl in *. now apply IH.
Qed.

Lemma nth_error_set_nth_other {X} (t t' : nat) (x : X) (l : list X) :
  t <> t' -> nth_error (Pool.set_nth t x l) t' = nth_error l t'.
Proof.
  revert t t'. induction l as [|x0 l IH]; intros [|t] [|t'] H; simpl;
    try reflexivity; try congruence.
  apply IH. congruence.
Qed.

Lemma Forall2_nth_error_right {X Y} (R : X -> Y -> Prop) (l1 : list X)
  (l2 : list Y) (t : nat) (y : Y) :
  Forall2 R l1 l2 -> nth_error l2 t = Some y ->
  exists x, nth_error l1 t = Some x /\ R x y.
Proof.
  intros H. revert t. induction H as [|x0 y0 l1 l2 H0 _ IH]; intros [|t] Hy;
    try discriminate.
  - injection Hy as <-. now exists x0.
  - now apply IH.
Qed.

Lemma Forall2_set_nth {X Y} (R : X -> Y -> Prop) (l1 : list X) (l2 : list Y)
  (t : nat) (x : X) (y : Y) :
  Forall2 R l1 l2 -> R x y ->
  Forall2 R (Pool.set_nth t x l1) (Pool.set_nth t y l2).
Proof.
  intros H Hxy. revert t. induction H as [|x0 y0 l1 l2 H0 H IH]; intros t.
  - destruct t; constructor.
  - destruct t; simpl; constructor; auto.
Qed.

Lemma Forall2_set_nth_right {X Y} (R : X -> Y -> Prop) (l1 : list X)
  (l2 : list Y) (t : nat) (x : X) (y : Y) :
  Forall2 R l1 l2 -> nth_error l1 t = Some x -> R x y ->
  Forall2 R l1 (Pool.set_nth t y l2).
Proof.
  intros H. revert t. induction H as [|x0 y0 l1 l2 H0 H IH]; intros t Hx Hxy.
  - destruct t; discriminate.
  - destruct t; simpl in *.
    + injection Hx as ->. now constructor.
    + constructor; auto.
Qed.

Lemma nth_of_nth_error {X} (l : list X) (t : nat) (x d : X) :
  nth_error l t = Some x -> nth t l d = x.
Proof.
  revert t. induction l as [|x0 l IH]; intros [|t] H; try discriminate.
  - now injection H.
  - now apply IH.
Qed.

(** What one step does to the trace and to the log file. *)
Lemma perform_effect (env : Env) (a : Pool.Action) (w : World) :
  match a with
  | Pool.ALogOpen text =>
      let r := log_open_result env (calls_log w) in
      fst (Pool.perform env a w) = r /\
      trace (snd (Pool.perform env a w))
      = trace w ++ [EvLogAppend text (is_ok r)] /\
      log_file (snd (Pool.perform env a w)) = log_file w
  | Pool.ALogWrite c =>
      fst (Pool.perform env a w) = Ok tt /\
      trace (snd (Pool.perform env a w)) = trace w /\
      log_file (snd (Pool.perform env a w)) = log_file w ++ [c]
  | _ =>
      (exists evs,
         trace (snd (Pool.perform env a w)) = trace w ++ evs /\
         appended_records evs = []) /\
      log_file (snd (Pool.perform env a w)) = log_file w
  end.
Proof.
  destruct a; cbn [Pool.perform].
  - split; [exists [EvGet remote_path local_path
                     (is_ok (get_result env (calls_get w) remote_path
                               local_path))] |]; split; reflexivity.
  - split; [exists [EvRemove remote_path
                     (is_ok (remove_result env (calls_remove w)
                               remote_path))] |]; split; reflexivity.
  - split; [exists []; split; [now rewrite app_nil_r |] |]; reflexivity.
  - split; [exists []; split; [now rewrite app_nil_r |] |]; reflexivity.
  - repeat split; reflexivity.
  - repeat split; reflexivity.
  - unfold save_to_database.
    destruct (db_insert_result env (calls_db w)) as [[] | e];
      [destruct (db w) |];
      (split; [eexists; split; [reflexivity |] |]; reflexivity).
Qed.

Lemma last_record_snoc (records : list str) (text d : str) :
  last (records ++ [text]) d = text.
Proof.
  induction records as [|y l IH]; [reflexivity |].
  cbn [app]. destruct (l ++ [text]) eqn:E.
  - destruct l; discriminate.
  - exact IH.
Qed.

Lemma concat_records_snoc (records : list str) (text : str) :
  List.concat (records ++ [text]) = List.concat records ++ text.
Proof. rewrite concat_app. cbn. now rewrite app_nil_r. Qed.

Section LogInvariant.
Context {A : Type}.
Variable env : Env.
Variable w0 : World.

Local Abbreviation inv := (@log_invariant A w0).

Lemma step_keeps_log_invariant (t : nat) (s : Pool.State A) :
  inv s -> inv (Pool.step env t s).
Proof.
  intros Hinv. unfold Pool.step.
  destruct (nth_error (Pool.threads s) t) as [p |] eqn:Hp; [| exact Hinv].
  destruct Hinv as [modes [evs [HF [Hout [Hheld [Htrace [Hlog Hlast]]]]]]].
  destruct (Forall2_nth_error_right _ _ _ _ _ HF Hp) as [m [Hm Hd]].
  destruct p as [r | a k | path k | k | k].
  - (* the task has ended *)
    exists modes, evs. auto 10.
  - (* a call *)
    pose proof (perform_effect env a (Pool.world s)) as He.
    destruct (Pool.perform env a (Pool.world s)) as [r w1] eqn:Hperf.
    cbn [fst snd] in He.
    assert (Hquiet :
      (exists evs1, trace w1 = trace (Pool.world s) ++ evs1 /\
                    appended_records evs1 = []) ->
      log_file w1 = log_file (Pool.world s) ->
      Pool.disciplined m (k r) ->
      inv (Pool.mkState w1 (Pool.log_lock s)
             (Pool.set_nth t (k r) (Pool.threads s)))).
    { intros [evs1 [T1 A1]] L1 Hk. exists modes, (evs ++ evs1).
      cbn [Pool.threads Pool.log_lock Pool.world].
      split; [now apply Forall2_set_nth_right with (x := m) |].
      split; [exact Hout |]. split; [exact Hheld |].
      split; [rewrite T1, Htrace; now rewrite app_assoc |].
      rewrite appended_records_app, A1, app_nil_r, L1. auto. }
    destruct a; cbn [Pool.disciplined] in Hd;
      try (destruct He as [He1 He2]; destruct Hd as [-> Hd];
           apply Hquiet; auto; fail).
    + (* the file is opened for a record *)
      destruct Hd as [-> [Hok Hfail]]. cbv zeta in He.
      destruct He as [Hr [T1 L1]].
      assert (Hlock : Pool.log_lock s = Some t)
        by (apply (Hout t Pool.Locked Hm); discriminate).
      assert (Hrest : Pool.rest_of
                        (Pool.holder_mode (Pool.log_lock s) modes) = []).
      { rewrite Hlock. cbn [Pool.holder_mode].
        now rewrite (nth_of_nth_error _ _ _ _ Hm). }
      rewrite Hrest, app_nil_r in Hlog.
      destruct r as [[] | e].
      * exists (Pool.set_nth t (Pool.Writing text) modes),
          (evs ++ [EvLogAppend text true]).
        cbn [Pool.threads Pool.log_lock Pool.world].
        assert (Hmode : Pool.holder_mode (Pool.log_lock s)
                          (Pool.set_nth t (Pool.Writing text) modes)
                        = Pool.Writing text).
        { rewrite Hlock. cbn [Pool.holder_mode].
          apply nth_of_nth_error.
          now apply nth_error_set_nth_same with (y := Pool.Locked). }
        split; [now apply Forall2_set_nth |].
        split.
        { intros t' m' Hm' Hne. destruct (Nat.eq_dec t t') as [<- | Hneq];
            [exact Hlock |].
          rewrite nth_error_set_nth_other in Hm' by exact Hneq.
          now apply (Hout t' m'). }
        split.
        { intros t' Hl'. rewrite Hlock in Hl'. injection Hl' as <-.
          exists (Pool.Writing text). split; [| discriminate].
          now apply nth_error_set_nth_same with (y := Pool.Locked). }
        split.
        { rewrite T1, Htrace, <- Hr. cbn [is_ok].
          now rewrite <- app_assoc. }
        rewrite Hmode, appended_records_app. cbn [appended_records].
        rewrite concat_records_snoc, last_record_snoc, L1, Hlog, app_assoc.
        split; [reflexivity | now exists []].
      * apply Hquiet; [| exact L1 | apply Hfail].
        exists [EvLogAppend text false]. split; [| reflexivity].
        now rewrite T1, <- Hr.
    + (* one character reaches the file *)
      destruct Hd as [rest [-> Hk]]. destruct He as [Hr [T1 L1]].
      subst r.
      assert (Hlock : Pool.log_lock s = Some t)
        by (apply (Hout t (Pool.Writing (c :: rest)) Hm); discriminate).
      assert (Hrest : Pool.rest_of
                        (Pool.holder_mode (Pool.log_lock s) modes)
                      = c :: rest).
      { rewrite Hlock. cbn [Pool.holder_mode].
        now rewrite (nth_of_nth_error _ _ _ _ Hm). }
      rewrite Hrest in Hlog, Hlast.
      exists (Pool.set_nth t (Pool.Writing rest) modes), evs.
      cbn [Pool.threads Pool.log_lock Pool.world].
      assert (Hmode : Pool.holder_mode (Pool.log_lock s)
                        (Pool.set_nth t (Pool.Writing rest) modes)
                      = Pool.Writing rest).
      { rewrite Hlock. cbn [Pool.holder_mode].
        apply nth_of_nth_error.
        now apply nth_error_set_nth_same with (y := Pool.Writing (c :: rest)). }
      split; [now apply Forall2_set_nth |].
      split.
      { intros t' m' Hm' Hne. destruct (Nat.eq_dec t t') as [<- | Hneq];
          [exact Hlock |].
        rewrite nth_error_set_nth_other in Hm' by exact Hneq.
        now apply (Hout t' m'). }
      split.
      { intros t' Hl'. rewrite Hlock in Hl'. injection Hl' as <-.
        exists (Pool.Writing rest). split; [| discriminate].
        now apply nth_error_set_nth_same
          with (y := Pool.Writing (c :: rest)). }
      split; [now rewrite T1 |].
      rewrite Hmode. cbn [Pool.rest_of]. rewrite L1, <- app_assoc.
      split; [exact Hlog |].
      destruct Hlast as [written Hlast]. exists (written ++ [c]).
      now rewrite <- app_assoc.
  - (* the reading of the local file *)
    destruct (read_text env path (Pool.world s)) as [r w1] eqn:Hread.
    cbn [Pool.disciplined] in Hd. destruct Hd as [-> Hd].
    exists modes, (evs ++ [EvRead path (is_ok r)]).
    unfold read_text in Hread. injection Hread as Hr <-.
    cbn [Pool.threads Pool.log_lock Pool.world emit trace log_file].
    split; [now apply Forall2_set_nth_right with (x := Pool.Out) |].
    split; [exact Hout |]. split; [exact Hheld |].
    split; [rewrite Htrace, Hr; now rewrite <- app_assoc |].
    rewrite appended_records_app. cbn [appended_records].
    rewrite app_nil_r. auto.
  - (* the lock is asked for *)
    destruct Hd as [-> Hk].
    destruct (Pool.log_lock s) as [holder |] eqn:Hlock.
    + exists modes, evs. rewrite Hlock. auto 10.
    + exists (Pool.set_nth t Pool.Locked modes), evs.
      cbn [Pool.threads Pool.log_lock Pool.world Pool.holder_mode] in *.
      assert (Hmode : nth t (Pool.set_nth t Pool.Locked modes) Pool.Out
                      = Pool.Locked).
      { apply nth_of_nth_error.
        now apply nth_error_set_nth_same with (y := Pool.Out). }
      split; [now apply Forall2_set_nth |].
      split.
      { intros t' m' Hm' Hne. destruct (Nat.eq_dec t t') as [<- | Hneq];
          [reflexivity |].
        rewrite nth_error_set_nth_other in Hm' by exact Hneq.
        specialize (Hout t' m' Hm' Hne). discriminate. }
      split.
      { intros t' Hl'. injection Hl' as <-. exists Pool.Locked.
        split; [| discriminate].
        now apply nth_error_set_nth_same with (y := Pool.Out). }
      split; [exact Htrace |]. rewrite Hmode. auto.
  - (* the lock is given back *)
    destruct Hd as [Hmode Hk].
    assert (Hne : m <> Pool.Out)
      by (destruct Hmode as [-> | ->]; discriminate).
    assert (Hlock : Pool.log_lock s = Some t) by now apply (Hout t m).
    assert (Hrest : Pool.rest_of
                      (Pool.holder_mode (Pool.log_lock s) modes) = []).
    { rewrite Hlock. cbn [Pool.holder_mode].
      rewrite (nth_of_nth_error _ _ _ _ Hm).
      now destruct Hmode as [-> | ->]. }
    rewrite Hrest in Hlog, Hlast.
    exists (Pool.set_nth t Pool.Out modes), evs.
    cbn [Pool.threads Pool.log_lock Pool.world Pool.holder_mode
         Pool.rest_of].
    split; [now apply Forall2_set_nth |].
    split.
    { intros t' m' Hm' Hne'. exfalso.
      destruct (Nat.eq_dec t t') as [<- | Hneq].
      - rewrite (nth_error_set_nth_same _ _ _ _ Hm) in Hm'.
        injection Hm' as <-. now apply Hne'.
      - rewrite nth_error_set_nth_other in Hm' by exact Hneq.
        specialize (Hout t' m' Hm' Hne'). congruence. }
    split; [intros t' Hl'; discriminate |].
    auto.
Qed.

Lemma run_keeps_log_invariant (schedule : list nat) (s : Pool.State A) :
  inv s -> inv (Pool.run env schedule s).
Proof.
  unfold Pool.run. revert s.
  induction schedule as [|t schedule IH]; intros s H; [exact H |].
  cbn [fold_left]. apply IH. now apply step_keeps_log_invariant.
Qed.

End LogInvariant.

Lemma start_log_invariant {A} (w0 : World) (tasks : list (Pool.Task A)) :
  Forall (Pool.disciplined Pool.Out) tasks ->
  log_invariant w0 (Pool.start w0 tasks).
Proof.
  intros H. exists (map (fun _ => Pool.Out) tasks), [].
  cbn [Pool.start Pool.threads Pool.log_lock Pool.world Pool.holder_mode
       Pool.rest_of appended_records List.concat last].
  split.
  { induction H; cbn [map]; constructor; auto. }
  split.
  { intros t m Hm Hne. exfalso. apply Hne.
    apply nth_error_In in Hm. apply in_map_iff in Hm.
    now destruct Hm as [_ [<- _]]. }
  split; [intros t Hl; discriminate |].
  rewrite !app_nil_r. split; [reflexivity |]. split; [reflexivity |].
  now exists [].
Qed.

(** ** The tasks keep to the lock *)

Lemma disciplined_tbind {A B} (p : Pool.Task A) (k : A -> Pool.Task B)
  (m : Pool.Mode) :
  Pool.disciplined m p ->
  (forall a, Pool.disciplined Pool.Out (k a)) ->
  Pool.disciplined m (Pool.tbind p k).
Proof.
  intros Hp Hk. revert m Hp.
  induction p as [[a | e] | a f IH | path f IH | p IH | p IH]; intros m Hp;
    cbn [Pool.tbind].
  - cbn in Hp. subst m. apply Hk.
  - exact Hp.
  - destruct a; cbn [Pool.disciplined] in *;
      try (destruct Hp as [-> Hp]; split; [reflexivity |];
           intros r; apply IH; apply Hp; fail).
    + destruct Hp as [-> [Hok Hfail]]. split; [reflexivity |].
      split; [now apply IH | intros e; now apply IH].
    + destruct Hp as [rest [-> Hok]]. exists rest.
      split; [reflexivity | now apply IH].
  - cbn [Pool.disciplined] in *. destruct Hp as [-> Hp].
    split; [reflexivity |]. intros r. now apply IH.
  - cbn [Pool.disciplined] in *. destruct Hp as [-> Hp].
    split; [reflexivity | now apply IH].
  - cbn [Pool.disciplined] in *. destruct Hp as [Hm Hp].
    split; [exact Hm | now apply IH].
Qed.

Lemma disciplined_ttry {A} (p : Pool.Task A) (handler : exn -> Pool.Task A)
  (m : Pool.Mode) :
  Pool.disciplined m p ->
  (forall e, Pool.disciplined Pool.Out (handler e)) ->
  Pool.disciplined m (Pool.ttry p handler).
Proof.
  intros Hp Hk. revert m Hp.
  induction p as [[a | e] | a f IH | path f IH | p IH | p IH]; intros m Hp;
    cbn [Pool.ttry].
  - exact Hp.
  - cbn in Hp. subst m. apply Hk.
  - destruct a; cbn [Pool.disciplined] in *;
      try (destruct Hp as [-> Hp]; split; [reflexivity |];
           intros r; apply IH; apply Hp; fail).
    + destruct Hp as [-> [Hok Hfail]]. split; [reflexivity |].
      split; [now apply IH | intros e; now apply IH].
    + destruct Hp as [rest [-> Hok]]. exists rest.
      split; [reflexivity | now apply IH].
  - cbn [Pool.disciplined] in *. destruct Hp as [-> Hp].
    split; [reflexivity |]. intros r. now apply IH.
  - cbn [Pool.disciplined] in *. destruct Hp as [-> Hp].
    split; [reflexivity | now apply IH].
  - cbn [Pool.disciplined] in *. destruct Hp as [Hm Hp].
    split; [exact Hm | now apply IH].
Qed.

Lemma disciplined_write_chars (text : str) :
  Pool.disciplined (A := unit) (Pool.Writing text)
    (Pool.then_release (Pool.write_chars text)).
Proof.
  induction text as [|c text IH].
  - cbn. split; [now right | reflexivity].
  - cbn [Pool.write_chars Pool.call Pool.tbind Pool.then_release
         Pool.disciplined].
    exists text. split; [reflexivity | exact IH].
Qed.

Lemma disciplined_append_record (text : str) :
  Pool.disciplined Pool.Out (Pool.append_record text).
Proof.
  unfold Pool.append_record, Pool.with_lock.
  cbn [Pool.call Pool.tbind Pool.then_release Pool.disciplined].
  split; [reflexivity |]. split; [reflexivity |].
  split; [apply disciplined_write_chars |].
  intros e. split; [now left | reflexivity].
Qed.

Lemma disciplined_safe_sftp_attempts (remote_path local_path : str)
  (max_retries : Z) (attempts : list nat) :
  Pool.disciplined Pool.Out
    (Pool.safe_sftp_attempts (Pool.call (Pool.AGet remote_path local_path))
       max_retries attempts).
Proof.
  induction attempts as [|attempt rest IH]; [reflexivity |].
  cbn [Pool.safe_sftp_attempts]. apply disciplined_ttry.
  - apply disciplined_tbind; [now split | intros a; reflexivity].
  - intros e. apply disciplined_tbind; [now split |].
    intros _. destruct (Z.of_nat attempt =? max_retries - 1)%Z;
      [reflexivity | exact IH].
Qed.

Lemma disciplined_process_file {S D} (LOCAL_DIRECTORY : str)
  (file_info : FileInfo) (schema_dict : S) (dialect : D) :
  Pool.disciplined Pool.Out
    (Pool.process_file LOCAL_DIRECTORY file_info schema_dict dialect).
Proof.
  unfold Pool.process_file. cbv zeta. apply disciplined_ttry.
  - apply disciplined_tbind; [apply disciplined_safe_sftp_attempts |].
    intros _. apply disciplined_tbind; [now split |].
    intros csv_content.
    destruct (validate_csv csv_content schema_dict dialect)
      as [[errors warnings] info].
    apply disciplined_tbind; [apply disciplined_append_record |].
    intros _. now split.
  - intros e. apply disciplined_tbind; [apply disciplined_append_record |].
    intros _. now split.
Qed.

(** A disciplined task that is alone in the pool comes to its end, with
    the result and the world of [run_alone]. *)
Lemma alone_reaches_end {A} (env : Env) (p : Pool.Task A) :
  forall m w lock,
    Pool.disciplined m p ->
    (m = Pool.Out -> lock = None) -> (m <> Pool.Out -> lock = Some 0) ->
    exists n,
      Pool.run env (repeat 0 n) (Pool.mkState w lock [p])
      = Pool.mkState (snd (Pool.run_alone env p w)) None
          [Pool.Done (fst (Pool.run_alone env p w))].
Proof.
  induction p as [r | a k IH | path k IH | k IH | k IH];
    intros m w lock Hd Hout Hin.
  - exists 0. cbn in Hd. rewrite (Hout Hd). reflexivity.
  - assert (Hnext : exists m',
              Pool.disciplined m' (k (fst (Pool.perform env a w))) /\
              (m' = Pool.Out -> lock = None) /\
              (m' <> Pool.Out -> lock = Some 0)).
    { pose proof (perform_effect env a w) as He.
      destruct a; cbn [Pool.disciplined] in Hd;
        try (destruct Hd as [-> Hd]; exists Pool.Out;
             split; [apply Hd | auto]; fail).
      - destruct Hd as [-> [Hok Hfail]].
        destruct (fst (Pool.perform env (Pool.ALogOpen text) w))
          as [[] | e].
        + exists (Pool.Writing text). split; [exact Hok |].
          split; [discriminate |]. intros _. apply Hin. discriminate.
        + exists Pool.Locked. split; [apply Hfail |].
          split; [discriminate |]. intros _. apply Hin. discriminate.
      - destruct Hd as [rest [-> Hok]]. destruct He as [-> _].
        exists (Pool.Writing rest). split; [exact Hok |].
        split; [discriminate |]. intros _. apply Hin. discriminate. }
    destruct Hnext as [m' [Hd' [Hout' Hin']]].
    destruct (IH _ m' (snd (Pool.perform env a w)) lock Hd' Hout' Hin')
      as [n Hn].
    exists (S n). cbn [repeat]. unfold Pool.run in *. cbn [fold_left].
    unfold Pool.step at 2. cbn [Pool.threads nth_error Pool.world].
    cbn [Pool.run_alone].
    destruct (Pool.perform env a w) as [r w1]. cbn [fst snd] in *.
    exact Hn.
  - cbn [Pool.disciplined] in Hd. destruct Hd as [-> Hd].
    destruct (IH _ Pool.Out (snd (read_text env path w)) lock
                (Hd (fst (read_text env path w))) Hout Hin) as [n Hn].
    exists (S n). cbn [repeat]. unfold Pool.run in *. cbn [fold_left].
    unfold Pool.step at 2. cbn [Pool.threads nth_error Pool.world].
    cbn [Pool.run_alone].
    destruct (read_text env path w) as [r w1]. cbn [fst snd] in *.
    exact Hn.
  - cbn [Pool.disciplined] in Hd. destruct Hd as [-> Hd].
    destruct (IH Pool.Locked w (Some 0) Hd ltac:(discriminate)
                ltac:(reflexivity)) as [n Hn].
    exists (S n). cbn [repeat]. unfold Pool.run in *. cbn [fold_left].
    unfold Pool.step at 2.
    cbn [Pool.threads nth_error Pool.world Pool.log_lock].
    rewrite (Hout eq_refl). exact Hn.
  - cbn [Pool.disciplined] in Hd. destruct Hd as [_ Hd].
    destruct (IH Pool.Out w None Hd ltac:(reflexivity)
                ltac:(congruence)) as [n Hn].
    exists (S n). cbn [repeat]. unfold Pool.run in *. cbn [fold_left].
    unfold Pool.step at 2.
    cbn [Pool.threads nth_error Pool.world Pool.log_lock].
    exact Hn.
Qed.

Lemma concat_records_last (records : list str) :
  List.concat records = List.concat (removelast records) ++ last records [].
Proof.
  destruct records as [|r records]; [reflexivity |].
  rewrite (app_removelast_last [] (l := r :: records)) at 1 by discriminate.
  apply concat_records_snoc.
Qed.

(** C8: the tasks of [process_file] on the threads of a pool, under any
    schedule.  A task alone in the pool ends as [process_file] does.  A
    thread is about to open the log file, to write to it or to give the
    lock back exactly when it holds the lock.  At every moment the file
    is what it was at the start, then the records whose appending has
    begun, each whole and in the order of the openings, except that the
    last one may be written in part, which happens only while a thread
    holds the lock.  When every task has ended the lock is free and the
    file ends with whole records. *)
Theorem C8_log_records_never_interleaved {S D : Type} (schema_dict : S)
  (dialect : D) (env : Env) (LOCAL_DIRECTORY : str) (files : list FileInfo)
  (w0 : World) (schedule : list nat) :
  let task file_info :=
    Pool.process_file LOCAL_DIRECTORY file_info schema_dict dialect in
  let s := Pool.run env schedule (Pool.start w0 (map task files)) in
  let records := appended_records (new_events w0 (Pool.world s)) in
  (forall file_info w,
     let out := process_file env LOCAL_DIRECTORY file_info schema_dict
                  dialect w in
     exists n,
       Pool.run env (repeat 0 n) (Pool.start w [task file_info])
       = Pool.mkState (snd out) None [Pool.Done (fst out)]) /\
  (forall t p,
     nth_error (Pool.threads s) t = Some p ->
     (Pool.in_critical_section p = true <-> Pool.log_lock s = Some t)) /\
  (exists written pending,
     log_file (Pool.world s)
     = log_file w0 ++ List.concat (removelast records) ++ written /\
     last records [] = written ++ pending /\
     (Pool.log_lock s = None -> pending = [])) /\
  (Pool.all_done s = true ->
   Pool.log_lock s = None /\
   log_file (Pool.world s) = log_file w0 ++ List.concat records).
Proof.
  intros task s records.
  assert (Hinv : log_invariant w0 s).
  { apply run_keeps_log_invariant, start_log_invariant.
    apply Forall_forall. intros p Hin. apply in_map_iff in Hin.
    destruct Hin as [file_info [<- _]]. apply disciplined_process_file. }
  destruct Hinv as [modes [evs [HF [Hout [Hheld [Htrace [Hlog Hlast]]]]]]].
  assert (Hrec : records = appended_records evs).
  { unfold records. now rewrite (new_events_app _ _ _ Htrace). }
  rewrite <- Hrec in Hlog, Hlast.
  split; [| split; [| split]].
  - intros file_info w out.
    destruct (alone_reaches_end env (task file_info) Pool.Out w None
                (disciplined_process_file _ _ _ _) ltac:(reflexivity)
                ltac:(congruence)) as [n Hn].
    exists n. unfold out. rewrite <- run_alone_process_file. exact Hn.
  - intros t p Hp.
    destruct (Forall2_nth_error_right _ _ _ _ _ HF Hp) as [m [Hm Hd]].
    split.
    + intros Hw. apply (Hout t m Hm).
      destruct p as [r | a k | path k | k | k]; try discriminate.
      * destruct a; try discriminate; cbn [Pool.disciplined] in Hd.
        -- destruct Hd as [-> _]. discriminate.
        -- destruct Hd as [rest [-> _]]. discriminate.
      * cbn [Pool.disciplined] in Hd.
        destruct Hd as [[-> | ->] _]; discriminate.
    + intros Hl. destruct (Hheld t Hl) as [m' [Hm' Hne]].
      assert (m' = m) by congruence. subst m'.
      destruct p as [r | a k | path k | k | k]; cbn [Pool.disciplined] in Hd;
        try reflexivity; try (now destruct Hd as [-> _]); try contradiction.
      destruct a; try reflexivity; now destruct Hd as [-> _].
  - destruct Hlast as [written Hlast].
    exists written, (Pool.rest_of (Pool.holder_mode (Pool.log_lock s) modes)).
    split; [| split; [exact Hlast |]].
    + rewrite (concat_records_last records), Hlast in Hlog.
      rewrite !app_assoc in Hlog. apply app_inv_tail in Hlog.
      now rewrite <- app_assoc in Hlog.
    + intros ->. reflexivity.
  - intros Hdone.
    assert (Hfree : Pool.log_lock s = None).
    { destruct (Pool.log_lock s) as [t |] eqn:Hl; [| reflexivity].
      exfalso. destruct (Hheld t eq_refl) as [m [Hm Hne]].
      assert (Hp : exists p, nth_error (Pool.threads s) t = Some p /\
                             Pool.disciplined m p).
      { clear - HF Hm. revert t Hm.
        induction HF as [|m0 p0 ms ps H0 _ IH]; intros [|t] Hm;
          try discriminate.
        - injection Hm as ->. now exists p0.
        - now apply IH. }
      destruct Hp as [p [Hp Hd]].
      unfold Pool.all_done in Hdone. rewrite forallb_forall in Hdone.
      specialize (Hdone p (nth_error_In _ _ Hp)).
      destruct p; try discriminate. now apply Hne. }
    split; [exact Hfree |].
    rewrite Hfree in Hlog. cbn [Pool.holder_mode Pool.rest_of] in Hlog.
    now rewrite app_nil_r in Hlog.
Qed.

(** ** The tasks of the parallel script under any schedule *)

Lemma fetched_of_app (a b : list Event) :
  fetched_of (a ++ b) = fetched_of a ++ fetched_of b.
Proof.
  induction a as [|ev a IH]; [reflexivity |].
  destruct ev; cbn [app fetched_of]; try exact IH.
  destruct ok; cbn [app]; [now rewrite IH | exact IH].
Qed.

(** What one step adds to the trace. *)
Lemma perform_trace (env : Env) (a : Pool.Action) (w : World) :
  let out := Pool.perform env a w in
  match a with
  | Pool.AGet remote_path local_path =>
      trace (snd out)
      = trace w ++ [EvGet remote_path local_path (is_ok (fst out))]
  | Pool.ARemove remote_path =>
      trace (snd out) = trace w ++ [EvRemove remote_path (is_ok (fst out))]
  | _ =>
      exists evs, trace (snd out) = trace w ++ evs /\
                  forallb silent_event evs = true
  end.
Proof.
  destruct a; cbn [Pool.perform]; cbv zeta; try reflexivity.
  - exists []. split; [now rewrite app_nil_r | reflexivity].
  - exists []. split; [now rewrite app_nil_r | reflexivity].
  - eexists. split; [reflexivity | reflexivity].
  - exists []. split; [now rewrite app_nil_r | reflexivity].
  - unfold save_to_database.
    destruct (db_insert_result env (calls_db w)) as [[] | e];
      [destruct (db w) |]; (eexists; split; [reflexivity | reflexivity]).
Qed.

Lemma silent_gets (evs : list Event) :
  forallb silent_event evs = true -> gets_of evs = [].
Proof.
  induction evs as [|ev evs IH]; [reflexivity |].
  cbn [forallb]. intros H. apply andb_true_iff in H. destruct H as [H1 H2].
  destruct ev; try discriminate; cbn [gets_of]; auto.
Qed.

Lemma concat_set_nth {X} (l : list (list X)) (t : nat) (x y : list X) :
  nth_error l t = Some x ->
  exists before after,
    List.concat l = before ++ x ++ after /\
    List.concat (Pool.set_nth t y l) = before ++ y ++ after.
Proof.
  revert t. induction l as [|x0 l IH]; intros [|t] H; try discriminate.
  - injection H as ->. exists [], (List.concat l). split; reflexivity.
  - destruct (IH t H) as [before [after [H1 H2]]].
    exists (x0 ++ before), after. cbn [Pool.set_nth List.concat].
    rewrite H1, H2, <- !app_assoc. split; reflexivity.
Qed.

Lemma removes_fetched_app (evs more : list Event) :
  removes_fetched evs ->
  (forall before remote_path ok after,
     more = before ++ EvRemove remote_path ok :: after ->
     In remote_path (fetched_of (evs ++ before))) ->
  removes_fetched (evs ++ more).
Proof.
  intros H Hmore before remote_path ok after Heq.
  assert (Hcases :
    (exists rest, evs = before ++ EvRemove remote_path ok :: rest) \/
    (exists before', before = evs ++ before' /\
                     more = before' ++ EvRemove remote_path ok :: after)).
  { clear - Heq. revert before Heq.
    induction evs as [|ev evs IH]; intros before Heq.
    - right. now exists before.
    - destruct before as [|b before]; cbn [app] in Heq.
      + left. injection Heq as -> Heq. now exists evs.
      + injection Heq as -> Heq.
        destruct (IH before Heq) as [[rest ->] | [before' [-> ->]]].
        * left. now exists rest.
        * right. now exists before'. }
  destruct Hcases as [[rest ->] | [before' [-> ->]]].
  - now apply (H before remote_path ok rest).
  - now apply (Hmore before' remote_path ok after).
Qed.

Lemma silent_no_remove (more before after : list Event) (remote_path : str)
  (ok : bool) :
  forallb silent_event more = true ->
  more <> before ++ EvRemove remote_path ok :: after.
Proof.
  intros H ->. rewrite forallb_app in H. apply andb_true_iff in H.
  destruct H as [_ H]. discriminate.
Qed.

Section DownloadInvariants.
Context {A : Type}.
Variable env : Env.
Variable w0 : World.
Variable wanted : list str.

Lemma step_keeps_gets_invariant (t : nat) (s : Pool.State A) :
  gets_invariant w0 wanted s -> gets_invariant w0 wanted (Pool.step env t s).
Proof.
  intros Hinv. unfold Pool.step.
  destruct (nth_error (Pool.threads s) t) as [p |] eqn:Hp; [| exact Hinv].
  destruct Hinv as [remaining [evs [HF [Htrace Hperm]]]].
  destruct (Forall2_nth_error_right _ _ _ _ _ HF Hp) as [paths [Hpaths Hd]].
  destruct p as [r | a k | path k | k | k].
  - exists remaining, evs. auto.
  - pose proof (perform_trace env a (Pool.world s)) as He. cbv zeta in He.
    destruct (Pool.perform env a (Pool.world s)) as [r w1].
    cbn [fst snd] in He.
    assert (Hquiet :
      (exists evs1, trace w1 = trace (Pool.world s) ++ evs1 /\
                    gets_of evs1 = []) ->
      Pool.fetches paths (k r) ->
      gets_invariant w0 wanted
        (Pool.mkState w1 (Pool.log_lock s)
           (Pool.set_nth t (k r) (Pool.threads s)))).
    { intros [evs1 [T1 S1]] Hk. exists remaining, (evs ++ evs1).
      cbn [Pool.threads Pool.world].
      split; [now apply Forall2_set_nth_right with (x := paths) |].
      split; [rewrite T1, Htrace; now rewrite app_assoc |].
      now rewrite gets_of_app, S1, app_nil_r. }
    destruct a; cbn [Pool.fetches] in Hd;
      try (apply Hquiet; [| apply Hd]; destruct He as [evs1 [T1 S1]];
           exists evs1; split; [exact T1 | now apply silent_gets]; fail).
    + destruct Hd as [rest [-> Hk]].
      exists (Pool.set_nth t rest remaining),
        (evs ++ [EvGet remote_path local_path (is_ok r)]).
      cbn [Pool.threads Pool.world].
      split; [now apply Forall2_set_nth |].
      split; [rewrite He, Htrace; now rewrite <- app_assoc |].
      rewrite gets_of_app. cbn [gets_of].
      destruct (concat_set_nth remaining t (remote_path :: rest) rest Hpaths)
        as [before [after [H1 H2]]].
      rewrite H2. rewrite H1 in Hperm.
      eapply Permutation_trans; [| exact Hperm].
      rewrite <- !app_assoc. apply Permutation_app_head.
      cbn [app]. apply Permutation_middle.
    + apply Hquiet; [| apply Hd].
      exists [EvRemove remote_path (is_ok r)]. split; [exact He | reflexivity].
  - destruct (read_text env path (Pool.world s)) as [r w1] eqn:Hread.
    cbn [Pool.fetches] in Hd.
    exists remaining, (evs ++ [EvRead path (is_ok r)]).
    unfold read_text in Hread. injection Hread as Hr <-.
    cbn [Pool.threads Pool.world emit trace].
    split; [now apply Forall2_set_nth_right with (x := paths) |].
    split; [rewrite Htrace, Hr; now rewrite <- app_assoc |].
    rewrite gets_of_app. cbn [gets_of]. now rewrite app_nil_r.
  - cbn [Pool.fetches] in Hd.
    destruct (Pool.log_lock s); [exists remaining, evs; auto |].
    exists remaining, evs. cbn [Pool.threads Pool.world].
    split; [now apply Forall2_set_nth_right with (x := paths) | auto].
  - cbn [Pool.fetches] in Hd.
    exists remaining, evs. cbn [Pool.threads Pool.world].
    split; [now apply Forall2_set_nth_right with (x := paths) | auto].
Qed.

Lemma step_keeps_removes_invariant (t : nat) (s : Pool.State A) :
  removes_invariant w0 s -> removes_invariant w0 (Pool.step env t s).
Proof.
  intros Hinv. unfold Pool.step.
  destruct (nth_error (Pool.threads s) t) as [p |] eqn:Hp; [| exact Hinv].
  destruct Hinv as [allowed [evs [HF [Htrace [Hallowed Hrem]]]]].
  destruct (Forall2_nth_error_right _ _ _ _ _ HF Hp) as [paths [Hpaths Hd]].
  assert (Hsilent : forall w1 p' evs1,
    trace w1 = trace (Pool.world s) ++ evs1 ->
    forallb silent_event evs1 = true ->
    Pool.guarded paths p' ->
    removes_invariant w0
      (Pool.mkState w1 (Pool.log_lock s)
         (Pool.set_nth t p' (Pool.threads s)))).
  { intros w1 p' evs1 T1 S1 Hk. exists allowed, (evs ++ evs1).
    cbn [Pool.threads Pool.world].
    split; [now apply Forall2_set_nth_right with (x := paths) |].
    split; [rewrite T1, Htrace; now rewrite app_assoc |].
    split.
    - intros t' paths' p0 H1 H2. rewrite fetched_of_app.
      apply in_or_app. left. now apply (Hallowed t' paths').
    - apply removes_fetched_app; [exact Hrem |].
      intros before remote_path ok after Heq. exfalso.
      now apply (silent_no_remove evs1 before after remote_path ok). }
  destruct p as [r | a k | path k | k | k].
  - exists allowed, evs. auto.
  - pose proof (perform_trace env a (Pool.world s)) as He. cbv zeta in He.
    destruct (Pool.perform env a (Pool.world s)) as [r w1].
    cbn [fst snd] in He.
    destruct a; cbn [Pool.guarded] in Hd;
      try (destruct He as [evs1 [T1 S1]];
           apply (Hsilent w1 (k r) evs1 T1 S1); apply Hd; fail).
    + (* a download *)
      destruct Hd as [Hok Hfail].
      exists (Pool.set_nth t
                (if is_ok r then remote_path :: paths else paths) allowed),
        (evs ++ [EvGet remote_path local_path (is_ok r)]).
      cbn [Pool.threads Pool.world].
      split.
      { apply Forall2_set_nth; [exact HF |].
        destruct r as [[] | e]; cbn [is_ok]; [exact Hok | apply Hfail]. }
      split; [rewrite He, Htrace; now rewrite <- app_assoc |].
      split.
      * intros t' paths' p0 H1 H2. rewrite fetched_of_app.
        destruct (Nat.eq_dec t t') as [<- | Hneq].
        -- rewrite (nth_error_set_nth_same _ _ _ _ Hpaths) in H1.
           injection H1 as <-.
           destruct r as [[] | e]; cbn [is_ok fetched_of] in *.
           ++ destruct H2 as [<- | H2].
              ** apply in_or_app. right. now left.
              ** apply in_or_app. left. now apply (Hallowed t paths).
           ++ apply in_or_app. left. now apply (Hallowed t paths).
        -- rewrite nth_error_set_nth_other in H1 by exact Hneq.
           apply in_or_app. left. now apply (Hallowed t' paths').
      * apply removes_fetched_app; [exact Hrem |].
        intros before p0 ok after Heq.
        destruct before as [|b [|b2 before]]; discriminate.
    + (* a removal *)
      destruct Hd as [Hin Hk].
      exists allowed, (evs ++ [EvRemove remote_path (is_ok r)]).
      cbn [Pool.threads Pool.world].
      split; [now apply Forall2_set_nth_right with (x := paths) |].
      split; [rewrite He, Htrace; now rewrite <- app_assoc |].
      split.
      * intros t' paths' p0 H1 H2. rewrite fetched_of_app.
        apply in_or_app. left. now apply (Hallowed t' paths').
      * apply removes_fetched_app; [exact Hrem |].
        intros before p0 ok after Heq.
        destruct before as [|b [|b2 before]]; try discriminate.
        injection Heq as -> _ _. rewrite app_nil_r.
        now apply (Hallowed t paths).
  - destruct (read_text env path (Pool.world s)) as [r w1] eqn:Hread.
    cbn [Pool.guarded] in Hd.
    apply (Hsilent w1 (k r) [EvRead path (is_ok r)]);
      [| reflexivity | apply Hd].
    unfold read_text in Hread. injection Hread as Hr <-. now rewrite Hr.
  - cbn [Pool.guarded] in Hd.
    destruct (Pool.log_lock s); [exists allowed, evs; auto |].
    exists allowed, evs. cbn [Pool.threads Pool.world].
    split; [now apply Forall2_set_nth_right with (x := paths) | auto].
  - cbn [Pool.guarded] in Hd.
    exists allowed, evs. cbn [Pool.threads Pool.world].
    split; [now apply Forall2_set_nth_right with (x := paths) | auto].
Qed.

Lemma run_keeps_download_invariants (schedule : list nat) (s : Pool.State A) :
  gets_invariant w0 wanted s /\ removes_invariant w0 s ->
  gets_invariant w0 wanted (Pool.run env schedule s) /\
  removes_invariant w0 (Pool.run env schedule s).
Proof.
  unfold Pool.run. revert s.
  induction schedule as [|t schedule IH]; intros s H; [exact H |].
  cbn [fold_left]. apply IH. destruct H as [H1 H2]. split.
  - now apply step_keeps_gets_invariant.
  - now apply step_keeps_removes_invariant.
Qed.

End DownloadInvariants.

Section ParallelTask.
Variable LOCAL_DIRECTORY : str.
Variable remote_directory : str.

Local Abbreviation task :=
  (Pool.fetch_and_delete_file LOCAL_DIRECTORY remote_directory).

Lemma task_fetches (filename : str) :
  Pool.fetches [os_path_join remote_directory filename] (task filename).
Proof.
  unfold Pool.fetch_and_delete_file. cbv zeta.
  cbn [Pool.call Pool.tbind Pool.ttry Pool.fetches].
  exists []. split; [reflexivity |].
  intros [[] | e]; cbn [Pool.call Pool.tbind Pool.ttry Pool.fetches].
  - intros [[] | e]; cbn [Pool.call Pool.tbind Pool.ttry Pool.fetches].
    + intros [[] | e]; cbn [Pool.call Pool.tbind Pool.ttry Pool.fetches].
      * intros [[] | e]; cbn [Pool.call Pool.tbind Pool.ttry Pool.fetches];
          [reflexivity | intros r; reflexivity].
      * intros r; reflexivity.
    + intros r; reflexivity.
  - intros r; reflexivity.
Qed.

Lemma task_guarded (filename : str) : Pool.guarded [] (task filename).
Proof.
  unfold Pool.fetch_and_delete_file. cbv zeta.
  cbn [Pool.call Pool.tbind Pool.ttry Pool.guarded].
  split.
  - intros [[] | e]; cbn [Pool.call Pool.tbind Pool.ttry Pool.guarded].
    + split; [now left |].
      intros [[] | e]; cbn [Pool.call Pool.tbind Pool.ttry Pool.guarded].
      * intros [[] | e]; cbn [Pool.call Pool.tbind Pool.ttry Pool.guarded];
          [exact I | intros r; exact I].
      * intros r; exact I.
    + intros r; exact I.
  - intros e r. exact I.
Qed.

Lemma task_disciplined (filename : str) :
  Pool.disciplined Pool.Out (task filename).
Proof.
  unfold Pool.fetch_and_delete_file. cbv zeta.
  apply disciplined_ttry.
  - apply disciplined_tbind; [now split |]. intros _.
    apply disciplined_tbind; [now split |]. intros _.
    apply disciplined_tbind; [now split |]. intros _. now split.
  - intros e. now split.
Qed.

End ParallelTask.

Lemma all_done_fetches_nothing {A} (remaining : list (list str))
  (ps : list (Pool.Task A)) :
  Forall2 Pool.fetches remaining ps -> forallb Pool.is_done ps = true ->
  List.concat remaining = [].
Proof.
  induction 1 as [|paths p remaining ps Hp _ IH]; [reflexivity |].
  cbn [forallb]. intros H. apply andb_true_iff in H. destruct H as [H1 H2].
  destruct p; try discriminate. cbn in Hp. subst paths.
  cbn [List.concat app]. now apply IH.
Qed.

(** X20: the tasks of one batch of fetch_and_delete_files_in_parallel.py
    on the threads of a pool, under any schedule.  A task alone in the
    pool ends as [fetch_and_delete_file] does.  At every moment the
    downloads made so far and those still to come are the files of the
    batch, each once; every [sftp.remove] made so far has before it a
    [sftp.get] of the same remote path that returned; and when every task
    has ended each file of the batch has been downloaded exactly once. *)
Theorem parallel_batch_under_any_schedule (env : Env)
  (LOCAL_DIRECTORY remote_directory : str) (files : list str) (w0 : World)
  (schedule : list nat) :
  let task := Pool.fetch_and_delete_file LOCAL_DIRECTORY remote_directory in
  let wanted := map (os_path_join remote_directory) files in
  let s := Pool.run env schedule (Pool.start w0 (map task files)) in
  let evs := new_events w0 (Pool.world s) in
  (forall filename w,
     let out := ParallelFetcher.fetch_and_delete_file env LOCAL_DIRECTORY
                  remote_directory filename w in
     exists n,
       Pool.run env (repeat 0 n) (Pool.start w [task filename])
       = Pool.mkState (snd out) None [Pool.Done (fst out)]) /\
  (exists to_come, Permutation (gets_of evs ++ to_come) wanted) /\
  removes_fetched evs /\
  (Pool.all_done s = true -> Permutation (gets_of evs) wanted).
Proof.
  intros task wanted s evs.
  assert (Hstart : gets_invariant w0 wanted (Pool.start w0 (map task files))
                   /\ removes_invariant w0 (Pool.start w0 (map task files))).
  { split.
    - exists (map (fun filename => [os_path_join remote_directory filename])
                files), [].
      cbn [Pool.start Pool.threads Pool.world gets_of app].
      split; [| split; [now rewrite app_nil_r |]].
      + induction files as [|f fs IH]; cbn [map]; constructor;
          [apply task_fetches | exact IH].
      + unfold wanted. rewrite <- flat_map_concat_map, flat_map_singleton.
        apply Permutation_refl.
    - exists (map (fun _ => []) files), [].
      cbn [Pool.start Pool.threads Pool.world].
      split; [| split; [now rewrite app_nil_r |]].
      + induction files as [|f fs IH]; cbn [map]; constructor;
          [apply task_guarded | exact IH].
      + split.
        * intros t paths p H1 H2. apply nth_error_In in H1.
          apply in_map_iff in H1. destruct H1 as [_ [<- _]]. destruct H2.
        * intros before p ok after Heq. destruct before; discriminate. }
  destruct (run_keeps_download_invariants env w0 wanted schedule _ Hstart)
    as [[remaining [evs1 [HF1 [T1 Hperm]]]] [allowed [evs2 [_ [T2 [_ Hrem]]]]]].
  fold s in HF1, T1, T2.
  assert (E1 : evs = evs1) by (unfold evs; now apply new_events_app).
  assert (E2 : evs = evs2) by (unfold evs; now apply new_events_app).
  split; [| split; [| split]].
  - intros filename w out.
    destruct (alone_reaches_end env (task filename) Pool.Out w None
                (task_disciplined _ _ _) ltac:(reflexivity)
                ltac:(congruence)) as [n Hn].
    exists n. unfold out. rewrite <- run_alone_fetch_and_delete_file.
    exact Hn.
  - exists (List.concat remaining). now rewrite E1.
  - now rewrite E2.
  - intros Hdone. rewrite E1.
    rewrite (all_done_fetches_nothing remaining _ HF1 Hdone), app_nil_r
      in Hperm.
    exact Hperm.
Qed.

Lemma parallel_batch_under_any_schedule_witness :
  let env := example_env [] (Ok tt) in
  let s := Pool.run env [0; 1; 1; 0; 0; 1; 1; 0]
             (Pool.start example_world
                (map (Pool.fetch_and_delete_file "downloads" "/data")
                   [lit "a.csv"; lit "b.csv"])) in
  Permutation (gets_of (new_events example_world (Pool.world s)))
    [lit "/data/a.csv"; lit "/data/b.csv"].
Proof.
  apply (parallel_batch_under_any_schedule (example_env [] (Ok tt))
           "downloads" "/data" [lit "a.csv"; lit "b.csv"] example_world
           [0; 1; 1; 0; 0; 1; 1; 0]).
  reflexivity.
Defined.

(** ** Where a download goes *)

Lemma until_sep_free (s : str) : free_of 47 (until_sep s) = true.
Proof.
  induction s as [|c s IH]; simpl; [reflexivity |].
  destruct (N.eqb c 47) eqn:E; simpl; [reflexivity |].
  now rewrite E, IH.
Qed.

Lemma basename_free_of_sep (p : str) :
  free_of 47 (os_path_basename p) = true.
Proof.
  unfold os_path_basename, free_of. apply forallb_forall.
  intros c Hin. apply in_rev in Hin.
  pose proof (until_sep_free (rev p)) as H. unfold free_of in H.
  rewrite forallb_forall in H. now apply H.
Qed.

(** Joining a name without separator keeps the directory in front. *)
Lemma join_relative (directory name : str) :
  free_of 47 name = true ->
  os_path_join directory name
  = directory
      ++ (if negb (truthy directory) || endswith directory "/"
          then [] else lit "/")
      ++ name.
Proof.
  intros Hfree. unfold os_path_join.
  assert (Hs : startswith name "/" = false).
  { destruct name as [|c name]; [reflexivity |].
    simpl in Hfree |- *. apply andb_true_iff in Hfree.
    destruct Hfree as [Hc _]. apply negb_true_iff in Hc.
    now rewrite Hc. }
  rewrite Hs.
  destruct (negb (truthy directory) || endswith directory "/"); reflexivity.
Qed.

Lemma run_alone_trace {A} (env : Env) (p : Pool.Task A) (w : World) :
  exists evs, trace (snd (Pool.run_alone env p w)) = trace w ++ evs.
Proof.
  revert w. induction p as [r | a k IH | path k IH | k IH | k IH];
    intros w; cbn [Pool.run_alone].
  - exists []. now rewrite app_nil_r.
  - assert (Ha : exists evs1,
              trace (snd (Pool.perform env a w)) = trace w ++ evs1).
    { pose proof (perform_trace env a w) as He. cbv zeta in He.
      destruct a;
        match type of He with
        | exists _, _ => destruct He as [evs1 [He1 _]]; now exists evs1
        | _ => eexists; exact He
        end. }
    destruct Ha as [evs1 Ha].
    destruct (Pool.perform env a w) as [r w1]. cbn [snd] in Ha.
    destruct (IH r w1) as [evs2 H2]. exists (evs1 ++ evs2).
    now rewrite H2, Ha, app_assoc.
  - destruct (read_text env path w) as [r w1] eqn:Hread.
    destruct (IH r w1) as [evs2 H2].
    exists (EvRead path (is_ok r) :: evs2). rewrite H2.
    unfold read_text in Hread. injection Hread as Hr <-.
    cbn [emit trace]. rewrite Hr, <- app_assoc. reflexivity.
  - apply IH.
  - apply IH.
Qed.

(** X16: the descriptor line 142 builds for a remote path is named after
    the last component of the path, so the name holds no [/]; the first
    thing [process_file] does for it is to ask for the download of the
    remote path to [LOCAL_DIRECTORY], a [/] unless the directory is empty
    or ends in one, and the name: a file directly in the local
    directory. *)
Theorem downloads_stay_in_local_directory {A B : Type} (schema_dict : A)
  (dialect : B) (env : Env) (LOCAL_DIRECTORY remote_path : str) (w : World) :
  let name := os_path_basename remote_path in
  let file_info := mkFileInfo remote_path name in
  let sep := if negb (truthy LOCAL_DIRECTORY) || endswith LOCAL_DIRECTORY "/"
             then [] else lit "/" in
  free_of 47 name = true /\
  exists ok rest,
    trace (snd (process_file env LOCAL_DIRECTORY file_info schema_dict
                  dialect w))
    = trace w ++ EvGet remote_path (LOCAL_DIRECTORY ++ sep ++ name) ok :: rest.
Proof.
  intros name file_info sep.
  assert (Hfree : free_of 47 name = true) by apply basename_free_of_sep.
  split; [exact Hfree |].
  rewrite <- run_alone_process_file.
  assert (Hfirst : exists k,
            Pool.process_file LOCAL_DIRECTORY file_info schema_dict dialect
            = Pool.Call
                (Pool.AGet remote_path (LOCAL_DIRECTORY ++ sep ++ name)) k).
  { unfold Pool.process_file. cbv zeta. cbn [fi_filename fi_path file_info].
    fold name. rewrite (join_relative LOCAL_DIRECTORY name Hfree). fold sep.
    eexists. reflexivity. }
  destruct Hfirst as [k ->]. cbn [Pool.run_alone Pool.perform].
  unfold sftp_get at 1. cbv zeta.
  match goal with |- context [Pool.run_alone env (k ?r) ?w1] =>
    destruct (run_alone_trace env (k r) w1) as [evs H] end.
  do 2 eexists. rewrite H. cbn [emit trace]. rewrite <- app_assoc.
  reflexivity.
Qed.

(** ** No file is ever processed *)

Lemma submits_of_app (a b : list Event) :
  submits_of (a ++ b) = submits_of a ++ submits_of b.
Proof.
  induction a as [|ev a IH]; simpl; [reflexivity |].
  destruct ev; simpl; congruence.
Qed.

(** X18: whatever the server holds, a run of the validator submits no task:
    nothing is downloaded, no record is appended, the table is left as
    it is, the log file, once opened, holds the header alone, and the
    summary of a run that returns counts no file. *)
Theorem validator_processes_no_file {A B : Type} (schema_dict : A)
  (dialect : B) (env : Env) (ROOT_DIRECTORIES : list str)
  (LOCAL_DIRECTORY KEYWORD FILE_EXTENSION : str) (recursion_limit : nat)
  (w : World) :
  let out := fetch_and_validate_sftp_files env ROOT_DIRECTORIES
               LOCAL_DIRECTORY KEYWORD FILE_EXTENSION recursion_limit
               schema_dict dialect w in
  let evs := new_events w (snd out) in
  submits_of evs = [] /\
  gets_of evs = [] /\
  appended_records evs = [] /\
  db (snd out) = db w /\
  (log_open_result env (calls_log w) = Ok tt -> log_file (snd out) = HEADER) /\
  (fst out = Ok tt ->
   fst (generate_summary_report (snd out))
   = Ok (summary_text (mkCounts 0 0 0))).
Proof.
  intros out evs.
  assert (Hlist : forall roots,
            submits_of (map (listing_event env) roots) = [] /\
            gets_of (map (listing_event env) roots) = [] /\
            appended_records (map (listing_event env) roots) = []).
  { induction roots as [|root roots IH]; [repeat split |]. exact IH. }
  assert (Hout : exists evs1 text,
            trace (snd out) = trace w ++ evs1 /\
            submits_of evs1 = [] /\ gets_of evs1 = [] /\
            appended_records evs1 = [] /\ db (snd out) = db w /\
            log_file (snd out) = text /\
            (log_open_result env (calls_log w) = Ok tt -> text = HEADER) /\
            (fst out = Ok tt -> text = HEADER)).
  { unfold out. rewrite fetch_and_validate_run. cbv zeta.
    unfold log_write_new, sftp_connect. cbv zeta. cbn [snd].
    destruct (log_open_result env (calls_log w)) as [[] | e].
    - destruct (connect_result env) as [[] | e].
      + rewrite after_listings_world.
        exists ([EvLogInit true; EvConnect true]
                  ++ map (listing_event env) ROOT_DIRECTORIES ++ [EvClose]),
          HEADER.
        cbn [fst snd emit trace db log_file is_ok].
        destruct (Hlist ROOT_DIRECTORIES) as [H1 [H2 H3]].
        split; [now rewrite <- !app_assoc |].
        cbn [app]. cbn [submits_of gets_of appended_records].
        rewrite submits_of_app, gets_of_app, appended_records_app, H1, H2, H3.
        repeat split; reflexivity.
      + exists [EvLogInit true; EvConnect false], HEADER.
        cbn [fst snd emit trace db log_file is_ok].
        split; [now rewrite <- !app_assoc |]. repeat split; reflexivity.
    - exists [EvLogInit false], (log_file w).
      cbn [fst snd emit trace db log_file is_ok].
      repeat split; try reflexivity; discriminate. }
  destruct Hout as [evs1 [text [T [H1 [H2 [H3 [H4 [H5 [H6 H7]]]]]]]]].
  unfold evs. rewrite (new_events_app _ _ _ T).
  repeat split; auto.
  - intros H. rewrite H5. now apply H6.
  - intros H. unfold generate_summary_report. rewrite H5, (H7 H).
    reflexivity.
Qed.

(** ** The e-mail notification *)


(** ** Retry: what is raised when the attempts are used up *)

(** C4, against the claim as worded: when three attempts have failed,
    what [safe_sftp_operation] raises is the exception of the last attempt
    itself, an [OSError] here, not a failure of a type of its own that
    carries it; and with no attempt to make it raises nothing and returns
    [None] without a call. *)
Lemma C4_exhaustion_reraises_the_error :
  let download := sftp_get failing_get_env "/data/a.csv" "downloads/a.csv" in
  let out := safe_sftp_operation world_print download 3 example_world in
  fst out = Raise connection_reset /\
  exn_class connection_reset = lit "OSError" /\
  gets_of (trace (snd out))
  = [lit "/data/a.csv"; lit "/data/a.csv"; lit "/data/a.csv"] /\
  let none := safe_sftp_operation world_print download 0 example_world in
  fst none = Ok None /\ trace (snd none) = [].
Proof. vm_compute. repeat split; reflexivity. Qed.
